(** * BBBDownloader: the subtitle synthesis engine

    A shallow embedding of [src/subtitles.py] and of the chat grouping code of
    [src/chat_conversion.py], with the properties of the cue sequences they
    build; then of the SubRip serializer of [src/subtitles.py] and of the
    ffmpeg command of [src/utils.py].

    - Python's [datetime.timedelta] is an integer number of microseconds kept
      in a bounded range; every arithmetic operation that leaves the range
      raises [OverflowError].  It is modelled by [Z] with the range check
      written out.
    - Exceptions are modelled by the [result] type.
    - A generator handed to [list.extend] is modelled by the list of values it
      yields, or by the exception that ends it: the list being extended is
      local to a caller that does not catch the exception.  The generator
      iterated by the [for] loop of [apply_mp4_fixes] is modelled by the values
      it yields together with the exception that ends it, if any, because the
      body of the loop runs on each value before the generator is resumed.
    - A finite binary64 value is modelled by the rational number it denotes,
      and the rounding of each float operation is written out. *)

From Stdlib Require Import String Ascii ZArith Bool List Sorted Permutation Lia.
From Stdlib Require Import QArith Qround Qabs Lqa.
From Stdlib Require DecimalString.
Import ListNotations.

Open Scope Z_scope.

(** ** Exceptions *)

Inductive exn : Type :=
| OverflowError
| ZeroDivisionError
| IndexError.

Inductive result (A : Type) : Type :=
| Ok (a : A)
| Raise (e : exn).

Arguments Ok {A} a.
Arguments Raise {A} e.

Definition bind {A B : Type} (c : result A) (k : A -> result B) : result B :=
  match c with
  | Ok a => k a
  | Raise e => Raise e
  end.

Notation "x <- c ;; k" := (bind c (fun x => k))
  (at level 61, c at next level, right associativity).
Notation "' p <- c ;; k" := (bind c (fun x => let 'p := x in k))
  (at level 61, p pattern, c at next level, right associativity).

(** ** Sequences and loops *)

(** [l[i]] for a non-negative index. *)
Definition index {A : Type} (l : list A) (i : nat) : result A :=
  match nth_error l i with
  | Some x => Ok x
  | None => Raise IndexError
  end.

(** [l[-1]]. *)
Definition last_item {A : Type} (l : list A) : result A :=
  index l (length l - 1).

(** [l[-1] = x] on a non-empty list. *)
Definition set_last {A : Type} (l : list A) (x : A) : list A :=
  removelast l ++ [x].

(** [range(n)]. *)
Definition range (n : nat) : list nat := seq 0 n.

(** [for x in xs: s = body(s, x)], stopping at the first exception. *)
Fixpoint for_each {A S : Type} (xs : list A) (body : S -> A -> result S) (s : S)
  : result S :=
  match xs with
  | [] => Ok s
  | x :: xs' => s' <- body s x ;; for_each xs' body s'
  end.

(** A generator iterated by a [for] loop: the values it yields, in order, and
    the exception that ends it, if it does not end by returning. *)
Record generator (A : Type) : Type := mkGenerator {
  yielded : list A;
  raised : option exn
}.

Arguments mkGenerator {A} yielded raised.
Arguments yielded {A} g.
Arguments raised {A} g.

(** A generator whose body is [for x in xs:] followed by statements that
    compute, and may raise, before they yield: [body x] is the list of the
    values yielded for [x]. *)
Fixpoint yield_each {A B : Type} (xs : list A) (body : A -> result (list B))
  : generator B :=
  match xs with
  | [] => mkGenerator [] None
  | x :: xs' =>
      match body x with
      | Ok ys =>
          let rest := yield_each xs' body in
          mkGenerator (ys ++ yielded rest) (raised rest)
      | Raise e => mkGenerator [] (Some e)
      end
  end.

(** ** Floating point quotients of integers

    Python's [int / int] is the binary64 number nearest to the exact quotient,
    ties going to the even significand.  A binary64 value is kept as
    [mant * 2 ^ expo]; the quotients that occur here have a magnitude between
    [2^-67] and [2^67], far from the subnormal and the infinite range, which
    are not modelled. *)

(** [_divide_and_round(a, b)] of the datetime module: the integer nearest to
    [a / b], ties to even. *)
Definition divide_nearest (a b : Z) : Z :=
  let q := a / b in
  let r := 2 * (a mod b) in
  let greater_than_half := if 0 <? b then b <? r else r <? b in
  if greater_than_half || ((r =? b) && (q mod 2 =? 1)) then q + 1 else q.

Record float : Type := Dyadic { mant : Z; expo : Z }.

(** The exponent [e] with [2^52 <= x / (y * 2^e) < 2^53], for [0 < x], [0 < y]. *)
Definition binary64_exponent (x y : Z) : Z :=
  let e1 := Z.log2 x - Z.log2 y - 52 in
  if 2 ^ 52 * (y * 2 ^ Z.max e1 0) <=? x * 2 ^ Z.max (- e1) 0 then e1 else e1 - 1.

(** [a / b] on Python integers, [b <> 0]. *)
Definition int_true_divide (a b : Z) : float :=
  if a =? 0 then Dyadic 0 0
  else
    let x := Z.abs a in
    let y := Z.abs b in
    let e := binary64_exponent x y in
    let m := divide_nearest (x * 2 ^ Z.max (- e) 0) (y * 2 ^ Z.max e 0) in
    Dyadic (Z.sgn a * Z.sgn b * m) e.

(** [math.ceil]. *)
Definition ceil (f : float) : Z :=
  if 0 <=? expo f then mant f * 2 ^ expo f
  else - ((- mant f) / 2 ^ (- expo f)).

(** ** datetime.timedelta *)

Module Timedelta.

(** A duration, in microseconds. *)
Definition timedelta : Type := Z.

Definition US_PER_DAY : Z := 86400000000.
Definition MAX_DELTA_DAYS : Z := 999999999.

(** [timedelta.min] and [timedelta.max], in microseconds. *)
Definition min_us : Z := - MAX_DELTA_DAYS * US_PER_DAY.
Definition max_us : Z := (MAX_DELTA_DAYS + 1) * US_PER_DAY - 1.

Definition in_range (us : Z) : bool := (min_us <=? us) && (us <=? max_us).

(** Building a timedelta checks the number of days. *)
Definition of_microseconds (us : Z) : result timedelta :=
  if in_range us then Ok us else Raise OverflowError.

Definition seconds (s : Z) : timedelta := s * 1000000.

Definition add (a b : timedelta) : result timedelta := of_microseconds (a + b).
Definition sub (a b : timedelta) : result timedelta := of_microseconds (a - b).

(** [timedelta * int]. *)
Definition mul (a : timedelta) (i : Z) : result timedelta :=
  of_microseconds (a * i).

(** [timedelta / int]: rounded to the nearest microsecond, ties to even. *)
Definition div_int (a : timedelta) (i : Z) : result timedelta :=
  if i =? 0 then Raise ZeroDivisionError
  else of_microseconds (divide_nearest a i).

(** [timedelta / timedelta]: a float. *)
Definition truediv (a b : timedelta) : result float :=
  if b =? 0 then Raise ZeroDivisionError else Ok (int_true_divide a b).

(** [min(a, b)]. *)
Definition min (a b : timedelta) : timedelta := if b <? a then b else a.

End Timedelta.

Import Timedelta.

(** ** subtitles.py *)

Definition __INT_32_MAX_VALUE : Z := 2 ^ 31 - 1.
Definition MAX_VALID_MP4_DURATION : timedelta := __INT_32_MAX_VALUE.

Record SubtitlesEntry : Type := mkSubtitlesEntry {
  text : string;
  start_time : timedelta;
  end_time : timedelta
}.

(** The default value of [gape_placeholder], a no-break space. *)
Definition default_placeholder : string := String (ascii_of_nat 160) EmptyString.

Definition __split_entry (entry : SubtitlesEntry) : result (list SubtitlesEntry) :=
  duration <- sub (end_time entry) (start_time entry) ;;
  if duration <=? MAX_VALID_MP4_DURATION then Ok [entry]
  else
    ratio <- truediv duration MAX_VALID_MP4_DURATION ;;
    let parts := ceil ratio in
    duration_per_one <- div_int duration parts ;;
    out <- for_each (range (Z.to_nat (parts - 1)))
             (fun out i =>
                offset <- mul duration_per_one (Z.of_nat i) ;;
                start <- add (start_time entry) offset ;;
                stop <- add start duration_per_one ;;
                Ok (out ++ [mkSubtitlesEntry (text entry) start stop]))
             [] ;;
    offset <- mul duration_per_one (parts - 1) ;;
    start <- add (start_time entry) offset ;;
    Ok (out ++ [mkSubtitlesEntry (text entry) start (end_time entry)]).

(** [__fill_gapes] is a generator: its [return entries] on a short input ends
    the iteration without yielding anything. *)
Definition __fill_gapes (entries : list SubtitlesEntry) (gape_placeholder : string)
  : generator SubtitlesEntry :=
  if (length entries <? 2)%nat then mkGenerator [] None
  else
    let entries := mkSubtitlesEntry gape_placeholder 0 0 :: entries in
    yield_each (range (length entries - 1))
      (fun i =>
         previous_entry <- index entries i ;;
         current_entry <- index entries (i + 1) ;;
         gape_duration <- sub (start_time current_entry) (end_time previous_entry) ;;
         Ok ((if MAX_VALID_MP4_DURATION <? gape_duration
              then [mkSubtitlesEntry gape_placeholder
                      (end_time previous_entry) (start_time current_entry)]
              else [])
             ++ [mkSubtitlesEntry (text current_entry)
                   (start_time current_entry) (end_time current_entry)])).

(** The first loop of [apply_mp4_fixes]: every cue is split as soon as it is
    yielded; an exception of the generator surfaces after the cues yielded
    before it have been split. *)
Definition fill_and_split (entries : list SubtitlesEntry) (gape_placeholder : string)
  : result (list SubtitlesEntry) :=
  let gen := __fill_gapes entries gape_placeholder in
  result <-
    for_each (yielded gen)
      (fun result entry => parts <- __split_entry entry ;; Ok (result ++ parts))
      [] ;;
  match raised gen with
  | Some e => Raise e
  | None => Ok result
  end.

(** The last statement of [apply_mp4_fixes]: the clamp of the last cue. *)
Definition clamp_last (result : list SubtitlesEntry) (recording_duration : option timedelta)
  : list SubtitlesEntry :=
  match result, recording_duration with
  | _ :: _, Some rd =>
      let l := last result (mkSubtitlesEntry EmptyString 0 0) in
      set_last result
        (mkSubtitlesEntry (text l) (start_time l) (Timedelta.min (end_time l) rd))
  | _, _ => result
  end.

Definition apply_mp4_fixes (entries : list SubtitlesEntry)
  (recording_duration : option timedelta) (gape_placeholder : string)
  : result (list SubtitlesEntry) :=
  result <- fill_and_split entries gape_placeholder ;;
  Ok (clamp_last result recording_duration).

(** ** chat_conversion.py *)

Record BbbChatEntry : Type := mkBbbChatEntry {
  name : string;
  message : string;
  timestamp : timedelta
}.

Definition __build_text (entry : BbbChatEntry) : string :=
  (name entry ++ ": " ++ message entry)%string.

Definition __split_group (group : list BbbChatEntry) (duration : timedelta)
  : result (list SubtitlesEntry) :=
  let size := length group in
  part <- div_int duration (Z.of_nat size) ;;
  first <- index group 0 ;;
  let start := timestamp first in
  '(out, current_time) <-
    for_each (range (size - 1))
      (fun '(out, current_time) i =>
         current <- index group i ;;
         stop <- add current_time part ;;
         Ok (out ++ [mkSubtitlesEntry (__build_text current) current_time stop], stop))
      ([], start) ;;
  current <- last_item group ;;
  stop <- add start duration ;;
  Ok (out ++ [mkSubtitlesEntry (__build_text current) current_time stop]).

(** [groups[entry.timestamp].append(entry)] on a [defaultdict(list)]: a
    dictionary keeps its keys in the order of their first insertion. *)
Fixpoint group_append (entry : BbbChatEntry)
  (groups : list (timedelta * list BbbChatEntry))
  : list (timedelta * list BbbChatEntry) :=
  match groups with
  | [] => [(timestamp entry, [entry])]
  | (key, group) :: rest =>
      if key =? timestamp entry then (key, group ++ [entry]) :: rest
      else (key, group) :: group_append entry rest
  end.

Definition group_by_timestamp (entries : list BbbChatEntry)
  : list (timedelta * list BbbChatEntry) :=
  fold_left (fun groups entry => group_append entry groups) entries [].

Definition to_subtitles (entries : list BbbChatEntry) (max_duration : timedelta)
  : result (list SubtitlesEntry) :=
  let values := map snd (group_by_timestamp entries) in
  match values with
  | [] => Ok []
  | _ :: _ =>
      result <-
        for_each (range (length values - 1))
          (fun result i =>
             current_group <- index values i ;;
             next_group <- index values (i + 1) ;;
             current_first <- index current_group 0 ;;
             next_first <- index next_group 0 ;;
             let current_segment_time := timestamp current_first in
             let next_segment_time := timestamp next_first in
             gap <- sub next_segment_time current_segment_time ;;
             let duration := Timedelta.min max_duration gap in
             cues <- __split_group current_group duration ;;
             Ok (result ++ cues))
          [] ;;
      current_group <- last_item values ;;
      current_first <- index current_group 0 ;;
      cues <- __split_group current_group max_duration ;;
      Ok (result ++ cues)
  end.

(** [build_chat_subtitles] without its input and output: the transcript is an
    argument, and the result is the cue sequence handed to the serializer, or
    [None] when no subtitle file is written. *)
Definition CHAT_ENTRY_MAX_DURATION : timedelta := seconds 3.

Definition build_chat_subtitles (chat : list BbbChatEntry) (recording_duration : timedelta)
  : result (option (list SubtitlesEntry)) :=
  subtitles <- to_subtitles chat CHAT_ENTRY_MAX_DURATION ;;
  subtitles <- apply_mp4_fixes subtitles (Some recording_duration) default_placeholder ;;
  match subtitles with
  | [] => Ok None
  | _ :: _ => Ok (Some subtitles)
  end.

(** * Vocabulary of the properties *)

(** Short names for the entries and cues of the examples. *)
Definition chat (n m : string) (s : Z) : BbbChatEntry := mkBbbChatEntry n m (seconds s).
Definition cue (t : string) (a b : Z) : SubtitlesEntry := mkSubtitlesEntry t a b.

(** A [timedelta] in range. *)
Definition valid (t : timedelta) : Prop := min_us <= t <= max_us.

Ltac unfold_range :=
  unfold valid, min_us, max_us, MAX_DELTA_DAYS, US_PER_DAY in *.

(** A timestamp between zero and 999999999 days: the difference of two of them
    is a [timedelta]. *)
Definition offset (t : timedelta) : Prop := 0 <= t <= - min_us.

(** The exact ceiling of [a / b]. *)
Definition ceil_div (a b : Z) : Z := - ((- a) / b).

(** Consecutive cues touch: each one ends where the next one starts. *)
Fixpoint contiguous (cues : list SubtitlesEntry) : Prop :=
  match cues with
  | c :: ((c' :: _) as rest) => end_time c = start_time c' /\ contiguous rest
  | _ => True
  end.

(** The cues of the loop of [__split_group]: one per entry, each [part] long,
    from [current_time] on. *)
Fixpoint evenly (part current_time : timedelta) (group : list BbbChatEntry)
  : list SubtitlesEntry :=
  match group with
  | [] => []
  | entry :: rest =>
      mkSubtitlesEntry (__build_text entry) current_time (current_time + part)
      :: evenly part (current_time + part) rest
  end.

(** The sum of the durations of the cues. *)
Definition total_duration (cues : list SubtitlesEntry) : Z :=
  fold_right (fun c acc => end_time c - start_time c + acc) 0 cues.

(** The sub-cue number [i] of the loop of [__split_entry]. *)
Definition sub_cue (entry : SubtitlesEntry) (duration_per_one : timedelta) (i : nat)
  : SubtitlesEntry :=
  mkSubtitlesEntry (text entry)
    (start_time entry + duration_per_one * Z.of_nat i)
    (start_time entry + duration_per_one * Z.of_nat i + duration_per_one).

(** Sub-algorithm A in the words of the specification: walk the cues with the
    end of the previous one (zero before the first); a gap longer than the
    duration limit is filled by one placeholder cue spanning exactly that gap,
    emitted before the next real cue. *)
Fixpoint gap_filling (gape_placeholder : string) (previous_end : timedelta)
  (cues : list SubtitlesEntry) : list SubtitlesEntry :=
  match cues with
  | [] => []
  | next :: rest =>
      (if MAX_VALID_MP4_DURATION <? start_time next - previous_end
       then [mkSubtitlesEntry gape_placeholder previous_end (start_time next)]
       else [])
      ++ next :: gap_filling gape_placeholder (end_time next) rest
  end.

(** Consecutive cues, the first one taken after [previous_end], are at a
    distance that a [timedelta] can hold. *)
Fixpoint gaps_in_range (previous_end : timedelta) (cues : list SubtitlesEntry) : Prop :=
  match cues with
  | [] => True
  | next :: rest =>
      valid (start_time next - previous_end) /\ gaps_in_range (end_time next) rest
  end.

(** A group of the dictionary is not empty and holds entries of its key. *)
Definition keyed (kg : timedelta * list BbbChatEntry) : Prop :=
  snd kg <> [] /\ Forall (fun e => timestamp e = fst kg) (snd kg).

(** The allotted duration of a group, in the words of the specification: the
    full [D] for the last group, and for the others [D] capped by the distance
    to the timestamp of the next group. *)
Definition allotted_duration (D : timedelta) (this : timedelta)
  (next_groups : list (timedelta * list BbbChatEntry)) : timedelta :=
  match next_groups with
  | [] => D
  | (next, _) :: _ => Timedelta.min D (next - this)
  end.

(** Every group is split over its allotted duration, in the order of the groups. *)
Fixpoint split_by_allotment (D : timedelta) (groups : list (timedelta * list BbbChatEntry))
  : result (list SubtitlesEntry) :=
  match groups with
  | [] => Ok []
  | (this, group) :: rest =>
      cues <- __split_group group (allotted_duration D this rest) ;;
      more <- split_by_allotment D rest ;;
      Ok (cues ++ more)
  end.

(** The display window of a group: its cues, one per entry and in the order of
    the entries, start at the timestamp of the group, touch one another, and
    end [duration] after that timestamp, so that their durations add up to
    [duration]. *)
Definition window (this duration : timedelta) (group : list BbbChatEntry)
  (block : list SubtitlesEntry) : Prop :=
  exists front final,
    block = front ++ [final]
    /\ map text block = map __build_text group
    /\ start_time (hd final front) = this
    /\ end_time final = this + duration
    /\ contiguous block
    /\ total_duration block = duration.

(** The cues of the groups, group by group: the cues of every group take up
    the window of its allotted duration. *)
Fixpoint allotted_windows (D : timedelta) (groups : list (timedelta * list BbbChatEntry))
  (blocks : list (list SubtitlesEntry)) : Prop :=
  match groups, blocks with
  | [], [] => True
  | (this, group) :: rest, block :: more =>
      window this (allotted_duration D this rest) group block
      /\ allotted_windows D rest more
  | _, _ => False
  end.

(** How the cue [c] of an entry [e] meets the cue [c'] of the next entry [e']:
    [c] ends no later than [c'] starts; they touch when [e'] comes at most [D]
    after [e]; and when [e'] comes more than [D] after [e], [c] ends [D] after
    the timestamp of [e] and [c'] starts at the timestamp of [e'], which
    leaves the time between them uncovered. *)
Definition joined (D : timedelta) (e : BbbChatEntry) (c : SubtitlesEntry)
  (e' : BbbChatEntry) (c' : SubtitlesEntry) : Prop :=
  end_time c <= start_time c'
  /\ (timestamp e' - timestamp e <= D -> end_time c = start_time c')
  /\ (D < timestamp e' - timestamp e ->
      end_time c = timestamp e + D /\ start_time c' = timestamp e').

Definition chained (D : timedelta) (entries : list BbbChatEntry)
  (cues : list SubtitlesEntry) : Prop :=
  forall i e e' c c',
    nth_error entries i = Some e -> nth_error entries (S i) = Some e' ->
    nth_error cues i = Some c -> nth_error cues (S i) = Some c' ->
    joined D e c e' c'.

(** * Vocabulary of the further properties *)

(** The only exception a computation can end with is [OverflowError]. *)
Definition only_overflow {A : Type} (r : result A) : Prop :=
  forall e, r = Raise e -> e = OverflowError.

(** The distinct values of a list, in the order of their first occurrence. *)
Fixpoint distinct (l : list Z) : list Z :=
  match l with
  | [] => []
  | x :: l' => x :: filter (fun y => negb (y =? x)) (distinct l')
  end.

(** The dictionary of [to_subtitles], said without the insertions: one group per
    distinct timestamp, in the order in which the timestamps first occur, each
    group holding the entries of its timestamp in the order of the transcript. *)
Definition groups_by_filter (entries : list BbbChatEntry)
  : list (timedelta * list BbbChatEntry) :=
  map (fun key => (key, filter (fun e => timestamp e =? key) entries))
      (distinct (map timestamp entries)).

(** The loops of [to_subtitles] said by recursion on the groups: each group is
    split over [max_duration], capped by the distance to the next group when
    there is one. *)
Fixpoint split_by_gaps (max_duration : timedelta)
  (groups : list (timedelta * list BbbChatEntry)) : result (list SubtitlesEntry) :=
  match groups with
  | [] => Ok []
  | (this, group) :: rest =>
      duration <-
        match rest with
        | [] => Ok max_duration
        | (next, _) :: _ => gap <- sub next this ;; Ok (Timedelta.min max_duration gap)
        end ;;
      cues <- __split_group group duration ;;
      more <- split_by_gaps max_duration rest ;;
      Ok (cues ++ more)
  end.

(** A cue sequence that needs no fix: walking the cues from [previous_end], no
    gap and no cue is longer than the duration limit (and the differences are
    in the range of [timedelta]). *)
Fixpoint compliant (previous_end : timedelta) (cues : list SubtitlesEntry) : Prop :=
  match cues with
  | [] => True
  | next :: rest =>
      min_us <= start_time next - previous_end <= MAX_VALID_MP4_DURATION
      /\ min_us <= end_time next - start_time next <= MAX_VALID_MP4_DURATION
      /\ compliant (end_time next) rest
  end.

(** * The code around the engine *)

(** ** utils.py *)

(** [f'{input_index}']: the decimal digits of a counter. *)
Definition str_of_nat (n : nat) : string :=
  DecimalString.NilEmpty.string_of_uint (Nat.to_uint n).

(** [build_video] hands one argument vector to [pipe_run], which starts the
    process; the model returns that vector. *)
Definition build_video (output_filename webcam_path : string)
  (deskshare_path subtitles_path : option string) : list string :=
  let input_index := 1%nat in
  let files := ["-i"; webcam_path]%string in
  let maps := ["-map"; "0:a:0"]%string in
  let '(files, maps, input_index) :=
    match deskshare_path with
    | Some deskshare_path =>
        (files ++ ["-i"; deskshare_path]%string,
         maps ++ ["-map"; str_of_nat input_index ++ ":v:0"]%string,
         (input_index + 1)%nat)
    | None => (files, maps ++ ["-map"; "0:v:0"]%string, input_index)
    end in
  let '(files, maps, input_index) :=
    match subtitles_path with
    | Some subtitles_path =>
        (files ++ ["-i"; subtitles_path]%string,
         maps ++ ["-c:s"; "mov_text"; "-map"; str_of_nat input_index ++ ":s:0"]%string,
         (input_index + 1)%nat)
    | None => (files, maps, input_index)
    end in
  ["ffmpeg"; "-y"]%string ++ files ++ maps ++ [output_filename].

(** The input files of the ffmpeg command, in the order of their [-i] options. *)
Definition option_list {A : Type} (o : option A) : list A :=
  match o with
  | Some a => [a]
  | None => []
  end.

Definition input_files (webcam_path : string) (deskshare_path subtitles_path : option string)
  : list string :=
  webcam_path :: option_list deskshare_path ++ option_list subtitles_path.

(** ** Binary64 arithmetic

    A finite binary64 value is kept as the rational number it denotes.  An
    operation of C that rounds is the exact operation followed by [round64];
    [fmod], [floor] and [modf] are exact.  The sign of a zero is not kept:
    [divmod] gives a zero remainder the sign of the divisor, which is positive
    in [__to_srt_format], and the quotients are only read through [int]. *)

Definition Q_of_float (f : float) : Q :=
  if 0 <=? expo f then inject_Z (mant f * 2 ^ expo f)
  else Qmake (mant f) (Z.to_pos (2 ^ (- expo f))).

(** The binary64 value nearest to a rational, ties to even. *)
Definition round64 (q : Q) : Q :=
  Q_of_float (int_true_divide (Qnum q) (Zpos (Qden q))).

Definition Qlt_bool (x y : Q) : bool := negb (Qle_bool y x).

(** The integer part of a value, rounded towards zero: [int(x)]. *)
Definition trunc (x : Q) : Z :=
  if Qle_bool 0 x then Qfloor x else Qceiling x.

(** C's [fmod(x, y)]: exact, with the sign of [x]. *)
Definition fmod (x y : Q) : Q := (x - y * inject_Z (trunc (x / y)))%Q.

(** [divmod(vx, wx)] on floats, for [wx] other than zero: [_float_div_mod] of
    CPython's floatobject.c. *)
Definition float_divmod (vx wx : Q) : Q * Q :=
  let mod_ := fmod vx wx in
  let div := round64 (round64 (vx - mod_) / wx) in
  let '(mod_, div) :=
    if negb (Qeq_bool mod_ 0) && negb (Bool.eqb (Qlt_bool wx 0) (Qlt_bool mod_ 0))
    then (round64 (mod_ + wx), round64 (div - 1))
    else (mod_, div) in
  let floordiv :=
    if Qeq_bool div 0 then 0%Q
    else
      let floordiv := inject_Z (Qfloor div) in
      if Qlt_bool (1 # 2) (round64 (div - floordiv)) then round64 (floordiv + 1)
      else floordiv in
  (floordiv, mod_).

(** [math.modf(x)]: the fractional and the integer part, both with the sign of
    [x]. *)
Definition modf (x : Q) : Q * Q :=
  let whole := inject_Z (trunc x) in ((x - whole)%Q, whole).

(** [timedelta.total_seconds()]: the microseconds divided by [10**6]. *)
Definition total_seconds (delta : timedelta) : Q :=
  Q_of_float (int_true_divide delta 1000000).

(** ** Formatting *)

(** The decimal digits of a natural number. *)
Definition digits (n : Z) : string :=
  DecimalString.NilZero.string_of_uint (N.to_uint (Z.to_N n)).

Definition zeros (n : nat) : string := string_of_list_ascii (repeat "0"%char n).

(** [digits] padded with zeros on the left up to [width] characters. *)
Definition zero_pad (width : nat) (digits : string) : string :=
  (zeros (width - String.length digits) ++ digits)%string.

(** [f'{n:02}'] on an integer: at least two characters, the zeros after the
    sign. *)
Definition format_02 (n : Z) : string :=
  if n <? 0 then ("-" ++ zero_pad 1 (digits (- n)))%string
  else zero_pad 2 (digits n).

(** [f'{x:.3f}']: [x] rounded to three decimals, ties to even. *)
Definition format_3f (x : Q) : string :=
  let scaled := (Qabs x * 1000)%Q in
  let thousandths := divide_nearest (Qnum scaled) (Zpos (Qden scaled)) in
  ((if Qlt_bool x 0 then "-" else "")
   ++ digits (thousandths / 1000) ++ "." ++ zero_pad 3 (digits (thousandths mod 1000)))%string.

(** [s[n:]]. *)
Fixpoint drop (n : nat) (s : string) : string :=
  match n, s with
  | S n', String _ s' => drop n' s'
  | _, _ => s
  end.

Definition newline : string := String (ascii_of_nat 10) EmptyString.

(** ** subtitles.py: the SubRip text *)

Definition __to_srt_format (delta : timedelta) : string :=
  let '(hours, remainder1) := float_divmod (total_seconds delta) 3600 in
  let '(minutes, remainder2) := float_divmod remainder1 60 in
  let '(milliseconds, seconds) := modf remainder2 in
  (format_02 (trunc hours) ++ ":" ++ format_02 (trunc minutes) ++ ":"
   ++ format_02 (trunc seconds) ++ "," ++ drop 2 (format_3f milliseconds))%string.

Definition __str__ (self : SubtitlesEntry) : string :=
  (__to_srt_format (start_time self) ++ " --> " ++ __to_srt_format (end_time self)
   ++ newline ++ text self)%string.

(** [enumerate(entries, start)] *)
Fixpoint enumerate {A : Type} (l : list A) (start : nat) : list (nat * A) :=
  match l with
  | [] => []
  | x :: l' => (start, x) :: enumerate l' (S start)
  end.

Definition to_srt (entries : list SubtitlesEntry) : string :=
  let str_entries :=
    map (fun '(number, entry) => (str_of_nat number ++ newline ++ __str__ entry)%string)
        (enumerate entries 1) in
  String.concat (newline ++ newline) str_entries.

(** A SubRip time stamp [HH:MM:SS,mmm] for a count of whole seconds and a
    count of milliseconds. *)
Definition srt_time (seconds milliseconds : Z) : string :=
  (format_02 (seconds / 3600) ++ ":" ++ format_02 (seconds / 60 mod 60) ++ ":"
   ++ format_02 (seconds mod 60) ++ "," ++ zero_pad 3 (digits milliseconds))%string.

(** ** The gaps of a cue sequence *)

(** The offset reached after the cues: the end of the last one, or
    [previous_end] when there is none. *)
Definition end_of (previous_end : timedelta) (cues : list SubtitlesEntry) : timedelta :=
  fold_left (fun _ c => end_time c) cues previous_end.

(** Walking the cues from [previous_end], every gap, the distance from the end
    of a cue (or from [previous_end]) to the start of the next one, satisfies
    [P]. *)
Fixpoint every_gap (P : timedelta -> Prop) (previous_end : timedelta)
  (cues : list SubtitlesEntry) : Prop :=
  match cues with
  | [] => True
  | next :: rest =>
      P (start_time next - previous_end) /\ every_gap P (end_time next) rest
  end.

(** What the compliance pass is for: no cue starts more than the duration
    limit after the end of the one before. *)
Definition no_long_gap : timedelta -> list SubtitlesEntry -> Prop :=
  every_gap (fun gap => gap <= MAX_VALID_MP4_DURATION).

(** No cue starts before the end of the one before. *)
Definition no_overlap : timedelta -> list SubtitlesEntry -> Prop :=
  every_gap (fun gap => 0 <= gap).

(** * Properties *)

(** ** The model on concrete inputs *)

Example divide_nearest_ties :
  map (fun a => divide_nearest a 2) [1; 3; 5; -1; -3] = [0; 2; 2; 0; -2]
  /\ divide_nearest 7 (-2) = -4 /\ divide_nearest 3000000 7 = 428571.
Proof. repeat split; reflexivity. Qed.

Example true_divide_examples :
  ceil (int_true_divide 7 2) = 4
  /\ ceil (int_true_divide 6 2) = 3
  /\ ceil (int_true_divide 1 3) = 1
  /\ ceil (int_true_divide (-7) 2) = -3
  /\ int_true_divide 1 3 = Dyadic 6004799503160661 (-54)
  /\ int_true_divide 10 1 = Dyadic 5629499534213120 (-49).
Proof. repeat split; vm_compute; reflexivity. Qed.

(** From [2^23] limits on, the float quotient can lose a remainder of one
    microsecond, and its ceiling is then the floor of the exact quotient. *)
Example ceil_of_a_huge_quotient :
  let d := 2 ^ 23 * MAX_VALID_MP4_DURATION + 1 in
  ceil (int_true_divide d MAX_VALID_MP4_DURATION) = 2 ^ 23
  /\ ceil_div d MAX_VALID_MP4_DURATION = 2 ^ 23 + 1.
Proof. split; vm_compute; reflexivity. Qed.

Example scenario_1 :
  to_subtitles
    [chat "a" "x" 10; chat "b" "y" 10; chat "c" "z" 10; chat "d" "w" 20] (seconds 3)
  = Ok [cue "a: x" 10000000 11000000; cue "b: y" 11000000 12000000;
        cue "c: z" 12000000 13000000; cue "d: w" 20000000 23000000].
Proof. vm_compute. reflexivity. Qed.

Example scenario_2 :
  apply_mp4_fixes [cue "a" 0 3000000; cue "b" 2400000000 2403000000] None "_"
  = Ok [cue "a" 0 3000000; cue "_" 3000000 1201500000;
        cue "_" 1201500000 2400000000; cue "b" 2400000000 2403000000].
Proof. vm_compute. reflexivity. Qed.

Example timedelta_range :
  add max_us 1 = Raise OverflowError /\ sub 0 max_us = Raise OverflowError
  /\ sub 0 (- min_us) = Ok min_us.
Proof. repeat split; reflexivity. Qed.

(** ** Results and timedelta arithmetic *)

Lemma of_microseconds_valid (us : Z) : valid us -> of_microseconds us = Ok us.
Proof.
  intros [Hlo Hhi]. unfold of_microseconds, in_range.
  apply Z.leb_le in Hlo, Hhi. rewrite Hlo, Hhi. reflexivity.
Qed.

Lemma sub_valid (a b : timedelta) : valid (a - b) -> sub a b = Ok (a - b).
Proof. apply of_microseconds_valid. Qed.

Lemma min_is_Zmin (a b : timedelta) : Timedelta.min a b = Z.min a b.
Proof. unfold Timedelta.min. destruct (Z.ltb_spec b a); lia. Qed.

(** ** Lists *)

Lemma removelast_snoc {A : Type} (l : list A) (x : A) : removelast (l ++ [x]) = l.
Proof. apply removelast_last. Qed.

(** ** The compliance pass on short inputs *)

(** C10: on an input of fewer than two cues the generator [__fill_gapes] yields
    nothing, so [apply_mp4_fixes] returns the empty sequence whatever the
    recording duration and the placeholder are, and [build_chat_subtitles],
    given a transcript whose cue sequence is that short, writes no subtitles. *)
Theorem apply_mp4_fixes_short_input
  (entries : list SubtitlesEntry) (recording_duration : option timedelta)
  (gape_placeholder : string) :
  (length entries < 2)%nat ->
  __fill_gapes entries gape_placeholder = mkGenerator [] None
  /\ apply_mp4_fixes entries recording_duration gape_placeholder = Ok []
  /\ forall (transcript : list BbbChatEntry) (duration : timedelta),
       to_subtitles transcript CHAT_ENTRY_MAX_DURATION = Ok entries ->
       build_chat_subtitles transcript duration = Ok None.
Proof.
  intros Hlen.
  assert (Hfill : forall ph, __fill_gapes entries ph = mkGenerator [] None).
  { intros ph. unfold __fill_gapes.
    apply Nat.ltb_lt in Hlen. rewrite Hlen. reflexivity. }
  assert (Hfix : forall rd ph, apply_mp4_fixes entries rd ph = Ok []).
  { intros rd ph. unfold apply_mp4_fixes, fill_and_split.
    rewrite Hfill. simpl. destruct rd; reflexivity. }
  repeat split; auto.
  intros transcript duration Hsub.
  unfold build_chat_subtitles. rewrite Hsub. simpl. rewrite Hfix. reflexivity.
Qed.

Lemma apply_mp4_fixes_short_input_witness :
  (length [cue "a: x" 5000000 8000000] < 2)%nat
  /\ apply_mp4_fixes [cue "a: x" 5000000 8000000] (Some 4000000) default_placeholder
     = Ok []
  /\ build_chat_subtitles [chat "a" "x" 5] 4000000 = Ok None.
Proof.
  assert (Hlen : (length [cue "a: x" 5000000 8000000] < 2)%nat) by (simpl; lia).
  destruct (apply_mp4_fixes_short_input
              [cue "a: x" 5000000 8000000] (Some 4000000) default_placeholder Hlen)
    as [_ [Hfix Hbuild]].
  split; [exact Hlen | split; [exact Hfix | apply Hbuild; reflexivity]].
Defined.

(** ** Clamping *)

Lemma clamp_last_snoc (front : list SubtitlesEntry) (final : SubtitlesEntry)
  (T : timedelta) :
  clamp_last (front ++ [final]) (Some T)
  = front ++ [mkSubtitlesEntry (text final) (start_time final)
                (Z.min (end_time final) T)].
Proof.
  unfold clamp_last.
  destruct (front ++ [final]) as [|c rest] eqn:E.
  - destruct front; discriminate.
  - rewrite <- E. unfold set_last.
    rewrite last_last, removelast_snoc, min_is_Zmin. reflexivity.
Qed.

(** C9: when the gap-filled and split sequence is not empty and the recording
    duration [T] is less than the end of its last cue, [apply_mp4_fixes]
    returns that sequence with its last cue replaced by a cue of the same text
    and start whose end is [T]; every cue before the last one is unchanged. *)
Theorem clamp_replaces_only_last_cue
  (entries : list SubtitlesEntry) (gape_placeholder : string)
  (front : list SubtitlesEntry) (final : SubtitlesEntry) (T : timedelta) :
  fill_and_split entries gape_placeholder = Ok (front ++ [final]) ->
  T < end_time final ->
  apply_mp4_fixes entries (Some T) gape_placeholder
  = Ok (front ++ [mkSubtitlesEntry (text final) (start_time final) T]).
Proof.
  intros Hpass HT.
  unfold apply_mp4_fixes. rewrite Hpass. simpl bind.
  rewrite clamp_last_snoc, Z.min_r by lia. reflexivity.
Qed.

Lemma clamp_replaces_only_last_cue_witness :
  apply_mp4_fixes [cue "a" 0 3000000; cue "b" 5000000 8000000] (Some 7000000) "_"
  = Ok [cue "a" 0 3000000; cue "b" 5000000 7000000].
Proof.
  apply (clamp_replaces_only_last_cue
           [cue "a" 0 3000000; cue "b" 5000000 8000000] "_"
           [cue "a" 0 3000000] (cue "b" 5000000 8000000) 7000000).
  - vm_compute. reflexivity.
  - simpl. lia.
Defined.

(** C1, as the code has it: when the recording duration [T] is less than the
    start of the last cue of the gap-filled and split sequence,
    [apply_mp4_fixes] raises nothing; it returns the sequence with the end of
    its last cue lowered to [T] (or left where it was, if it was lower
    already), so that the last cue ends before it starts. *)
Theorem clamp_below_last_start_returns
  (entries : list SubtitlesEntry) (gape_placeholder : string)
  (front : list SubtitlesEntry) (final : SubtitlesEntry) (T : timedelta) :
  fill_and_split entries gape_placeholder = Ok (front ++ [final]) ->
  T < start_time final ->
  exists clamped,
    apply_mp4_fixes entries (Some T) gape_placeholder = Ok (front ++ [clamped])
    /\ text clamped = text final
    /\ start_time clamped = start_time final
    /\ end_time clamped = Z.min (end_time final) T
    /\ end_time clamped < start_time clamped.
Proof.
  intros Hpass HT.
  unfold apply_mp4_fixes. rewrite Hpass. simpl bind.
  rewrite clamp_last_snoc.
  eexists. split; [reflexivity|]. simpl. repeat split. lia.
Qed.

Lemma clamp_below_last_start_returns_witness :
  exists clamped,
    apply_mp4_fixes [cue "a" 0 3000000; cue "b" 5000000 8000000] (Some 4000000) "_"
    = Ok ([cue "a" 0 3000000] ++ [clamped])
    /\ text clamped = "b"%string
    /\ start_time clamped = 5000000
    /\ end_time clamped = Z.min 8000000 4000000
    /\ end_time clamped < start_time clamped.
Proof.
  apply (clamp_below_last_start_returns
           [cue "a" 0 3000000; cue "b" 5000000 8000000] "_"
           [cue "a" 0 3000000] (cue "b" 5000000 8000000) 4000000).
  - vm_compute. reflexivity.
  - simpl. lia.
Defined.

(** C1, as the specification states it, fails: two cues [0s-3s] and [5s-8s]
    with a recording duration of [4s], which is less than the start of the
    last cue, make [apply_mp4_fixes] return a last cue [5s-4s]; no exception
    is raised. *)
Lemma clamp_below_last_start_no_fault :
  let entries := [cue "a" 0 3000000; cue "b" 5000000 8000000] in
  let T := 4000000 in
  fill_and_split entries default_placeholder = Ok entries
  /\ T < start_time (last entries (cue "" 0 0))
  /\ apply_mp4_fixes entries (Some T) default_placeholder
     = Ok [cue "a" 0 3000000; cue "b" 5000000 4000000]
  /\ ~ exists e, apply_mp4_fixes entries (Some T) default_placeholder = Raise e.
Proof.
  cbv zeta. split; [vm_compute; reflexivity|].
  split; [simpl; lia|].
  split; [vm_compute; reflexivity|].
  intros [e He]. vm_compute in He. discriminate.
Qed.

(** ** Loops *)

(** A loop whose body appends what it yields for each item. *)
Lemma for_each_yield {A B : Type} (xs : list A) (body : list B -> A -> result (list B))
  (f : A -> list B) (out : list B) :
  (forall out x, In x xs -> body out x = Ok (out ++ f x)) ->
  for_each xs body out = Ok (out ++ flat_map f xs).
Proof.
  revert out. induction xs as [|x xs IH]; intros out H; simpl.
  - rewrite app_nil_r. reflexivity.
  - rewrite (H out x) by (left; reflexivity). simpl.
    rewrite IH by (intros out0 x0 Hin; apply H; right; exact Hin).
    rewrite app_assoc. reflexivity.
Qed.

Lemma flat_map_singleton {A B : Type} (f : A -> B) (l : list A) :
  flat_map (fun x => [f x]) l = map f l.
Proof. induction l as [|x l IH]; simpl; [|rewrite IH]; reflexivity. Qed.

Lemma index_middle {A : Type} (pre : list A) (x : A) (post : list A) :
  index (pre ++ x :: post) (length pre) = Ok x.
Proof. unfold index. rewrite nth_error_app2, Nat.sub_diag by lia. reflexivity. Qed.

Lemma last_item_snoc {A : Type} (l : list A) (x : A) : last_item (l ++ [x]) = Ok x.
Proof.
  unfold last_item. rewrite length_app. simpl.
  replace (length l + 1 - 1)%nat with (length l) by lia.
  apply index_middle.
Qed.

(** ** Rounding to the nearest integer *)

Lemma divide_nearest_bounds (a b : Z) :
  0 < b ->
  2 * a - b <= 2 * b * divide_nearest a b <= 2 * a + b.
Proof.
  intros Hb. unfold divide_nearest.
  pose proof (Z.div_mod a b ltac:(lia)) as Hdm.
  pose proof (Z.mod_pos_bound a b Hb) as Hr.
  generalize dependent (a / b). generalize dependent (a mod b). intros r Hr q Hdm.
  assert (Hbq : 2 * b * (q + 1) = 2 * (b * q) + 2 * b) by ring.
  assert (Hbq' : 2 * b * q = 2 * (b * q)) by ring.
  destruct (Z.ltb_spec 0 b) as [_|]; [|lia].
  destruct (Z.ltb_spec b (2 * r)) as [Hgt|Hle]; cbn [orb andb].
  - lia.
  - destruct (Z.eqb_spec (2 * r) b) as [Heq|Hne]; cbn [orb andb].
    + destruct (q mod 2 =? 1); lia.
    + lia.
Qed.

Lemma divide_nearest_le (a b c : Z) :
  0 < b -> 2 * a < (2 * c + 1) * b -> divide_nearest a b <= c.
Proof. intros Hb H. pose proof (divide_nearest_bounds a b Hb). nia. Qed.

Lemma divide_nearest_ge (a b c : Z) :
  0 < b -> (2 * c - 1) * b < 2 * a -> c <= divide_nearest a b.
Proof. intros Hb H. pose proof (divide_nearest_bounds a b Hb). nia. Qed.

Lemma divide_nearest_exact (c b : Z) : 0 < b -> divide_nearest (c * b) b = c.
Proof.
  intros Hb. apply Z.le_antisymm.
  - apply divide_nearest_le; lia.
  - apply divide_nearest_ge; lia.
Qed.

(** ** Splitting a group *)

Lemma length_evenly (part t : timedelta) (group : list BbbChatEntry) :
  length (evenly part t group) = length group.
Proof. revert t. induction group; intros t; simpl; auto. Qed.

Lemma text_evenly (part t : timedelta) (group : list BbbChatEntry) :
  map text (evenly part t group) = map __build_text group.
Proof. revert t. induction group; intros t; simpl; [|rewrite IHgroup]; auto. Qed.

Lemma span_evenly (part t : timedelta) (group : list BbbChatEntry) :
  Forall (fun c => end_time c - start_time c = part) (evenly part t group).
Proof.
  revert t. induction group; intros t; simpl; constructor; [simpl; lia | auto].
Qed.

Lemma contiguous_evenly_then (part t : timedelta) (group : list BbbChatEntry)
  (final : SubtitlesEntry) :
  start_time final = t + part * Z.of_nat (length group) ->
  contiguous (evenly part t group ++ [final]).
Proof.
  revert t. induction group as [|x group IH]; intros t Hfinal.
  - simpl. exact I.
  - cbn [evenly app]. specialize (IH (t + part)).
    destruct (evenly part (t + part) group ++ [final]) as [|c' rest] eqn:E.
    + exact I.
    + split.
      * destruct group as [|y group]; simpl in E; injection E as <- _; simpl.
        -- simpl in Hfinal. lia.
        -- reflexivity.
      * apply IH. rewrite Hfinal. cbn [length]. lia.
Qed.

Lemma split_group_loop (group : list BbbChatEntry) (part : timedelta) :
  forall (todo done_ rest : list BbbChatEntry) (out : list SubtitlesEntry)
         (t : timedelta),
    group = done_ ++ todo ++ rest ->
    (forall j, 0 < j <= Z.of_nat (length todo) -> valid (t + part * j)) ->
    for_each (seq (length done_) (length todo))
      (fun '(out, current_time) i =>
         current <- index group i ;;
         stop <- add current_time part ;;
         Ok (out ++ [mkSubtitlesEntry (__build_text current) current_time stop], stop))
      (out, t)
    = Ok (out ++ evenly part t todo, t + part * Z.of_nat (length todo)).
Proof.
  induction todo as [|e todo IH]; intros done_ rest out t Hgroup Hvalid.
  - simpl. rewrite app_nil_r. f_equal. f_equal. lia.
  - cbn [length seq for_each].
    rewrite Hgroup at 1. cbn [app]. rewrite index_middle. cbn [bind].
    unfold add. rewrite of_microseconds_valid.
    2:{ specialize (Hvalid 1). rewrite Z.mul_1_r in Hvalid.
        apply Hvalid. cbn [length]. lia. }
    cbn [bind].
    replace (S (length done_)) with (length (done_ ++ [e]))
      by (rewrite length_app; simpl; lia).
    rewrite (IH (done_ ++ [e]) rest).
    + cbn [evenly]. rewrite <- app_assoc. cbn [app length]. do 2 f_equal. lia.
    + rewrite Hgroup, <- app_assoc. reflexivity.
    + intros j Hj. replace (t + part + part * j) with (t + part * (j + 1)) by lia.
      apply Hvalid. cbn [length]. lia.
Qed.

Lemma split_group_closed_form (front : list BbbChatEntry) (final : BbbChatEntry)
  (duration : timedelta) :
  let group := front ++ [final] in
  let n := Z.of_nat (length group) in
  let part := divide_nearest duration n in
  let start := timestamp (hd final front) in
  valid part ->
  (forall j, 0 < j < n -> valid (start + part * j)) ->
  valid (start + duration) ->
  __split_group group duration
  = Ok (evenly part start front
        ++ [mkSubtitlesEntry (__build_text final)
              (start + part * (n - 1)) (start + duration)]).
Proof.
  intros group n part start Hpart Hmid Hstop.
  assert (Hn : n = Z.of_nat (length front) + 1).
  { unfold n, group. rewrite length_app. simpl. lia. }
  unfold __split_group. fold group. fold n.
  unfold div_int. destruct (Z.eqb_spec n 0) as [|_]; [lia|].
  fold part. rewrite of_microseconds_valid by exact Hpart. cbn [bind].
  assert (Hfirst : index group 0 = Ok (hd final front)).
  { unfold group. destruct front; reflexivity. }
  rewrite Hfirst. cbn [bind]. fold start.
  replace (length group - 1)%nat with (length front)
    by (unfold group; rewrite length_app; simpl; lia).
  unfold range.
  pose proof (split_group_loop group part front [] [final] [] start) as Hloop.
  cbn [length app] in Hloop. rewrite Hloop.
  - cbn [bind app]. unfold group at 1. rewrite last_item_snoc. cbn [bind].
    unfold add. rewrite of_microseconds_valid by exact Hstop. cbn [bind].
    replace (n - 1) with (Z.of_nat (length front)) by lia. reflexivity.
  - reflexivity.
  - intros j Hj. apply Hmid. lia.
Qed.

Lemma split_group_evenly (front : list BbbChatEntry) (final : BbbChatEntry)
  (duration : timedelta) :
  let group := front ++ [final] in
  let n := Z.of_nat (length group) in
  let part := divide_nearest duration n in
  let start := timestamp (hd final front) in
  0 <= start ->
  0 <= duration ->
  start + duration + n <= max_us ->
  __split_group group duration
  = Ok (evenly part start front
        ++ [mkSubtitlesEntry (__build_text final)
              (start + part * Z.of_nat (length front)) (start + duration)]).
Proof.
  intros group n part start Hstart Hduration Hrange.
  assert (Hn : n = Z.of_nat (length front) + 1).
  { unfold n, group. rewrite length_app. simpl. lia. }
  pose proof (divide_nearest_bounds duration n ltac:(lia)) as Hpart.
  assert (H0 : 0 <= divide_nearest duration n)
    by (apply divide_nearest_ge; lia).
  fold part in Hpart, H0.
  assert (Hmul : forall j, 0 <= j <= n -> 0 <= part * j <= duration + n)
    by (intros; nia).
  replace (Z.of_nat (length front)) with (n - 1) by lia.
  apply split_group_closed_form; fold group n part start.
  - specialize (Hmul 1). unfold_range. lia.
  - intros j Hj. specialize (Hmul j). unfold_range. lia.
  - unfold_range. lia.
Qed.

(** C6: a group of [n >= 1] entries with allotted duration [d], whose window
    [start, start + d + n] lies inside the range of [timedelta], is split into
    [n] cues carrying the texts of the entries in entry order; each of the
    first [n - 1] cues spans [d / n] (the quotient of [timedelta] by [int],
    rounded to the microsecond), every cue ends where the next one starts, the
    first cue starts at the group's timestamp and the last cue ends at exactly
    [start + d]. *)
Theorem split_group_even
  (group : list BbbChatEntry) (first : BbbChatEntry) (duration : timedelta) :
  let n := Z.of_nat (length group) in
  let start := timestamp first in
  hd_error group = Some first ->
  0 <= start ->
  0 <= duration ->
  start + duration + n <= max_us ->
  exists front final,
    __split_group group duration = Ok (front ++ [final])
    /\ length (front ++ [final]) = length group
    /\ map text (front ++ [final]) = map __build_text group
    /\ Forall (fun c => end_time c - start_time c = divide_nearest duration n) front
    /\ contiguous (front ++ [final])
    /\ start_time (hd final front) = start
    /\ end_time final = start + duration.
Proof.
  intros n start Hfirst Hstart Hduration Hrange.
  destruct (exists_last (l := group)) as [entries [final_entry Hgroup]].
  { intros ->. discriminate. }
  assert (Hhd : hd final_entry entries = first).
  { rewrite Hgroup in Hfirst. destruct entries; simpl in *; congruence. }
  pose proof (split_group_evenly entries final_entry duration) as Hclosed.
  cbv zeta in Hclosed. rewrite <- Hgroup, Hhd in Hclosed.
  fold n start in Hclosed.
  eexists _, _. split; [apply Hclosed; assumption|].
  split; [rewrite length_app, length_evenly, Hgroup, length_app; reflexivity|].
  split; [rewrite map_app, text_evenly, Hgroup, map_app; reflexivity|].
  split; [apply span_evenly|].
  split; [apply contiguous_evenly_then; reflexivity|].
  split; [|reflexivity].
  destruct entries as [|e entries]; [|reflexivity].
  cbn [evenly hd start_time length]. lia.
Qed.

Example split_group_scenario_1 :
  __split_group [chat "a" "x" 10; chat "b" "y" 10; chat "c" "z" 10] (seconds 3)
  = Ok [cue "a: x" 10000000 11000000; cue "b: y" 11000000 12000000;
        cue "c: z" 12000000 13000000].
Proof. vm_compute. reflexivity. Qed.

Lemma split_group_even_witness :
  exists front final,
    __split_group [chat "a" "x" 10; chat "b" "y" 10; chat "c" "z" 10] (seconds 3)
    = Ok (front ++ [final])
    /\ length (front ++ [final]) = 3%nat
    /\ map text (front ++ [final]) = ["a: x"; "b: y"; "c: z"]%string
    /\ Forall (fun c => end_time c - start_time c = 1000000) front
    /\ contiguous (front ++ [final])
    /\ start_time (hd final front) = 10000000
    /\ end_time final = 13000000.
Proof.
  apply (split_group_even
           [chat "a" "x" 10; chat "b" "y" 10; chat "c" "z" 10]
           (chat "a" "x" 10) (seconds 3)).
  - reflexivity.
  - vm_compute. discriminate.
  - vm_compute. discriminate.
  - vm_compute. discriminate.
Defined.

(** ** Gap filling *)

Lemma fill_gapes_loop (gape_placeholder : string) (entries : list SubtitlesEntry) :
  forall (todo done_ : list SubtitlesEntry) (previous : SubtitlesEntry),
    entries = done_ ++ previous :: todo ->
    gaps_in_range (end_time previous) todo ->
    yield_each (seq (length done_) (length todo))
      (fun i =>
         previous_entry <- index entries i ;;
         current_entry <- index entries (i + 1) ;;
         gape_duration <- sub (start_time current_entry) (end_time previous_entry) ;;
         Ok ((if MAX_VALID_MP4_DURATION <? gape_duration
              then [mkSubtitlesEntry gape_placeholder
                      (end_time previous_entry) (start_time current_entry)]
              else [])
             ++ [mkSubtitlesEntry (text current_entry)
                   (start_time current_entry) (end_time current_entry)]))
    = mkGenerator (gap_filling gape_placeholder (end_time previous) todo) None.
Proof.
  induction todo as [|current todo IH]; intros done_ previous Hentries Hgaps.
  - reflexivity.
  - destruct Hgaps as [Hgap Hgaps].
    cbn [length seq yield_each].
    rewrite Hentries at 1. rewrite index_middle. cbn [bind].
    assert (Hnext : index entries (length done_ + 1) = Ok current).
    { rewrite Hentries.
      replace (done_ ++ previous :: current :: todo)
        with ((done_ ++ [previous]) ++ current :: todo)
        by (rewrite <- app_assoc; reflexivity).
      replace (length done_ + 1)%nat with (length (done_ ++ [previous]))
        by (rewrite length_app; reflexivity).
      apply index_middle. }
    rewrite Hnext. cbn [bind].
    rewrite sub_valid by exact Hgap. cbn [bind].
    replace (S (length done_)) with (length (done_ ++ [previous]))
      by (rewrite length_app; simpl; lia).
    rewrite (IH (done_ ++ [previous]) current).
    + cbn [gap_filling yielded raised].
      destruct current as [t s e]. cbn [text start_time end_time].
      rewrite <- app_assoc. reflexivity.
    + rewrite Hentries, <- app_assoc. reflexivity.
    + exact Hgaps.
Qed.

(** C2, as the code has it: on an input that is not a single cue, and whose
    consecutive distances (the first one taken from offset zero) fit in a
    [timedelta], the generator [__fill_gapes] yields the cues in order, each
    one preceded by one placeholder cue spanning [previous end, next start]
    exactly when that gap is strictly longer than the duration limit; the
    check against offset zero is made before the first cue. *)
Theorem fill_gapes_spec (entries : list SubtitlesEntry) (gape_placeholder : string) :
  length entries <> 1%nat ->
  gaps_in_range 0 entries ->
  __fill_gapes entries gape_placeholder
  = mkGenerator (gap_filling gape_placeholder 0 entries) None.
Proof.
  intros Hlen Hgaps.
  destruct entries as [|first rest]; [reflexivity|].
  destruct rest as [|second rest]; [contradiction Hlen; reflexivity|].
  unfold __fill_gapes.
  destruct (Nat.ltb_spec (length (first :: second :: rest)) 2) as [Hshort|_];
    [simpl in Hshort; lia|].
  cbn [length]. rewrite Nat.sub_succ, Nat.sub_0_r. unfold range.
  exact (fill_gapes_loop gape_placeholder
           (mkSubtitlesEntry gape_placeholder 0 0 :: first :: second :: rest)
           (first :: second :: rest) [] (mkSubtitlesEntry gape_placeholder 0 0)
           eq_refl Hgaps).
Qed.

Lemma fill_gapes_spec_witness :
  __fill_gapes [cue "a" 3000000000 3001000000; cue "b" 6000000000 6003000000] "_"
  = mkGenerator [cue "_" 0 3000000000; cue "a" 3000000000 3001000000;
                 cue "_" 3001000000 6000000000; cue "b" 6000000000 6003000000]
      None.
Proof.
  apply (fill_gapes_spec
           [cue "a" 3000000000 3001000000; cue "b" 6000000000 6003000000] "_").
  - simpl. discriminate.
  - simpl. unfold valid. repeat split; vm_compute; discriminate.
Defined.

(** C2, as the specification states it, fails on a sequence of one cue: the
    cue starts 3000 s after offset zero, more than the duration limit, so the
    specification asks for a placeholder [0 s, 3000 s] followed by the cue, but
    the generator yields nothing. *)
Lemma fill_gapes_single_cue :
  let entries := [cue "a" 3000000000 3001000000] in
  gaps_in_range 0 entries
  /\ gap_filling "_" 0 entries = [cue "_" 0 3000000000; cue "a" 3000000000 3001000000]
  /\ __fill_gapes entries "_" = mkGenerator [] None
  /\ yielded (__fill_gapes entries "_") <> gap_filling "_" 0 entries.
Proof.
  cbv zeta. split; [simpl; unfold valid; repeat split; vm_compute; discriminate|].
  split; [reflexivity|]. split; [reflexivity|].
  vm_compute. discriminate.
Qed.

(** ** The float quotient of two positive integers *)

Lemma binary64_exponent_normal (x y : Z) :
  0 < y -> y <= x -> x < 2 ^ 52 * y ->
  let e := binary64_exponent x y in
  e < 0 /\ 2 ^ 52 * y <= x * 2 ^ (- e) < 2 ^ 53 * y.
Proof.
  intros Hy Hyx Hx. unfold binary64_exponent.
  pose proof (Z.log2_spec x ltac:(lia)) as Lx.
  pose proof (Z.log2_spec y Hy) as Ly.
  pose proof (Z.log2_nonneg x) as Nx.
  pose proof (Z.log2_nonneg y) as Ny.
  set (lx := Z.log2 x) in *. set (ly := Z.log2 y) in *.
  rewrite !Z.pow_succ_r in * by lia.
  assert (Hlx : lx < ly + 53).
  { apply (Z.pow_lt_mono_r_iff 2); [lia | lia |].
    rewrite Z.pow_add_r by lia. nia. }
  assert (Hpow : 2 ^ lx * 2 ^ (ly + 52 - lx) = 2 ^ ly * 2 ^ 52).
  { rewrite <- !Z.pow_add_r by lia. f_equal. lia. }
  assert (Hpos : 0 < 2 ^ (ly + 52 - lx)) by (apply Z.pow_pos_nonneg; lia).
  assert (H52 : 0 < 2 ^ 52) by reflexivity.
  replace (2 ^ 53) with (2 * 2 ^ 52) by reflexivity.
  set (e1 := lx - ly - 52).
  replace (ly + 52 - lx) with (- e1) in * by (unfold e1; lia).
  assert (He1 : e1 <= 0) by (unfold e1; lia).
  rewrite (Z.max_r e1 0) by lia. rewrite (Z.max_l (- e1) 0) by lia.
  rewrite Z.pow_0_r, Z.mul_1_r.
  destruct (Z.leb_spec (2 ^ 52 * y) (x * 2 ^ (- e1))) as [Hge|Hlt]; cbv zeta.
  - assert (e1 <> 0).
    { intros E. replace (- e1) with 0 in Hge by lia.
      rewrite Z.pow_0_r in Hge. lia. }
    split; [lia|]. split; [exact Hge|].
    generalize dependent (2 ^ (- e1)). generalize dependent (2 ^ lx).
    generalize dependent (2 ^ ly). generalize dependent (2 ^ 52). intros. nia.
  - split; [lia|].
    replace (- (e1 - 1)) with (Z.succ (- e1)) by lia.
    rewrite Z.pow_succ_r by lia.
    generalize dependent (2 ^ (- e1)). generalize dependent (2 ^ lx).
    generalize dependent (2 ^ ly). generalize dependent (2 ^ 52). intros. nia.
Qed.

Lemma ceil_div_spec (a b c : Z) :
  0 < b -> (ceil_div a b = c <-> (c - 1) * b < a <= c * b).
Proof.
  intros Hb. unfold ceil_div.
  pose proof (Z.div_mod (- a) b ltac:(lia)) as Hdm.
  pose proof (Z.mod_pos_bound (- a) b Hb) as Hr.
  generalize dependent ((- a) / b). generalize dependent ((- a) mod b).
  intros r Hr q Hdm. split; intros H; nia.
Qed.

Lemma int_true_divide_normal (a b : Z) :
  0 < b -> b <= a -> a < 2 ^ 52 * b ->
  exists s,
    0 < s
    /\ int_true_divide a b = Dyadic (divide_nearest (a * 2 ^ s) b) (- s)
    /\ 2 ^ 52 * b <= a * 2 ^ s < 2 ^ 53 * b.
Proof.
  intros Hb Ha Hlt.
  destruct (binary64_exponent_normal a b Hb Ha Hlt) as [He Hnorm].
  exists (- binary64_exponent a b).
  split; [lia|]. split; [|exact Hnorm].
  unfold int_true_divide.
  destruct (Z.eqb_spec a 0) as [|_]; [lia|].
  rewrite (Z.abs_eq a), (Z.abs_eq b) by lia.
  rewrite (Z.sgn_pos a), (Z.sgn_pos b) by lia.
  rewrite Z.max_l, Z.max_r by lia.
  rewrite Z.pow_0_r, !Z.mul_1_r, Z.mul_1_l, Z.opp_involutive. reflexivity.
Qed.

(** [math.ceil(a / b)] is the floor or the ceiling of the exact quotient, and
    it is the floor of an inexact quotient only when the remainder is lost to
    the rounding of the float. *)
Lemma ceil_true_divide (a b : Z) :
  0 < b -> b <= a -> a < 2 ^ 52 * b ->
  let p := ceil (int_true_divide a b) in
  (a mod b = 0 /\ p = a / b)
  \/ (0 < a mod b /\ p = a / b + 1)
  \/ (0 < a mod b /\ p = a / b
      /\ exists s, 0 < s /\ 2 * (a mod b) * 2 ^ s <= b /\ 2 ^ 52 * b <= a * 2 ^ s).
Proof.
  intros Hb Ha Hlt p.
  destruct (int_true_divide_normal a b Hb Ha Hlt) as [s [Hs [Hdiv [Hlo _]]]].
  unfold p, ceil. rewrite Hdiv. cbn [expo mant].
  destruct (Z.leb_spec 0 (- s)) as [|_]; [lia|].
  rewrite Z.opp_involutive. fold (ceil_div (divide_nearest (a * 2 ^ s) b) (2 ^ s)).
  assert (HS : 0 < 2 ^ s) by (apply Z.pow_pos_nonneg; lia).
  pose proof (Z.div_mod a b ltac:(lia)) as Hdm.
  pose proof (Z.mod_pos_bound a b Hb) as Hr.
  pose proof (divide_nearest_bounds (a * 2 ^ s) b Hb) as Hm.
  set (m := divide_nearest (a * 2 ^ s) b) in *.
  set (k := a / b) in *. set (r := a mod b) in *.
  set (S := 2 ^ s) in *.
  assert (Hk : k * S <= m <= (k + 1) * S) by nia.
  destruct (Z.eq_dec r 0) as [Hr0|Hr0].
  - left. split; [exact Hr0|].
    apply ceil_div_spec; [exact HS|]. nia.
  - right. destruct (Z.eq_dec m (k * S)) as [Hm0|Hm0].
    + right. split; [lia|]. split.
      * apply ceil_div_spec; [exact HS|]. nia.
      * exists s. fold S. split; [exact Hs|]. split; [nia|exact Hlo].
    + left. split; [lia|].
      apply ceil_div_spec; [exact HS|]. nia.
Qed.

(** ** Splitting an oversized cue *)

(** The number of parts and the duration of a part that [__split_entry]
    computes for a duration above the limit. *)
Lemma split_parts (d : timedelta) :
  MAX_VALID_MP4_DURATION < d -> d <= max_us ->
  let parts := ceil (int_true_divide d MAX_VALID_MP4_DURATION) in
  let duration_per_one := divide_nearest d parts in
  1 <= parts
  /\ 0 <= duration_per_one <= MAX_VALID_MP4_DURATION
  /\ (parts - 1) * MAX_VALID_MP4_DURATION < d
  /\ (d < 2 ^ 23 * MAX_VALID_MP4_DURATION ->
      parts = ceil_div d MAX_VALID_MP4_DURATION).
Proof.
  intros Hd Hmax.
  assert (Hb : MAX_VALID_MP4_DURATION = 2147483647) by reflexivity.
  assert (H52 : 2 ^ 52 = 4503599627370496) by reflexivity.
  assert (H23 : 2 ^ 23 = 8388608) by reflexivity.
  assert (Hmax' : d <= 86399999999999999999) by exact Hmax.
  set (b := MAX_VALID_MP4_DURATION) in *.
  assert (Hpos : 0 < b) by lia.
  pose proof (ceil_true_divide d b Hpos ltac:(lia) ltac:(lia)) as Hceil.
  pose proof (Z.div_mod d b ltac:(lia)) as Hdm.
  pose proof (Z.mod_pos_bound d b Hpos) as Hr.
  cbv zeta in *.
  set (p := ceil (int_true_divide d b)) in *.
  set (k := d / b) in *. set (r := d mod b) in *.
  assert (Hk : 1 <= k) by nia.
  destruct Hceil as [[Hr0 Hp] | [[Hr0 Hp] | [Hr0 [Hp [s [Hs [Hlost Hnorm]]]]]]].
  - (* the quotient is exact *)
    rewrite Hp.
    assert (Hdpo : divide_nearest d k = b).
    { replace d with (b * k) by lia. apply divide_nearest_exact. lia. }
    rewrite Hdpo. repeat split; try lia.
    intros _. symmetry. apply ceil_div_spec; lia.
  - (* the ceiling of the exact quotient *)
    rewrite Hp.
    assert (Hle : divide_nearest d (k + 1) <= b) by (apply divide_nearest_le; nia).
    assert (Hge : 0 <= divide_nearest d (k + 1)) by (apply divide_nearest_ge; nia).
    repeat split; try lia.
    intros _. symmetry. apply ceil_div_spec; lia.
  - (* the remainder is lost in the float: the quotient is huge *)
    rewrite Hp.
    assert (HS : 0 < 2 ^ s) by (apply Z.pow_pos_nonneg; lia).
    assert (Hsplit : d * 2 ^ s = b * (k * 2 ^ s) + r * 2 ^ s) by (rewrite Hdm; ring).
    assert (Hsmall : 2 * r < k).
    { destruct (Z.lt_ge_cases (2 * r) k) as [|Hge]; [assumption|].
      assert (k * 2 ^ s <= 2 * r * 2 ^ s) by nia. nia. }
    assert (Hle : divide_nearest d k <= b) by (apply divide_nearest_le; nia).
    assert (Hge : 0 <= divide_nearest d k) by (apply divide_nearest_ge; nia).
    repeat split; try lia.
    intros Hd23. exfalso.
    assert (Hs30 : s < 30).
    { apply (Z.pow_lt_mono_r_iff 2); [lia | lia |].
      change (2 ^ 30) with 1073741824. nia. }
    assert (HS29 : 2 ^ s <= 2 ^ 29) by (apply Z.pow_le_mono_r; lia).
    change (2 ^ 29) with 536870912 in HS29. nia.
Qed.

Lemma total_duration_contiguous (front : list SubtitlesEntry) (final : SubtitlesEntry) :
  contiguous (front ++ [final]) ->
  total_duration (front ++ [final]) = end_time final - start_time (hd final front).
Proof.
  induction front as [|c front IH]; intros Hc.
  - simpl. lia.
  - change (total_duration ((c :: front) ++ [final]))
      with (end_time c - start_time c + total_duration (front ++ [final])).
    cbn [app] in Hc.
    destruct front as [|c' front].
    + simpl in *. lia.
    + cbn [app contiguous] in Hc. destruct Hc as [Hcc' Hc].
      rewrite IH by exact Hc. cbn [hd]. lia.
Qed.

Lemma contiguous_sub_cues (entry : SubtitlesEntry) (dpo : timedelta)
  (final : SubtitlesEntry) (n a : nat) :
  start_time final = start_time entry + dpo * Z.of_nat (a + n) ->
  contiguous (map (sub_cue entry dpo) (seq a n) ++ [final]).
Proof.
  revert a. induction n as [|n IH]; intros a Hfinal.
  - simpl. exact I.
  - cbn [seq map app]. specialize (IH (S a)).
    destruct (map (sub_cue entry dpo) (seq (S a) n) ++ [final]) as [|c' rest] eqn:E.
    + exact I.
    + split.
      * destruct n as [|n]; simpl in E; injection E as <- _.
        -- rewrite Hfinal. cbn [sub_cue end_time]. lia.
        -- cbn [sub_cue end_time start_time]. lia.
      * apply IH. rewrite Hfinal. f_equal. f_equal. lia.
Qed.

Lemma split_entry_closed_form (entry : SubtitlesEntry) :
  let duration := end_time entry - start_time entry in
  let parts := ceil (int_true_divide duration MAX_VALID_MP4_DURATION) in
  let duration_per_one := divide_nearest duration parts in
  valid (start_time entry) -> valid (end_time entry) -> valid duration ->
  MAX_VALID_MP4_DURATION < duration ->
  __split_entry entry
  = Ok (map (sub_cue entry duration_per_one) (seq 0 (Z.to_nat (parts - 1)))
        ++ [mkSubtitlesEntry (text entry)
              (start_time entry + duration_per_one * (parts - 1))
              (end_time entry)]).
Proof.
  intros duration parts dpo Hstart Hstop Hduration Hlong.
  destruct (split_parts duration Hlong (proj2 Hduration))
    as [Hparts [Hdpo [Hfit _]]].
  fold parts in Hparts, Hdpo, Hfit. fold dpo in Hdpo.
  assert (Hmul : forall j, 0 <= j <= parts - 1 -> 0 <= dpo * j <= duration).
  { intros j Hj. nia. }
  unfold __split_entry, sub. fold duration.
  rewrite of_microseconds_valid by exact Hduration. cbn [bind].
  destruct (Z.leb_spec duration MAX_VALID_MP4_DURATION) as [|_]; [lia|].
  unfold truediv.
  destruct (Z.eqb_spec MAX_VALID_MP4_DURATION 0) as [E|_]; [discriminate E|].
  cbn [bind]. fold parts.
  unfold div_int. destruct (Z.eqb_spec parts 0) as [|_]; [lia|].
  fold dpo. rewrite of_microseconds_valid.
  2:{ assert (MAX_VALID_MP4_DURATION = 2147483647) by reflexivity.
      unfold_range. lia. }
  cbn [bind].
  rewrite (for_each_yield _ _ (fun i => [sub_cue entry dpo i])).
  - cbn [bind app]. unfold mul, add.
    specialize (Hmul (parts - 1) ltac:(lia)).
    rewrite of_microseconds_valid by (unfold_range; lia). cbn [bind].
    rewrite of_microseconds_valid by (unfold_range; unfold duration in *; lia).
    cbn [bind]. unfold range. rewrite flat_map_singleton. reflexivity.
  - intros out i Hin. apply in_seq in Hin. unfold range in Hin.
    unfold mul, add.
    pose proof (Hmul (Z.of_nat i) ltac:(lia)) as Hi.
    pose proof (Hmul (Z.of_nat i + 1) ltac:(lia)) as Hi'.
    rewrite of_microseconds_valid by (unfold_range; lia). cbn [bind].
    rewrite of_microseconds_valid by (unfold_range; unfold duration in *; lia).
    cbn [bind].
    rewrite of_microseconds_valid by (unfold_range; unfold duration in *; lia).
    reflexivity.
Qed.

(** C7: for a cue whose start, end and duration are in the range of
    [timedelta]: when the duration is at most the limit the cue is emitted
    unchanged; when it exceeds the limit, [__split_entry] emits exactly
    [ceil(duration / limit)] sub-cues (the value Python computes, which is the
    exact ceiling of the quotient for every duration below [2^23] limits, about
    571 years), each carrying the text of the cue, each ending where the next
    one starts, the first starting at the start of the cue, the last ending at
    the end of the cue, their durations adding up to the duration of the cue. *)
Theorem split_entry_cover (entry : SubtitlesEntry) :
  let duration := end_time entry - start_time entry in
  let parts := ceil (int_true_divide duration MAX_VALID_MP4_DURATION) in
  valid (start_time entry) -> valid (end_time entry) -> valid duration ->
  (duration <= MAX_VALID_MP4_DURATION -> __split_entry entry = Ok [entry])
  /\ (MAX_VALID_MP4_DURATION < duration ->
      exists front final,
        __split_entry entry = Ok (front ++ [final])
        /\ Z.of_nat (length (front ++ [final])) = parts
        /\ (duration < 2 ^ 23 * MAX_VALID_MP4_DURATION ->
            parts = ceil_div duration MAX_VALID_MP4_DURATION)
        /\ Forall (fun c => text c = text entry) (front ++ [final])
        /\ contiguous (front ++ [final])
        /\ start_time (hd final front) = start_time entry
        /\ end_time final = end_time entry
        /\ total_duration (front ++ [final]) = duration).
Proof.
  intros duration parts Hstart Hstop Hduration. split.
  - intros Hshort. unfold __split_entry, sub. fold duration.
    rewrite of_microseconds_valid by exact Hduration. cbn [bind].
    destruct (Z.leb_spec duration MAX_VALID_MP4_DURATION) as [_|]; [reflexivity|lia].
  - intros Hlong.
    pose proof (split_entry_closed_form entry Hstart Hstop Hduration Hlong) as Hclosed.
    destruct (split_parts duration Hlong (proj2 Hduration))
      as [Hparts [_ [_ Hexact]]].
    cbv zeta in Hclosed. fold duration in Hclosed. fold parts in Hclosed, Hparts, Hexact.
    set (dpo := divide_nearest duration parts) in *.
    set (front := map (sub_cue entry dpo) (seq 0 (Z.to_nat (parts - 1)))) in *.
    set (final := mkSubtitlesEntry (text entry)
                    (start_time entry + dpo * (parts - 1)) (end_time entry)) in *.
    assert (Hcontiguous : contiguous (front ++ [final])).
    { apply contiguous_sub_cues. cbn [final start_time]. f_equal. f_equal. lia. }
    assert (Hhd : start_time (hd final front) = start_time entry).
    { unfold front. destruct (Z.to_nat (parts - 1)) as [|n] eqn:E.
      - cbn [seq map hd final start_time]. replace (parts - 1) with 0 by lia. lia.
      - cbn [seq map hd sub_cue start_time]. lia. }
    exists front, final.
    split; [exact Hclosed|].
    split; [unfold front; rewrite length_app, length_map, length_seq; simpl; lia|].
    split; [exact Hexact|].
    split.
    { apply Forall_app. split.
      - unfold front. apply Forall_map. apply Forall_forall. reflexivity.
      - constructor; [reflexivity | constructor]. }
    split; [exact Hcontiguous|].
    split; [exact Hhd|].
    split; [reflexivity|].
    rewrite total_duration_contiguous by exact Hcontiguous.
    rewrite Hhd. reflexivity.
Qed.

Lemma split_entry_cover_witness :
  __split_entry (cue "a" 5000000 8000000) = Ok [cue "a" 5000000 8000000]
  /\ exists front final,
       __split_entry (cue "_" 3000000 2400000000) = Ok (front ++ [final])
       /\ Z.of_nat (length (front ++ [final])) = 2
       /\ Forall (fun c => text c = "_"%string) (front ++ [final])
       /\ contiguous (front ++ [final])
       /\ start_time (hd final front) = 3000000
       /\ end_time final = 2400000000
       /\ total_duration (front ++ [final]) = 2397000000.
Proof.
  split.
  - apply (split_entry_cover (cue "a" 5000000 8000000));
      first [ split; vm_compute; discriminate | vm_compute; discriminate ].
  - destruct (split_entry_cover (cue "_" 3000000 2400000000)) as [_ H];
      try (split; vm_compute; discriminate).
    destruct H as [front [final [H1 [H2 [_ H3]]]]]; [reflexivity|].
    exists front, final. split; [exact H1|]. split; [exact H2|]. exact H3.
Defined.

(** ** Idempotence of the compliance pass *)

(** C8 fails on the code: two cues [0 s - 3 s] and [586266 s - 586269 s] leave a
    silent gap of 586263 s.  The first pass fills it with a placeholder split
    in 273 parts; the rounding of [duration / parts] to the microsecond leaves
    the last part one microsecond longer than the limit, so the second pass
    splits that part again: 275 cues after one pass, 276 after two. *)
Lemma compliance_pass_twice :
  let entries := [cue "a" 0 (seconds 3); cue "b" (seconds 586266) (seconds 586269)] in
  let T := Some (seconds 586269) in
  let pass := fun cues => apply_mp4_fixes cues T default_placeholder in
  (once <- pass entries ;; Ok (length once)) = Ok 275%nat
  /\ (once <- pass entries ;;
      Ok (existsb (fun c => MAX_VALID_MP4_DURATION <? end_time c - start_time c) once))
     = Ok true
  /\ (once <- pass entries ;; twice <- pass once ;; Ok (length twice)) = Ok 276%nat
  /\ (once <- pass entries ;; pass once) <> pass entries.
Proof.
  cbv zeta. repeat split; try (vm_compute; reflexivity).
  intros H.
  assert (Hlen : (once <- apply_mp4_fixes
                    [cue "a" 0 (seconds 3); cue "b" (seconds 586266) (seconds 586269)]
                    (Some (seconds 586269)) default_placeholder ;;
                  twice <- apply_mp4_fixes once (Some (seconds 586269))
                             default_placeholder ;;
                  Ok (length twice))
                 = (once <- apply_mp4_fixes
                      [cue "a" 0 (seconds 3); cue "b" (seconds 586266) (seconds 586269)]
                      (Some (seconds 586269)) default_placeholder ;;
                    Ok (length once))).
  { destruct (apply_mp4_fixes
                [cue "a" 0 (seconds 3); cue "b" (seconds 586266) (seconds 586269)]
                (Some (seconds 586269)) default_placeholder) as [once|e];
      [|reflexivity].
    cbn [bind] in *. rewrite H. reflexivity. }
  vm_compute in Hlen. discriminate.
Qed.

(** ** Groups *)

Lemma group_append_keyed (e : BbbChatEntry) (groups : list (timedelta * list BbbChatEntry)) :
  Forall keyed groups -> Forall keyed (group_append e groups).
Proof.
  induction groups as [|[k g] groups IH]; intros H; cbn [group_append].
  - repeat constructor; simpl; congruence.
  - inversion H as [|? ? [Hne Hall] Hrest]; subst.
    destruct (Z.eqb_spec k (timestamp e)) as [Heq|Hneq].
    + constructor; [|exact Hrest]. split; simpl in *.
      * destruct g; discriminate.
      * apply Forall_app. split; [exact Hall|]. repeat constructor. congruence.
    + constructor; [split; assumption | apply IH; exact Hrest].
Qed.

Lemma group_append_keys (P : timedelta -> Prop) (e : BbbChatEntry)
  (groups : list (timedelta * list BbbChatEntry)) :
  P (timestamp e) ->
  Forall (fun kg => P (fst kg)) groups ->
  Forall (fun kg => P (fst kg)) (group_append e groups).
Proof.
  intros He. induction groups as [|[k g] groups IH]; intros H; cbn [group_append].
  - repeat constructor. exact He.
  - inversion H; subst.
    destruct (k =? timestamp e); constructor; auto.
Qed.

Lemma group_by_timestamp_snoc (entries : list BbbChatEntry) (e : BbbChatEntry) :
  group_by_timestamp (entries ++ [e]) = group_append e (group_by_timestamp entries).
Proof. unfold group_by_timestamp. rewrite fold_left_app. reflexivity. Qed.

Lemma group_by_timestamp_keyed (entries : list BbbChatEntry) :
  Forall keyed (group_by_timestamp entries).
Proof.
  induction entries as [|e entries IH] using rev_ind.
  - constructor.
  - rewrite group_by_timestamp_snoc. apply group_append_keyed. exact IH.
Qed.

Lemma group_by_timestamp_keys (P : timedelta -> Prop) (entries : list BbbChatEntry) :
  Forall (fun e => P (timestamp e)) entries ->
  Forall (fun kg => P (fst kg)) (group_by_timestamp entries).
Proof.
  induction entries as [|e entries IH] using rev_ind; intros H.
  - constructor.
  - apply Forall_app in H. destruct H as [H He]. inversion He; subst.
    rewrite group_by_timestamp_snoc. apply group_append_keys; auto.
Qed.

Lemma index_keyed (k : timedelta) (g : list BbbChatEntry) :
  keyed (k, g) -> exists e, index g 0 = Ok e /\ timestamp e = k.
Proof.
  intros [Hne Hall]. simpl in *. destruct g as [|e g]; [congruence|].
  exists e. split; [reflexivity|]. inversion Hall; assumption.
Qed.

Lemma to_subtitles_loop (D : timedelta) (groups : list (timedelta * list BbbChatEntry)) :
  Forall keyed groups ->
  Forall (fun kg => offset (fst kg)) groups ->
  forall (todo done_ : list (timedelta * list BbbChatEntry))
         (this : timedelta * list BbbChatEntry) (out : list SubtitlesEntry),
    groups = done_ ++ this :: todo ->
    (result <-
       for_each (seq (length done_) (length todo))
         (fun result i =>
            current_group <- index (map snd groups) i ;;
            next_group <- index (map snd groups) (i + 1) ;;
            current_first <- index current_group 0 ;;
            next_first <- index next_group 0 ;;
            let current_segment_time := timestamp current_first in
            let next_segment_time := timestamp next_first in
            gap <- sub next_segment_time current_segment_time ;;
            let duration := Timedelta.min D gap in
            cues <- __split_group current_group duration ;;
            Ok (result ++ cues))
         out ;;
     current_group <- last_item (map snd groups) ;;
     current_first <- index current_group 0 ;;
     cues <- __split_group current_group D ;;
     Ok (result ++ cues))
    = (cues <- split_by_allotment D (this :: todo) ;; Ok (out ++ cues)).
Proof.
  intros Hkeyed Hoffset.
  induction todo as [|next todo IH]; intros done_ [t g] out Hgroups.
  - cbn [length seq for_each bind split_by_allotment allotted_duration].
    assert (Hlast : last_item (map snd groups) = Ok g).
    { rewrite Hgroups, map_app. apply last_item_snoc. }
    rewrite Hlast. cbn [bind].
    assert (Hk : keyed (t, g)).
    { rewrite Forall_forall in Hkeyed. apply Hkeyed. rewrite Hgroups.
      apply in_elt. }
    destruct (index_keyed t g Hk) as [e [He _]]. rewrite He. cbn [bind].
    destruct (__split_group g D) as [cues|x]; cbn [bind]; [|reflexivity].
    rewrite app_nil_r. reflexivity.
  - destruct next as [t' g'].
    change (split_by_allotment D ((t, g) :: (t', g') :: todo))
      with (cues <- __split_group g (Timedelta.min D (t' - t)) ;;
            more <- split_by_allotment D ((t', g') :: todo) ;;
            Ok (cues ++ more)).
    cbn [length seq for_each].
    assert (Hcur : index (map snd groups) (length done_) = Ok g).
    { rewrite Hgroups, map_app. cbn [map].
      rewrite <- (length_map snd done_). apply index_middle. }
    assert (Hnext : index (map snd groups) (length done_ + 1) = Ok g').
    { rewrite Hgroups.
      replace (done_ ++ (t, g) :: (t', g') :: todo)
        with ((done_ ++ [(t, g)]) ++ (t', g') :: todo)
        by (rewrite <- app_assoc; reflexivity).
      rewrite map_app. cbn [map].
      replace (length done_ + 1)%nat with (length (map snd (done_ ++ [(t, g)])))
        by (rewrite length_map, length_app; reflexivity).
      apply index_middle. }
    rewrite Hcur, Hnext. cbn [bind].
    pose proof Hkeyed as Hk. pose proof Hoffset as Ho.
    rewrite Forall_forall in Hk, Ho.
    assert (Hin : In (t, g) groups) by (rewrite Hgroups; apply in_elt).
    assert (Hin' : In (t', g') groups).
    { rewrite Hgroups. apply in_or_app. right. right. left. reflexivity. }
    destruct (index_keyed t g (Hk _ Hin)) as [e [He Hte]].
    destruct (index_keyed t' g' (Hk _ Hin')) as [e' [He' Hte']].
    rewrite He, He'. cbn [bind]. rewrite Hte, Hte'.
    pose proof (Ho _ Hin) as Ht. pose proof (Ho _ Hin') as Ht'.
    unfold offset in Ht, Ht'. cbn [fst] in Ht, Ht'.
    rewrite (sub_valid t' t) by (unfold_range; lia). cbn [bind].
    destruct (__split_group g (Timedelta.min D (t' - t))) as [cues|x];
      cbn [bind]; [|reflexivity].
    replace (S (length done_)) with (length (done_ ++ [(t, g)]))
      by (rewrite length_app; simpl; lia).
    assert (Hgroups' : groups = (done_ ++ [(t, g)]) ++ (t', g') :: todo)
      by (rewrite Hgroups, <- app_assoc; reflexivity).
    etransitivity;
      [exact (IH (done_ ++ [(t, g)]) (t', g') (out ++ cues) Hgroups')|].
    destruct (split_by_allotment D ((t', g') :: todo)) as [more|x];
      cbn [bind]; [|reflexivity].
    rewrite app_assoc. reflexivity.
Qed.

Lemma to_subtitles_by_allotment (entries : list BbbChatEntry) (D : timedelta) :
  Forall (fun e => offset (timestamp e)) entries ->
  to_subtitles entries D = split_by_allotment D (group_by_timestamp entries).
Proof.
  intros Hoffset. unfold to_subtitles.
  pose proof (group_by_timestamp_keyed entries) as Hkeyed.
  pose proof (group_by_timestamp_keys offset entries Hoffset) as Hkeys.
  destruct (group_by_timestamp entries) as [|this todo] eqn:Hgroups.
  - reflexivity.
  - cbn [map]. rewrite <- (map_cons snd this todo).
    rewrite length_map. cbn [length]. rewrite Nat.sub_succ, Nat.sub_0_r. unfold range.
    etransitivity;
      [exact (to_subtitles_loop D (this :: todo) Hkeyed Hkeys todo [] this [] eq_refl)|].
    destruct (split_by_allotment D (this :: todo)); reflexivity.
Qed.

Lemma length_le_concat {A : Type} (x : list A) (l : list (list A)) :
  In x l -> (length x <= length (concat l))%nat.
Proof.
  induction l as [|y l IH]; intros Hin; [contradiction|].
  cbn [concat]. rewrite length_app. destruct Hin as [->|Hin]; [lia|].
  specialize (IH Hin). lia.
Qed.

Lemma group_append_permutation (e : BbbChatEntry)
  (groups : list (timedelta * list BbbChatEntry)) :
  Permutation (concat (map snd (group_append e groups)))
              (concat (map snd groups) ++ [e]).
Proof.
  induction groups as [|[k g] groups IH]; cbn [group_append map snd concat app].
  - reflexivity.
  - destruct (k =? timestamp e); cbn [map snd concat].
    + rewrite <- !app_assoc. apply Permutation_app_head. apply Permutation_app_comm.
    + rewrite <- app_assoc. apply Permutation_app_head. exact IH.
Qed.

Lemma group_by_timestamp_permutation (entries : list BbbChatEntry) :
  Permutation (concat (map snd (group_by_timestamp entries))) entries.
Proof.
  induction entries as [|e entries IH] using rev_ind; [reflexivity|].
  rewrite group_by_timestamp_snoc.
  etransitivity; [apply group_append_permutation|].
  apply Permutation_app_tail. exact IH.
Qed.

Lemma split_group_window (t : timedelta) (group : list BbbChatEntry)
  (duration : timedelta) :
  keyed (t, group) ->
  0 <= t -> 0 <= t + duration ->
  t + Z.of_nat (length group) <= - min_us ->
  t + duration + Z.of_nat (length group) <= - min_us ->
  exists block,
    __split_group group duration = Ok block /\ window t duration group block.
Proof.
  intros [Hne Hall] Ht Htd Hmax Hmaxd. cbn [fst snd] in Hne, Hall.
  destruct (exists_last Hne) as [front [final ->]].
  assert (Hstart : timestamp (hd final front) = t).
  { rewrite Forall_forall in Hall. apply Hall. destruct front; left; reflexivity. }
  pose proof (split_group_closed_form front final duration) as Hclosed.
  cbv zeta in Hclosed. rewrite Hstart in Hclosed.
  rewrite length_app in Hmax, Hmaxd, Hclosed. cbn [length] in Hmax, Hmaxd, Hclosed.
  set (n := Z.of_nat (length front + 1)) in *.
  assert (Hn : n = Z.of_nat (length front) + 1) by (unfold n; lia).
  pose proof (divide_nearest_bounds duration n ltac:(lia)) as Hbounds.
  set (part := divide_nearest duration n) in *.
  assert (Hmul : forall j, 0 <= j <= n ->
            (0 <= duration -> 0 <= part * j <= duration + n)
            /\ (duration < 0 -> duration - n <= part * j <= 0)).
  { intros j Hj. split; intros Hd.
    - assert (0 <= part) by (apply divide_nearest_ge; lia). nia.
    - assert (part <= 0) by (apply divide_nearest_le; lia). nia. }
  assert (Hrange : - min_us <= max_us) by (unfold_range; lia).
  assert (Hmin : min_us <= 0) by (unfold_range; lia).
  eexists. split.
  - apply Hclosed.
    + pose proof (Hmul 1 ltac:(lia)) as [H1 H2]. unfold valid. lia.
    + intros j Hj. pose proof (Hmul j ltac:(lia)) as [H1 H2]. unfold valid. lia.
    + unfold valid. lia.
  - exists (evenly part t front),
      (mkSubtitlesEntry (__build_text final) (t + part * (n - 1)) (t + duration)).
    assert (Hc : contiguous
                   (evenly part t front
                    ++ [mkSubtitlesEntry (__build_text final) (t + part * (n - 1))
                          (t + duration)])).
    { apply contiguous_evenly_then. cbn [start_time]. f_equal. f_equal. lia. }
    assert (Hhd : start_time
                    (hd (mkSubtitlesEntry (__build_text final) (t + part * (n - 1))
                           (t + duration)) (evenly part t front)) = t).
    { destruct front as [|x front]; [|reflexivity].
      cbn [evenly hd start_time]. cbn [length] in Hn. lia. }
    split; [reflexivity|].
    split; [rewrite !map_app, text_evenly; reflexivity|].
    split; [exact Hhd|]. split; [reflexivity|]. split; [exact Hc|].
    rewrite (total_duration_contiguous _ _ Hc), Hhd. cbn [end_time]. lia.
Qed.

Lemma split_by_allotment_windows (D : timedelta)
  (groups : list (timedelta * list BbbChatEntry)) :
  0 <= D ->
  Forall keyed groups ->
  Forall (fun kg => 0 <= fst kg
                    /\ fst kg + D + Z.of_nat (length (snd kg)) <= - min_us) groups ->
  exists blocks,
    split_by_allotment D groups = Ok (concat blocks)
    /\ allotted_windows D groups blocks.
Proof.
  intros HD. induction groups as [|[t g] rest IH]; intros Hkeyed Hrange;
    cbn [split_by_allotment].
  - exists []. split; [reflexivity | exact I].
  - apply Forall_cons_iff in Hkeyed. destruct Hkeyed as [Hk Hkeyed].
    apply Forall_cons_iff in Hrange. destruct Hrange as [[Ht0 Ht] Hrange].
    cbn [fst snd] in Ht0, Ht.
    assert (Hallotted : 0 <= t + allotted_duration D t rest <= t + D).
    { destruct rest as [|[t' g'] rest]; cbn [allotted_duration]; [lia|].
      rewrite min_is_Zmin. apply Forall_inv in Hrange. cbn [fst] in Hrange. lia. }
    destruct (split_group_window t g (allotted_duration D t rest) Hk Ht0
                ltac:(lia) ltac:(lia) ltac:(lia)) as [block [-> Hblock]].
    destruct (IH Hkeyed Hrange) as [more [-> Hmore]].
    cbn [bind]. exists (block :: more). split; [reflexivity|].
    cbn [allotted_windows]. split; assumption.
Qed.

(** C5: for a maximum duration that is not negative and timestamps from zero
    on that leave room for it below 999999999 days, in any order,
    [to_subtitles] returns the cues group by group, and the cues of each group
    take up the window of its allotted duration: one cue per entry, from the
    timestamp of the group, touching one another, ending the allotted duration
    later and adding up to it.  The allotted duration is [min(D, next group's
    timestamp - this group's timestamp)] for a group that has a successor and
    the full [D] for the last group, whatever the distances between the groups
    are. *)
Theorem to_subtitles_allotted (entries : list BbbChatEntry) (D : timedelta) :
  0 <= D ->
  Forall (fun e => 0 <= timestamp e
                   /\ timestamp e + D + Z.of_nat (length entries) <= - min_us) entries ->
  exists blocks,
    to_subtitles entries D = Ok (concat blocks)
    /\ allotted_windows D (group_by_timestamp entries) blocks.
Proof.
  intros HD Hrange.
  rewrite to_subtitles_by_allotment
    by (eapply Forall_impl; [|exact Hrange]; intros e [H0 Hmax]; unfold offset; lia).
  apply (split_by_allotment_windows D _ HD (group_by_timestamp_keyed entries)).
  pose proof (group_by_timestamp_keys
                (fun t => 0 <= t /\ t + D + Z.of_nat (length entries) <= - min_us)
                entries Hrange) as Hkeys.
  pose proof (Permutation_length (group_by_timestamp_permutation entries)) as Hlength.
  apply Forall_forall. intros [t g] Hin.
  pose proof (proj1 (Forall_forall _ _) Hkeys (t, g) Hin) as [Ht0 Ht].
  cbn [fst snd] in *.
  assert (Hg : In g (map snd (group_by_timestamp entries))).
  { apply in_map_iff. exists (t, g). split; [reflexivity | exact Hin]. }
  pose proof (length_le_concat g _ Hg) as Hlen. lia.
Qed.

Lemma to_subtitles_allotted_witness :
  exists blocks,
    to_subtitles [chat "a" "x" 10; chat "b" "y" 10; chat "c" "z" 10; chat "d" "w" 20]
      (seconds 3)
    = Ok (concat blocks)
    /\ allotted_windows (seconds 3)
         (group_by_timestamp
            [chat "a" "x" 10; chat "b" "y" 10; chat "c" "z" 10; chat "d" "w" 20])
         blocks.
Proof.
  apply (to_subtitles_allotted
           [chat "a" "x" 10; chat "b" "y" 10; chat "c" "z" 10; chat "d" "w" 20]
           (seconds 3)).
  - vm_compute. discriminate.
  - repeat constructor; vm_compute; discriminate.
Defined.

(** ** Groups of an ordered transcript *)

Lemma snoc_or_nil {A : Type} (l : list A) : l = [] \/ exists l' x, l = l' ++ [x].
Proof.
  destruct l as [|a l]; [left; reflexivity | right].
  destruct (exists_last (l := a :: l)) as [l' [x H]]; [discriminate | eauto].
Qed.

Lemma StronglySorted_snoc {A : Type} (R : A -> A -> Prop) (l : list A) (x : A) :
  StronglySorted R (l ++ [x]) <-> StronglySorted R l /\ Forall (fun y => R y x) l.
Proof.
  induction l as [|a l IH]; cbn [app].
  - split; intros _; repeat constructor.
  - split.
    + intros H. apply StronglySorted_inv in H. destruct H as [Hs Ha].
      apply IH in Hs. destruct Hs as [Hs Hx].
      apply Forall_app in Ha. destruct Ha as [Ha Hax]. inversion Hax; subst.
      repeat split; [constructor | constructor]; assumption.
    + intros [Hs Hx]. apply StronglySorted_inv in Hs. destruct Hs as [Hs Ha].
      inversion Hx; subst.
      constructor; [apply IH; split; assumption|].
      apply Forall_app. split; [assumption | repeat constructor; assumption].
Qed.

Lemma group_append_skip (e : BbbChatEntry)
  (before after : list (timedelta * list BbbChatEntry)) :
  Forall (fun kg => fst kg <> timestamp e) before ->
  group_append e (before ++ after) = before ++ group_append e after.
Proof.
  induction before as [|[k g] before IH]; intros H; cbn [app group_append].
  - reflexivity.
  - inversion H; subst. cbn [fst] in *.
    destruct (Z.eqb_spec k (timestamp e)) as [|_]; [contradiction|].
    rewrite IH by assumption. reflexivity.
Qed.

(** On a transcript ordered by timestamp the groups are the runs of equal
    timestamps: in order they make up the transcript, and their keys increase. *)
Lemma group_by_timestamp_sorted (entries : list BbbChatEntry) :
  StronglySorted Z.le (map timestamp entries) ->
  concat (map snd (group_by_timestamp entries)) = entries
  /\ StronglySorted Z.lt (map fst (group_by_timestamp entries)).
Proof.
  induction entries as [|e entries IH] using rev_ind; intros Hsorted.
  - split; [reflexivity | constructor].
  - rewrite map_app in Hsorted. cbn [map] in Hsorted.
    apply StronglySorted_snoc in Hsorted. destruct Hsorted as [Hsorted Hle].
    destruct (IH Hsorted) as [Hconcat Hkeys].
    pose proof (group_by_timestamp_keys (fun t => t <= timestamp e) entries) as Hbound.
    rewrite Forall_map in Hle. specialize (Hbound Hle).
    rewrite group_by_timestamp_snoc.
    destruct (snoc_or_nil (group_by_timestamp entries))
      as [Hnil | [before [[k g] Hgroups]]].
    + rewrite Hnil in *. simpl in Hconcat. subst entries.
      split; [reflexivity | repeat constructor].
    + rewrite Hgroups in *.
      rewrite map_app in Hkeys. cbn [map fst] in Hkeys.
      apply StronglySorted_snoc in Hkeys. destruct Hkeys as [Hkeys Hlt].
      rewrite Forall_map in Hlt.
      apply Forall_app in Hbound. destruct Hbound as [_ Hk].
      apply Forall_inv in Hk. cbn [fst] in Hk. rename Hk into Hke.
      destruct (Z.eq_dec k (timestamp e)) as [Heq|Hneq].
      * rewrite group_append_skip
          by (eapply Forall_impl; [|exact Hlt]; intros [k' g'] H'; simpl in *; lia).
        cbn [group_append]. rewrite Heq, Z.eqb_refl.
        split.
        -- rewrite <- Hconcat, !map_app, !concat_app. simpl.
           rewrite !app_nil_r, app_assoc. reflexivity.
        -- rewrite map_app. cbn [map fst]. apply StronglySorted_snoc.
           rewrite Forall_map, <- Heq. split; assumption.
      * rewrite <- (app_nil_r (before ++ [(k, g)])).
        rewrite group_append_skip.
        2:{ apply Forall_app. split.
            - eapply Forall_impl; [|exact Hlt]. intros [k' g'] H'. simpl in *. lia.
            - repeat constructor. simpl. exact Hneq. }
        cbn [group_append].
        split.
        -- rewrite <- Hconcat, !map_app, !concat_app. simpl.
           rewrite !app_nil_r. reflexivity.
        -- rewrite map_app. cbn [map fst]. apply StronglySorted_snoc.
           split.
           ++ rewrite map_app. cbn [map fst]. apply StronglySorted_snoc.
              rewrite Forall_map. split; assumption.
           ++ rewrite Forall_map. apply Forall_app. split.
              ** eapply Forall_impl; [|exact Hlt]. intros [k' g'] H'. simpl in *. lia.
              ** repeat constructor. simpl. lia.
Qed.

(** ** The cues of an ordered transcript *)

Lemma contiguous_adjacent (cues : list SubtitlesEntry) (i : nat) (c c' : SubtitlesEntry) :
  contiguous cues ->
  nth_error cues i = Some c -> nth_error cues (S i) = Some c' ->
  end_time c = start_time c'.
Proof.
  revert i. induction cues as [|x cues IH]; intros i Hc Hi Hi'.
  - destruct i; discriminate.
  - destruct cues as [|y cues]; [destruct i; discriminate|].
    destruct Hc as [Hxy Hc].
    destruct i as [|i].
    + simpl in Hi, Hi'. congruence.
    + apply (IH i Hc); assumption.
Qed.

Lemma chained_contiguous (D t : timedelta) (entries : list BbbChatEntry)
  (cues : list SubtitlesEntry) :
  0 <= D ->
  Forall (fun e => timestamp e = t) entries ->
  contiguous cues -> chained D entries cues.
Proof.
  intros HD Hall Hc i e e' c c' He He' Hi Hi'.
  pose proof (contiguous_adjacent cues i c c' Hc Hi Hi') as H.
  rewrite Forall_forall in Hall.
  pose proof (Hall e (nth_error_In _ _ He)) as Hte.
  pose proof (Hall e' (nth_error_In _ _ He')) as Hte'.
  unfold joined. split; [lia|]. split; [intros _; exact H | lia].
Qed.

Lemma chained_app (D : timedelta) (es1 es2 : list BbbChatEntry)
  (cs1 cs2 : list SubtitlesEntry) :
  length es1 = length cs1 ->
  chained D es1 cs1 ->
  chained D es2 cs2 ->
  (forall e c e' c',
     nth_error es1 (length es1 - 1) = Some e ->
     nth_error cs1 (length cs1 - 1) = Some c ->
     nth_error es2 0 = Some e' ->
     nth_error cs2 0 = Some c' ->
     joined D e c e' c') ->
  chained D (es1 ++ es2) (cs1 ++ cs2).
Proof.
  intros Hlen H1 H2 Hjoin i e e' c c' He He' Hc Hc'.
  destruct (Nat.lt_ge_cases (S i) (length es1)) as [Hin1|Hout1].
  - rewrite nth_error_app1 in He, He', Hc, Hc' by lia.
    exact (H1 i e e' c c' He He' Hc Hc').
  - destruct (Nat.eq_dec (S i) (length es1)) as [Hedge|Hin2].
    + rewrite nth_error_app1 in He, Hc by lia.
      rewrite nth_error_app2 in He', Hc' by lia.
      replace (S i - length es1)%nat with 0%nat in He' by lia.
      replace (S i - length cs1)%nat with 0%nat in Hc' by lia.
      replace i with (length es1 - 1)%nat in He by lia.
      replace i with (length cs1 - 1)%nat in Hc by lia.
      exact (Hjoin e c e' c' He Hc He' Hc').
    + rewrite nth_error_app2 in He, He', Hc, Hc' by lia.
      replace (S i - length es1)%nat with (S (i - length es1)) in He' by lia.
      replace (S i - length cs1)%nat with (S (i - length es1)) in Hc' by lia.
      replace (i - length cs1)%nat with (i - length es1)%nat in Hc by lia.
      exact (H2 _ e e' c c' He He' Hc Hc').
Qed.

Lemma keyed_last (t : timedelta) (g : list BbbChatEntry) (e : BbbChatEntry) :
  keyed (t, g) -> nth_error g (length g - 1) = Some e -> timestamp e = t.
Proof.
  intros [_ Hall] He. simpl in Hall. rewrite Forall_forall in Hall.
  apply Hall. eapply nth_error_In. exact He.
Qed.

Lemma keyed_first (t : timedelta) (g rest : list BbbChatEntry) (e : BbbChatEntry) :
  keyed (t, g) -> nth_error (g ++ rest) 0 = Some e -> timestamp e = t.
Proof.
  intros [Hne Hall] He. simpl in *. destruct g as [|x g]; [congruence|].
  simpl in He. injection He as <-. inversion Hall; assumption.
Qed.

Lemma split_by_allotment_sorted (D : timedelta)
  (groups : list (timedelta * list BbbChatEntry)) :
  0 < D ->
  Forall keyed groups ->
  StronglySorted Z.lt (map fst groups) ->
  Forall (fun kg => 0 <= fst kg
                    /\ fst kg + D + Z.of_nat (length (snd kg)) <= max_us) groups ->
  groups <> [] ->
  exists front final,
    split_by_allotment D groups = Ok (front ++ [final])
    /\ length (front ++ [final]) = length (concat (map snd groups))
    /\ map text (front ++ [final]) = map __build_text (concat (map snd groups))
    /\ chained D (concat (map snd groups)) (front ++ [final])
    /\ start_time (hd final front) = fst (hd (0, []) groups)
    /\ end_time final = fst (last groups (0, [])) + D.
Proof.
  intros HD.
  induction groups as [|[t g] rest IH]; intros Hkeyed Hsorted Hrange Hne;
    [congruence|].
  apply Forall_cons_iff in Hkeyed. destruct Hkeyed as [Hk Hkeyed].
  apply Forall_cons_iff in Hrange. destruct Hrange as [[Ht0 Ht] Hrange].
  cbn [map fst] in Hsorted. apply StronglySorted_inv in Hsorted.
  destruct Hsorted as [Hsorted Hlt].
  cbn [fst snd] in Ht0, Ht.
  assert (Hsplit : forall d, 0 <= d <= D ->
            exists front final,
              __split_group g d = Ok (front ++ [final])
              /\ length (front ++ [final]) = length g
              /\ map text (front ++ [final]) = map __build_text g
              /\ contiguous (front ++ [final])
              /\ start_time (hd final front) = t
              /\ end_time final = t + d).
  { intros d Hd.
    destruct Hk as [Hg Hall]. cbn [fst snd] in Hg, Hall.
    destruct (exists_last Hg) as [es [e Hes]].
    assert (Hstart : timestamp (hd e es) = t).
    { rewrite Forall_forall in Hall. apply Hall. rewrite Hes.
      destruct es; left; reflexivity. }
    pose proof (split_group_evenly es e d) as Hclosed.
    cbv zeta in Hclosed. rewrite <- Hes, Hstart in Hclosed.
    eexists _, _. split; [apply Hclosed; lia|].
    split; [rewrite length_app, length_evenly, Hes, length_app; reflexivity|].
    split; [rewrite map_app, text_evenly, Hes, map_app; reflexivity|].
    split; [apply contiguous_evenly_then; reflexivity|].
    split; [|reflexivity].
    destruct es as [|x es]; [|reflexivity].
    cbn [evenly hd start_time length]. lia. }
  cbn [split_by_allotment].
  destruct rest as [|[t' g'] rest].
  - (* the last group *)
    cbn [allotted_duration].
    destruct (Hsplit D ltac:(lia)) as [f [l [H1 [H2 [H3 [H4 [H5 H6]]]]]]].
    exists f, l. rewrite H1. cbn [bind split_by_allotment map concat snd hd last fst].
    rewrite !app_nil_r.
    split; [reflexivity|]. split; [exact H2|]. split; [exact H3|].
    split; [apply (chained_contiguous D t); [lia | exact (proj2 Hk) | exact H4]|].
    split; assumption.
  - (* a group followed by another one *)
    cbn [allotted_duration]. rewrite min_is_Zmin.
    assert (Htt' : t < t').
    { cbn [map fst] in Hlt. apply Forall_inv in Hlt. exact Hlt. }
    destruct (Hsplit (Z.min D (t' - t)) ltac:(lia)) as [f [l [H1 [H2 [H3 [H4 [H5 H6]]]]]]].
    destruct (IH Hkeyed Hsorted Hrange ltac:(discriminate))
      as [f' [l' [I1 [I2 [I3 [I4 [I5 I6]]]]]]].
    rewrite H1. cbn [bind]. rewrite I1. cbn [bind].
    exists ((f ++ [l]) ++ f'), l'.
    rewrite <- (app_assoc (f ++ [l]) f' [l']).
    split; [reflexivity|].
    change (concat (map snd ((t, g) :: (t', g') :: rest)))
      with (g ++ concat (map snd ((t', g') :: rest))).
    split; [rewrite !length_app in *; lia|].
    split; [rewrite !map_app in *; congruence|].
    split.
    + apply chained_app; try assumption.
      * rewrite H2. reflexivity.
      * apply (chained_contiguous D t); [lia | exact (proj2 Hk) | exact H4].
      * intros e c e' c' He Hc He' Hc'.
        pose proof (keyed_last t g e Hk He) as Hte.
        assert (Hte' : timestamp e' = t').
        { apply Forall_inv in Hkeyed. cbn [map snd concat] in He'.
          exact (keyed_first t' g' _ e' Hkeyed He'). }
        assert (Hcl : c = l).
        { rewrite length_app in Hc. cbn [length] in Hc.
          rewrite nth_error_app2 in Hc by lia.
          replace (length f + 1 - 1 - length f)%nat with 0%nat in Hc by lia.
          simpl in Hc. congruence. }
        assert (Hc'hd : c' = hd l' f').
        { destruct f'; simpl in Hc'; simpl; congruence. }
        subst c c'. cbn [hd fst] in I5.
        unfold joined. rewrite H6, I5, Hte, Hte'.
        split; [lia|]. split; intros Hgap; lia.
    + split.
      * destruct f; simpl in *; assumption.
      * exact I6.
Qed.

Lemma last_of_map {A B : Type} (f : A -> B) (l : list A) (d : A) :
  last (map f l) (f d) = f (last l d).
Proof.
  induction l as [|a l IH]; [reflexivity|].
  destruct l; [reflexivity | exact IH].
Qed.

Lemma StronglySorted_le_last (l : list Z) (d x : Z) :
  StronglySorted Z.le l -> In x l -> x <= last l d.
Proof.
  revert x. induction l as [|a l IH]; intros x Hs Hin; [contradiction|].
  apply StronglySorted_inv in Hs. destruct Hs as [Hs Ha].
  destruct l as [|b l].
  - destruct Hin as [->|[]]. simpl. lia.
  - change (last (a :: b :: l) d) with (last (b :: l) d).
    destruct Hin as [->|Hin].
    + rewrite Forall_forall in Ha.
      pose proof (Ha b ltac:(left; reflexivity)).
      pose proof (IH b Hs ltac:(left; reflexivity)). lia.
    + apply IH; assumption.
Qed.

Lemma groups_of_ordered (first : BbbChatEntry) (rest : list BbbChatEntry) :
  let entries := first :: rest in
  let groups := group_by_timestamp entries in
  StronglySorted Z.le (map timestamp entries) ->
  groups <> []
  /\ concat (map snd groups) = entries
  /\ StronglySorted Z.lt (map fst groups)
  /\ Forall keyed groups
  /\ fst (hd (0, []) groups) = timestamp first
  /\ fst (last groups (0, [])) = timestamp (last rest first).
Proof.
  intros entries groups Hsorted.
  destruct (group_by_timestamp_sorted entries Hsorted) as [Hconcat Hkeys].
  pose proof (group_by_timestamp_keyed entries) as Hkeyed.
  fold groups in Hconcat, Hkeys, Hkeyed.
  assert (Hne : groups <> []).
  { intros E. rewrite E in Hconcat. discriminate. }
  repeat split; try assumption.
  - destruct groups as [|[t g] more]; [congruence|].
    apply Forall_inv in Hkeyed. cbn [hd fst]. cbn [map snd concat] in Hconcat.
    symmetry. apply (keyed_first t g (concat (map snd more)) first Hkeyed).
    rewrite Hconcat. reflexivity.
  - destruct (snoc_or_nil groups) as [|[before [[t g] E]]]; [congruence|].
    rewrite E in *. rewrite last_last. cbn [fst].
    apply Forall_app in Hkeyed. destruct Hkeyed as [_ Hk]. apply Forall_inv in Hk.
    destruct Hk as [Hg Hall]. cbn [fst snd] in *.
    destruct (snoc_or_nil g) as [|[g0 [e Eg]]]; [congruence|].
    rewrite Eg in *. rewrite map_app, concat_app in Hconcat.
    cbn [map snd concat] in Hconcat. rewrite app_nil_r, app_assoc in Hconcat.
    assert (Hlast : last entries first = e) by (rewrite <- Hconcat; apply last_last).
    apply Forall_app in Hall. destruct Hall as [_ He]. apply Forall_inv in He.
    assert (Hlr : last entries first = last rest first).
    { unfold entries. destruct rest; reflexivity. }
    congruence.
Qed.

(** C3, as the code has it: on a non-empty transcript ordered by timestamp,
    with [D] positive and every cue time inside the range of [timedelta],
    [to_subtitles] returns one cue per entry, in the order of the entries and
    with their texts; the first cue starts at the first timestamp and the last
    cue ends [D] after the last timestamp; a cue never ends after the next one
    starts; two consecutive cues touch whenever the next entry comes at most
    [D] after the entry of the cue; and wherever the next entry comes more
    than [D] after it, the cue ends [D] after its entry and the next cue
    starts at the next entry, so the time in between is left uncovered. *)
Theorem to_subtitles_ordered
  (first : BbbChatEntry) (rest : list BbbChatEntry) (D : timedelta) :
  let entries := first :: rest in
  Sorted Z.le (map timestamp entries) ->
  0 < D ->
  0 <= timestamp first ->
  timestamp (last rest first) + D + Z.of_nat (length entries) <= - min_us ->
  exists front final,
    to_subtitles entries D = Ok (front ++ [final])
    /\ length (front ++ [final]) = length entries
    /\ map text (front ++ [final]) = map __build_text entries
    /\ start_time (hd final front) = timestamp first
    /\ end_time final = timestamp (last rest first) + D
    /\ forall i e e' c c',
         nth_error entries i = Some e ->
         nth_error entries (S i) = Some e' ->
         nth_error (front ++ [final]) i = Some c ->
         nth_error (front ++ [final]) (S i) = Some c' ->
         end_time c <= start_time c'
         /\ (timestamp e' - timestamp e <= D -> end_time c = start_time c')
         /\ (D < timestamp e' - timestamp e ->
             end_time c = timestamp e + D /\ start_time c' = timestamp e').
Proof.
  intros entries Hsorted HD Hfirst Hlast.
  apply Sorted_StronglySorted in Hsorted; [|exact Z.le_trans].
  destruct (groups_of_ordered first rest Hsorted)
    as [Hne [Hconcat [Hkeys [Hkeyed [Hhd Hlst]]]]].
  fold entries in Hconcat, Hkeys, Hkeyed, Hhd, Hlst, Hne.
  assert (Hbounds : Forall (fun e => timestamp first <= timestamp e
                                     /\ timestamp e <= timestamp (last rest first))
                      entries).
  { apply Forall_forall. intros e Hin. split.
    - destruct Hin as [<-|Hin]; [lia|].
      cbn [entries map] in Hsorted. apply StronglySorted_inv in Hsorted.
      destruct Hsorted as [_ Hall]. rewrite Forall_forall in Hall.
      apply Hall. apply in_map. exact Hin.
    - replace (last rest first) with (last entries first)
        by (unfold entries; destruct rest; reflexivity).
      pose proof (StronglySorted_le_last (map timestamp entries) (timestamp first)
                    (timestamp e) Hsorted (in_map timestamp _ _ Hin)) as H.
      rewrite last_of_map in H. exact H. }
  assert (Hoffset : Forall (fun e => offset (timestamp e)) entries).
  { eapply Forall_impl; [|exact Hbounds]. intros e [H1 H2]. unfold offset. lia. }
  rewrite (to_subtitles_by_allotment entries D Hoffset).
  destruct (split_by_allotment_sorted D (group_by_timestamp entries) HD Hkeyed Hkeys)
    as [front [final [H1 [H2 [H3 [H4 [H5 H6]]]]]]].
  - apply Forall_forall. intros [t g] Hin. cbn [fst snd].
    rewrite Forall_forall in Hkeyed, Hbounds.
    destruct (index_keyed t g (Hkeyed _ Hin)) as [e [He Hte]].
    assert (Hing : In g (map snd (group_by_timestamp entries))).
    { apply (in_map snd _ _ Hin). }
    assert (Hine : In e entries).
    { rewrite <- Hconcat. apply in_concat. exists g. split; [exact Hing|].
      unfold index in He. destruct g; simpl in He; [discriminate|].
      injection He as <-. left. reflexivity. }
    pose proof (length_le_concat g _ Hing) as Hlen. rewrite Hconcat in Hlen.
    destruct (Hbounds e Hine) as [Hb1 Hb2].
    unfold_range. lia.
  - exact Hne.
  - rewrite Hconcat in H2, H3, H4. rewrite Hhd in H5. rewrite Hlst in H6.
    exists front, final.
    split; [exact H1|]. split; [exact H2|]. split; [exact H3|].
    split; [exact H5|]. split; [exact H6|].
    intros i e e' c c' He He' Hc Hc'. exact (H4 i e e' c c' He He' Hc Hc').
Qed.

Lemma to_subtitles_ordered_witness :
  let entries := [chat "a" "x" 10; chat "b" "y" 10; chat "c" "z" 10; chat "d" "w" 20] in
  let D := seconds 3 in
  exists front final,
    to_subtitles entries D = Ok (front ++ [final])
    /\ length (front ++ [final]) = 4%nat
    /\ map text (front ++ [final]) = ["a: x"; "b: y"; "c: z"; "d: w"]%string
    /\ start_time (hd final front) = seconds 10
    /\ end_time final = seconds 20 + D
    /\ forall i e e' c c',
         nth_error entries i = Some e ->
         nth_error entries (S i) = Some e' ->
         nth_error (front ++ [final]) i = Some c ->
         nth_error (front ++ [final]) (S i) = Some c' ->
         end_time c <= start_time c'
         /\ (timestamp e' - timestamp e <= D -> end_time c = start_time c')
         /\ (D < timestamp e' - timestamp e ->
             end_time c = timestamp e + D /\ start_time c' = timestamp e').
Proof.
  apply (to_subtitles_ordered (chat "a" "x" 10)
           [chat "b" "y" 10; chat "c" "z" 10; chat "d" "w" 20] (seconds 3)).
  - repeat (constructor; try (vm_compute; discriminate)).
  - reflexivity.
  - vm_compute. discriminate.
  - vm_compute. discriminate.
Defined.

(** C3, as the specification states it, fails: with entries at 0 s and 10 s and
    [D] = 3 s the cues are [0 s - 3 s] and [10 s - 13 s]; the time from 3 s to
    10 s, inside [first timestamp, last timestamp + D], is not covered. *)
Lemma to_subtitles_leaves_gap :
  let entries := [chat "a" "x" 0; chat "b" "y" 10] in
  Sorted Z.le (map timestamp entries)
  /\ to_subtitles entries (seconds 3)
     = Ok [cue "a: x" 0 3000000; cue "b: y" 10000000 13000000]
  /\ ~ exists cues, to_subtitles entries (seconds 3) = Ok cues /\ contiguous cues.
Proof.
  cbv zeta. split; [repeat (constructor; try (vm_compute; discriminate))|].
  split; [vm_compute; reflexivity|].
  intros [cues [Hcues Hc]]. vm_compute in Hcues. injection Hcues as <-.
  destruct Hc as [Hc _]. vm_compute in Hc. discriminate.
Qed.

(** ** A crowded group *)

Lemma sorted_crowd (e e' : BbbChatEntry) (n : nat) :
  timestamp e <= timestamp e' ->
  Sorted Z.le (map timestamp (repeat e n ++ [e'])).
Proof.
  intros Hle. induction n as [|n IH]; cbn [repeat app map].
  - repeat constructor.
  - constructor; [exact IH|].
    destruct n; cbn [repeat app map]; constructor; lia.
Qed.

(** C4 fails on the code: 2563 entries at 0 s followed by one entry at 3 s,
    with [D] = 3 s.  The first group is allotted 3 s, that is 1171 microseconds
    per entry after rounding, and 2562 such parts are longer than the 3 s: the
    last cue of the group starts at 3.000102 s and ends at 3 s, and the cue of
    the next entry starts at 3 s, before the cue that precedes it. *)
Lemma to_subtitles_crowded_group :
  let entries := repeat (chat "a" "x" 0) 2563 ++ [chat "b" "y" 3] in
  let c := cue "a: x" 3000102 3000000 in
  let c' := cue "b: y" 3000000 6000000 in
  Sorted Z.le (map timestamp entries)
  /\ (cues <- to_subtitles entries (seconds 3) ;;
      Ok (nth_error cues 2562, nth_error cues 2563))
     = Ok (Some c, Some c')
  /\ end_time c < start_time c
  /\ start_time c' < start_time c.
Proof.
  cbv zeta. split; [apply sorted_crowd; vm_compute; discriminate|].
  split; [vm_compute; reflexivity|].
  split; reflexivity.
Qed.

(** * Further properties *)

(** ** The exceptions of the engine *)

Lemma only_overflow_Ok {A : Type} (a : A) : only_overflow (Ok a).
Proof. intros e H. discriminate. Qed.

Lemma only_overflow_of_microseconds (us : Z) : only_overflow (of_microseconds us).
Proof.
  intros e. unfold of_microseconds. destruct (in_range us); intros H;
    [discriminate | injection H as <-; reflexivity].
Qed.

Lemma only_overflow_bind {A B : Type} (c : result A) (k : A -> result B) :
  only_overflow c ->
  (forall a, c = Ok a -> only_overflow (k a)) ->
  only_overflow (bind c k).
Proof.
  intros Hc Hk e. destruct c as [a|x]; cbn [bind].
  - apply (Hk a eq_refl).
  - intros H. apply Hc. injection H as <-. reflexivity.
Qed.

Lemma only_overflow_for_each {A S : Type} (xs : list A) (body : S -> A -> result S)
  (s : S) :
  (forall s x, In x xs -> only_overflow (body s x)) ->
  only_overflow (for_each xs body s).
Proof.
  revert s. induction xs as [|x xs IH]; intros s H; cbn [for_each].
  - apply only_overflow_Ok.
  - apply only_overflow_bind.
    + apply H. left. reflexivity.
    + intros s' _. apply IH. intros s0 x0 Hin. apply H. right. exact Hin.
Qed.

Lemma index_below {A : Type} (l : list A) (i : nat) :
  (i < length l)%nat -> exists x, index l i = Ok x /\ In x l.
Proof.
  intros Hi. unfold index.
  destruct (nth_error l i) as [x|] eqn:E.
  - exists x. split; [reflexivity|]. eapply nth_error_In. exact E.
  - apply nth_error_None in E. lia.
Qed.

Lemma split_group_only_overflow (group : list BbbChatEntry) (duration : timedelta) :
  group <> [] -> only_overflow (__split_group group duration).
Proof.
  intros Hne.
  assert (Hlen : (0 < length group)%nat) by (destruct group; [congruence | simpl; lia]).
  unfold __split_group. apply only_overflow_bind.
  { unfold div_int. destruct (Z.eqb_spec (Z.of_nat (length group)) 0) as [|_]; [lia|].
    apply only_overflow_of_microseconds. }
  intros part _.
  destruct (index_below group 0 Hlen) as [first [-> _]]. cbn [bind].
  apply only_overflow_bind.
  { apply only_overflow_for_each. intros [out t] i Hin.
    apply in_seq in Hin.
    destruct (index_below group i ltac:(lia)) as [current [-> _]]. cbn [bind].
    apply only_overflow_bind; [apply only_overflow_of_microseconds|].
    intros stop _. apply only_overflow_Ok. }
  intros [out t] _.
  destruct (index_below group (length group - 1) ltac:(lia)) as [current [Hcur _]].
  unfold last_item. rewrite Hcur. cbn [bind].
  apply only_overflow_bind; [apply only_overflow_of_microseconds|].
  intros stop _. apply only_overflow_Ok.
Qed.

(** X1: whatever the transcript and the maximum duration are, the only
    exception [to_subtitles] can end with is [OverflowError], raised by the
    arithmetic of [timedelta]: the groups of the dictionary are never empty, so
    no division by zero and no index error can occur. *)
Theorem to_subtitles_raises_only_overflow
  (entries : list BbbChatEntry) (max_duration : timedelta) (e : exn) :
  to_subtitles entries max_duration = Raise e -> e = OverflowError.
Proof.
  revert e. change (only_overflow (to_subtitles entries max_duration)).
  unfold to_subtitles.
  assert (Hgroups : Forall (fun g => g <> []) (map snd (group_by_timestamp entries))).
  { apply Forall_map. eapply Forall_impl; [|apply group_by_timestamp_keyed].
    intros kg [Hne _]. exact Hne. }
  rewrite Forall_forall in Hgroups.
  set (values := map snd (group_by_timestamp entries)) in *.
  destruct values as [|v values'] eqn:Hvalues; [apply only_overflow_Ok|].
  rewrite <- Hvalues in *.
  assert (Hlen : (0 < length values)%nat) by (rewrite Hvalues; simpl; lia).
  assert (Hfirst : forall g, In g values -> exists x, index g 0 = Ok x).
  { intros g Hin. destruct (index_below g 0) as [x [Hx _]]; [|eauto].
    specialize (Hgroups g Hin). destruct g; [congruence | simpl; lia]. }
  apply only_overflow_bind.
  { apply only_overflow_for_each. intros result i Hin. apply in_seq in Hin.
    destruct (index_below values i ltac:(lia)) as [g [-> Hg]].
    destruct (index_below values (i + 1) ltac:(lia)) as [g' [-> Hg']].
    cbn [bind].
    destruct (Hfirst g Hg) as [x ->]. destruct (Hfirst g' Hg') as [x' ->].
    cbn [bind].
    apply only_overflow_bind; [apply only_overflow_of_microseconds|].
    intros gap _.
    apply only_overflow_bind; [apply split_group_only_overflow; auto|].
    intros cues _. apply only_overflow_Ok. }
  intros result _.
  destruct (index_below values (length values - 1) ltac:(lia)) as [g [Hg Hin]].
  unfold last_item. rewrite Hg. cbn [bind].
  destruct (Hfirst g Hin) as [x ->]. cbn [bind].
  apply only_overflow_bind; [apply split_group_only_overflow; auto|].
  intros cues _. apply only_overflow_Ok.
Qed.

Lemma to_subtitles_raises_only_overflow_witness :
  exists e,
    to_subtitles [mkBbbChatEntry "a" "x" max_us] (seconds 3) = Raise e
    /\ e = OverflowError.
Proof.
  exists OverflowError. split; [vm_compute; reflexivity|].
  apply (to_subtitles_raises_only_overflow
           [mkBbbChatEntry "a" "x" max_us] (seconds 3) OverflowError).
  vm_compute. reflexivity.
Defined.

Lemma of_microseconds_Ok (us : Z) (t : timedelta) :
  of_microseconds us = Ok t -> t = us /\ valid us.
Proof.
  unfold of_microseconds, in_range, valid.
  destruct (Z.leb_spec min_us us) as [Hlo|Hlo];
    destruct (Z.leb_spec us max_us) as [Hhi|Hhi];
    cbn [andb]; intros Hok; try discriminate.
  injection Hok as <-. auto.
Qed.

Lemma split_entry_only_overflow (entry : SubtitlesEntry) :
  only_overflow (__split_entry entry).
Proof.
  unfold __split_entry.
  apply only_overflow_bind; [apply only_overflow_of_microseconds|].
  intros duration Hduration.
  apply of_microseconds_Ok in Hduration. destruct Hduration as [-> Hvalid].
  set (duration := end_time entry - start_time entry) in *.
  destruct (Z.leb_spec duration MAX_VALID_MP4_DURATION) as [|Hlong];
    [apply only_overflow_Ok|].
  unfold truediv.
  destruct (Z.eqb_spec MAX_VALID_MP4_DURATION 0) as [E|_]; [discriminate E|].
  cbn [bind].
  destruct (split_parts duration Hlong (proj2 Hvalid)) as [Hparts _].
  apply only_overflow_bind.
  { unfold div_int.
    destruct (Z.eqb_spec (ceil (int_true_divide duration MAX_VALID_MP4_DURATION)) 0)
      as [|_]; [lia|].
    apply only_overflow_of_microseconds. }
  intros duration_per_one _.
  apply only_overflow_bind.
  { apply only_overflow_for_each. intros out i _.
    apply only_overflow_bind; [apply only_overflow_of_microseconds|]. intros offset _.
    apply only_overflow_bind; [apply only_overflow_of_microseconds|]. intros start _.
    apply only_overflow_bind; [apply only_overflow_of_microseconds|]. intros stop _.
    apply only_overflow_Ok. }
  intros out _.
  apply only_overflow_bind; [apply only_overflow_of_microseconds|]. intros offset _.
  apply only_overflow_bind; [apply only_overflow_of_microseconds|]. intros start _.
  apply only_overflow_Ok.
Qed.

Lemma yield_each_only_overflow {A B : Type} (xs : list A) (body : A -> result (list B)) :
  (forall x, In x xs -> only_overflow (body x)) ->
  forall e, raised (yield_each xs body) = Some e -> e = OverflowError.
Proof.
  induction xs as [|x xs IH]; intros H e; cbn [yield_each].
  - discriminate.
  - destruct (body x) as [ys|x0] eqn:E; cbn [raised].
    + apply IH. intros x1 Hin. apply H. right. exact Hin.
    + intros He. injection He as <-. apply (H x (or_introl eq_refl)). exact E.
Qed.

Lemma fill_gapes_only_overflow (entries : list SubtitlesEntry) (gape_placeholder : string)
  (e : exn) :
  raised (__fill_gapes entries gape_placeholder) = Some e -> e = OverflowError.
Proof.
  unfold __fill_gapes. destruct (length entries <? 2)%nat; [discriminate|].
  apply yield_each_only_overflow. intros i Hin. apply in_seq in Hin.
  cbn [length] in Hin.
  destruct (index_below (mkSubtitlesEntry gape_placeholder 0 0 :: entries) i)
    as [previous [-> _]]; [cbn [length]; lia|].
  destruct (index_below (mkSubtitlesEntry gape_placeholder 0 0 :: entries) (i + 1))
    as [current [-> _]]; [cbn [length]; lia|].
  cbn [bind].
  apply only_overflow_bind; [apply only_overflow_of_microseconds|].
  intros gap _. apply only_overflow_Ok.
Qed.

(** X2: whatever the cues, the recording duration and the placeholder are, the
    only exception [apply_mp4_fixes] can end with is [OverflowError]: the walk
    over the cue pairs stays inside the sequence, and a cue longer than the
    limit is always split in at least one part, so no index error and no
    division by zero can occur. *)
Theorem apply_mp4_fixes_raises_only_overflow
  (entries : list SubtitlesEntry) (recording_duration : option timedelta)
  (gape_placeholder : string) (e : exn) :
  apply_mp4_fixes entries recording_duration gape_placeholder = Raise e ->
  e = OverflowError.
Proof.
  revert e.
  change (only_overflow (apply_mp4_fixes entries recording_duration gape_placeholder)).
  unfold apply_mp4_fixes. apply only_overflow_bind; [|intros; apply only_overflow_Ok].
  unfold fill_and_split. apply only_overflow_bind.
  - apply only_overflow_for_each. intros result entry _.
    apply only_overflow_bind; [apply split_entry_only_overflow|].
    intros parts _. apply only_overflow_Ok.
  - intros result _.
    destruct (raised (__fill_gapes entries gape_placeholder)) as [x|] eqn:E;
      [|apply only_overflow_Ok].
    intros e He. injection He as <-.
    apply (fill_gapes_only_overflow entries gape_placeholder). exact E.
Qed.

Lemma apply_mp4_fixes_raises_only_overflow_witness :
  exists e,
    apply_mp4_fixes [cue "a" 0 1; cue "b" min_us 0] None default_placeholder = Raise e
    /\ e = OverflowError.
Proof.
  exists OverflowError. split; [vm_compute; reflexivity|].
  apply (apply_mp4_fixes_raises_only_overflow
           [cue "a" 0 1; cue "b" min_us 0] None default_placeholder OverflowError).
  vm_compute. reflexivity.
Defined.

(** ** The dictionary of groups *)

Lemma in_distinct (l : list Z) (x : Z) : In x (distinct l) <-> In x l.
Proof.
  induction l as [|a l IH]; cbn [distinct]; [reflexivity|].
  split.
  - intros [->|Hin]; [left; reflexivity|].
    apply filter_In in Hin. right. apply IH. apply Hin.
  - intros [->|Hin]; [left; reflexivity|].
    destruct (Z.eq_dec x a) as [->|Hne]; [left; reflexivity|].
    right. apply filter_In. split; [apply IH; exact Hin|].
    apply negb_true_iff. apply Z.eqb_neq. exact Hne.
Qed.

Lemma NoDup_distinct (l : list Z) : NoDup (distinct l).
Proof.
  induction l as [|a l IH]; cbn [distinct]; constructor.
  - intros Hin. apply filter_In in Hin. destruct Hin as [_ Hne].
    rewrite Z.eqb_refl in Hne. discriminate.
  - apply NoDup_filter. exact IH.
Qed.

Lemma distinct_snoc (l : list Z) (x : Z) :
  distinct (l ++ [x]) = if in_dec Z.eq_dec x l then distinct l else distinct l ++ [x].
Proof.
  induction l as [|a l IH]; cbn [app distinct].
  - destruct (in_dec Z.eq_dec x []) as [[]|_]. reflexivity.
  - rewrite IH.
    destruct (in_dec Z.eq_dec x l) as [Hin|Hout];
      destruct (in_dec Z.eq_dec x (a :: l)) as [Hin'|Hout'];
      try reflexivity.
    + contradiction Hout'. right. exact Hin.
    + destruct Hin' as [->|Hin']; [|contradiction].
      rewrite filter_app. cbn [filter]. rewrite Z.eqb_refl. cbn [negb].
      rewrite app_nil_r. reflexivity.
    + rewrite filter_app. cbn [filter app].
      destruct (Z.eqb_spec x a) as [->|_]; [contradiction Hout'; left; reflexivity|].
      reflexivity.
Qed.

Lemma group_append_member (e : BbbChatEntry) (entries : list BbbChatEntry)
  (keys : list Z) :
  NoDup keys -> In (timestamp e) keys ->
  group_append e
    (map (fun key => (key, filter (fun x => timestamp x =? key) entries)) keys)
  = map (fun key => (key, filter (fun x => timestamp x =? key) (entries ++ [e]))) keys.
Proof.
  induction keys as [|k keys IH]; intros Hnd Hin; [contradiction|].
  apply NoDup_cons_iff in Hnd. destruct Hnd as [Hk Hnd].
  cbn [map group_append]. rewrite filter_app. cbn [filter].
  destruct (Z.eqb_spec k (timestamp e)) as [->|Hne].
  - rewrite Z.eqb_refl. f_equal.
    apply map_ext_in. intros k' Hk'. rewrite filter_app. cbn [filter].
    destruct (Z.eqb_spec (timestamp e) k') as [<-|_]; [contradiction|].
    rewrite app_nil_r. reflexivity.
  - destruct (Z.eqb_spec (timestamp e) k) as [E|_]; [congruence|].
    rewrite app_nil_r. f_equal. apply IH; [exact Hnd|].
    destruct Hin as [E|Hin]; [congruence | exact Hin].
Qed.

Lemma group_append_new (e : BbbChatEntry) (entries : list BbbChatEntry)
  (keys : list Z) :
  ~ In (timestamp e) keys ->
  group_append e
    (map (fun key => (key, filter (fun x => timestamp x =? key) entries)) keys)
  = map (fun key => (key, filter (fun x => timestamp x =? key) (entries ++ [e]))) keys
    ++ [(timestamp e, [e])].
Proof.
  induction keys as [|k keys IH]; intros Hout; cbn [map group_append app].
  - reflexivity.
  - destruct (Z.eqb_spec k (timestamp e)) as [E|Hne].
    + contradiction Hout. left. exact E.
    + rewrite IH by (intros Hin; apply Hout; right; exact Hin).
      rewrite filter_app. cbn [filter].
      destruct (Z.eqb_spec (timestamp e) k) as [E|_]; [congruence|].
      rewrite app_nil_r. reflexivity.
Qed.

Lemma filter_absent (entries : list BbbChatEntry) (key : Z) :
  ~ In key (map timestamp entries) ->
  filter (fun x => timestamp x =? key) entries = [].
Proof.
  induction entries as [|x entries IH]; intros Hout; [reflexivity|].
  cbn [filter]. cbn [map] in Hout.
  destruct (Z.eqb_spec (timestamp x) key) as [E|_].
  - contradiction Hout. left. exact E.
  - apply IH. intros Hin. apply Hout. right. exact Hin.
Qed.

(** X3: the dictionary that [to_subtitles] builds by appending each entry to
    the list of its timestamp holds one group per distinct timestamp, in the
    order in which the timestamps first occur in the transcript, and the group
    of a timestamp is the list of the entries of that timestamp in the order
    of the transcript, whether the transcript is ordered or not. *)
Theorem group_by_timestamp_filter (entries : list BbbChatEntry) :
  group_by_timestamp entries = groups_by_filter entries.
Proof.
  induction entries as [|e entries IH] using rev_ind; [reflexivity|].
  rewrite group_by_timestamp_snoc, IH. unfold groups_by_filter.
  rewrite map_app. cbn [map]. rewrite distinct_snoc.
  destruct (in_dec Z.eq_dec (timestamp e) (map timestamp entries)) as [Hin|Hout].
  - apply group_append_member; [apply NoDup_distinct | apply in_distinct; exact Hin].
  - rewrite group_append_new by (rewrite in_distinct; exact Hout).
    rewrite map_app. cbn [map]. f_equal. f_equal. f_equal.
    rewrite filter_app. cbn [filter]. rewrite Z.eqb_refl.
    rewrite filter_absent by exact Hout. reflexivity.
Qed.

(** ** The cues of any transcript *)

Lemma bind_Ok {A B : Type} (c : result A) (k : A -> result B) (b : B) :
  bind c k = Ok b -> exists a, c = Ok a /\ k a = Ok b.
Proof. destruct c as [a|e]; cbn [bind]; intros H; [eauto | discriminate]. Qed.

Lemma to_subtitles_loop_any (D : timedelta) (groups : list (timedelta * list BbbChatEntry)) :
  Forall keyed groups ->
  forall (todo done_ : list (timedelta * list BbbChatEntry))
         (this : timedelta * list BbbChatEntry) (out : list SubtitlesEntry),
    groups = done_ ++ this :: todo ->
    (result <-
       for_each (seq (length done_) (length todo))
         (fun result i =>
            current_group <- index (map snd groups) i ;;
            next_group <- index (map snd groups) (i + 1) ;;
            current_first <- index current_group 0 ;;
            next_first <- index next_group 0 ;;
            let current_segment_time := timestamp current_first in
            let next_segment_time := timestamp next_first in
            gap <- sub next_segment_time current_segment_time ;;
            let duration := Timedelta.min D gap in
            cues <- __split_group current_group duration ;;
            Ok (result ++ cues))
         out ;;
     current_group <- last_item (map snd groups) ;;
     current_first <- index current_group 0 ;;
     cues <- __split_group current_group D ;;
     Ok (result ++ cues))
    = (cues <- split_by_gaps D (this :: todo) ;; Ok (out ++ cues)).
Proof.
  intros Hkeyed.
  induction todo as [|next todo IH]; intros done_ [t g] out Hgroups.
  - cbn [length seq for_each bind split_by_gaps].
    assert (Hlast : last_item (map snd groups) = Ok g).
    { rewrite Hgroups, map_app. apply last_item_snoc. }
    rewrite Hlast. cbn [bind].
    assert (Hk : keyed (t, g)).
    { rewrite Forall_forall in Hkeyed. apply Hkeyed. rewrite Hgroups.
      apply in_elt. }
    destruct (index_keyed t g Hk) as [e [He _]]. rewrite He. cbn [bind].
    destruct (__split_group g D) as [cues|x]; cbn [bind]; [|reflexivity].
    rewrite app_nil_r. reflexivity.
  - destruct next as [t' g'].
    change (split_by_gaps D ((t, g) :: (t', g') :: todo))
      with (duration <- (gap <- sub t' t ;; Ok (Timedelta.min D gap)) ;;
            cues <- __split_group g duration ;;
            more <- split_by_gaps D ((t', g') :: todo) ;;
            Ok (cues ++ more)).
    cbn [length seq for_each].
    assert (Hcur : index (map snd groups) (length done_) = Ok g).
    { rewrite Hgroups, map_app. cbn [map].
      rewrite <- (length_map snd done_). apply index_middle. }
    assert (Hnext : index (map snd groups) (length done_ + 1) = Ok g').
    { rewrite Hgroups.
      replace (done_ ++ (t, g) :: (t', g') :: todo)
        with ((done_ ++ [(t, g)]) ++ (t', g') :: todo)
        by (rewrite <- app_assoc; reflexivity).
      rewrite map_app. cbn [map].
      replace (length done_ + 1)%nat with (length (map snd (done_ ++ [(t, g)])))
        by (rewrite length_map, length_app; reflexivity).
      apply index_middle. }
    rewrite Hcur, Hnext. cbn [bind].
    pose proof Hkeyed as Hk. rewrite Forall_forall in Hk.
    assert (Hin : In (t, g) groups) by (rewrite Hgroups; apply in_elt).
    assert (Hin' : In (t', g') groups).
    { rewrite Hgroups. apply in_or_app. right. right. left. reflexivity. }
    destruct (index_keyed t g (Hk _ Hin)) as [e [He Hte]].
    destruct (index_keyed t' g' (Hk _ Hin')) as [e' [He' Hte']].
    rewrite He, He'. cbn [bind]. rewrite Hte, Hte'.
    destruct (sub t' t) as [gap|x]; cbn [bind]; [|reflexivity].
    destruct (__split_group g (Timedelta.min D gap)) as [cues|x];
      cbn [bind]; [|reflexivity].
    assert (Hgroups' : groups = (done_ ++ [(t, g)]) ++ (t', g') :: todo)
      by (rewrite Hgroups, <- app_assoc; reflexivity).
    replace (S (length done_)) with (length (done_ ++ [(t, g)]))
      by (rewrite length_app; simpl; lia).
    etransitivity;
      [exact (IH (done_ ++ [(t, g)]) (t', g') (out ++ cues) Hgroups')|].
    destruct (split_by_gaps D ((t', g') :: todo)) as [more|x];
      cbn [bind]; [|reflexivity].
    rewrite app_assoc. reflexivity.
Qed.

Lemma to_subtitles_by_gaps (entries : list BbbChatEntry) (D : timedelta) :
  to_subtitles entries D = split_by_gaps D (group_by_timestamp entries).
Proof.
  unfold to_subtitles.
  pose proof (group_by_timestamp_keyed entries) as Hkeyed.
  destruct (group_by_timestamp entries) as [|this todo] eqn:Hgroups.
  - reflexivity.
  - cbn [map]. rewrite <- (map_cons snd this todo).
    rewrite length_map. cbn [length]. rewrite Nat.sub_succ, Nat.sub_0_r. unfold range.
    etransitivity;
      [exact (to_subtitles_loop_any D (this :: todo) Hkeyed todo [] this [] eq_refl)|].
    destruct (split_by_gaps D (this :: todo)); reflexivity.
Qed.

Lemma split_group_loop_texts (group : list BbbChatEntry) (part : timedelta) :
  forall (todo done_ rest : list BbbChatEntry) (out out' : list SubtitlesEntry)
         (t t' : timedelta),
    group = done_ ++ todo ++ rest ->
    for_each (seq (length done_) (length todo))
      (fun '(out, current_time) i =>
         current <- index group i ;;
         stop <- add current_time part ;;
         Ok (out ++ [mkSubtitlesEntry (__build_text current) current_time stop], stop))
      (out, t)
    = Ok (out', t') ->
    map text out' = map text out ++ map __build_text todo.
Proof.
  induction todo as [|e todo IH]; intros done_ rest out out' t t' Hgroup Hloop.
  - cbn [length seq for_each] in Hloop. injection Hloop as <- _.
    cbn [map]. rewrite app_nil_r. reflexivity.
  - cbn [length seq for_each] in Hloop.
    rewrite Hgroup in Hloop at 1. cbn [app] in Hloop.
    rewrite index_middle in Hloop. cbn [bind] in Hloop.
    destruct (add t part) as [stop|x]; cbn [bind] in Hloop; [|discriminate].
    replace (S (length done_)) with (length (done_ ++ [e])) in Hloop
      by (rewrite length_app; simpl; lia).
    apply (IH (done_ ++ [e]) rest) in Hloop.
    + rewrite Hloop, map_app. cbn [map text]. rewrite <- app_assoc. reflexivity.
    + rewrite Hgroup, <- app_assoc. reflexivity.
Qed.

Lemma split_group_texts (group : list BbbChatEntry) (duration : timedelta)
  (cues : list SubtitlesEntry) :
  __split_group group duration = Ok cues ->
  map text cues = map __build_text group.
Proof.
  unfold __split_group. intros H.
  apply bind_Ok in H. destruct H as [part [_ H]].
  apply bind_Ok in H. destruct H as [first [Hfirst H]].
  apply bind_Ok in H. destruct H as [[out t] [Hloop H]].
  apply bind_Ok in H. destruct H as [current [Hcurrent H]].
  apply bind_Ok in H. destruct H as [stop [_ H]].
  injection H as <-.
  destruct (snoc_or_nil group) as [->|[front [final ->]]]; [discriminate Hfirst|].
  rewrite last_item_snoc in Hcurrent. injection Hcurrent as <-.
  rewrite length_app in Hloop. cbn [length] in Hloop.
  replace (length front + 1 - 1)%nat with (length front) in Hloop by lia.
  unfold range in Hloop.
  pose proof (split_group_loop_texts (front ++ [final]) part front [] [final] [] out
                (timestamp first) t eq_refl Hloop) as Hout.
  rewrite !map_app, Hout. reflexivity.
Qed.

Lemma split_by_gaps_texts (D : timedelta) (groups : list (timedelta * list BbbChatEntry))
  (cues : list SubtitlesEntry) :
  split_by_gaps D groups = Ok cues ->
  map text cues = map __build_text (concat (map snd groups)).
Proof.
  revert cues. induction groups as [|[t g] rest IH]; intros cues H.
  - injection H as <-. reflexivity.
  - cbn [split_by_gaps] in H.
    apply bind_Ok in H. destruct H as [duration [_ H]].
    apply bind_Ok in H. destruct H as [first [Hfirst H]].
    apply bind_Ok in H. destruct H as [more [Hmore H]].
    injection H as <-.
    cbn [map snd concat]. rewrite !map_app.
    rewrite (split_group_texts g duration first Hfirst), (IH more Hmore).
    reflexivity.
Qed.

(** X4: whenever [to_subtitles] returns, whether the transcript is ordered or
    not, it returns exactly one cue per chat entry; the texts of the cues are
    the rendered texts of the entries, group after group in the order of the
    dictionary and in transcript order inside a group, so no message is lost,
    duplicated or altered. *)
Theorem to_subtitles_one_cue_per_entry
  (entries : list BbbChatEntry) (max_duration : timedelta) (cues : list SubtitlesEntry) :
  to_subtitles entries max_duration = Ok cues ->
  map text cues = map __build_text (concat (map snd (group_by_timestamp entries)))
  /\ length cues = length entries
  /\ Permutation (map text cues) (map __build_text entries).
Proof.
  intros H. rewrite to_subtitles_by_gaps in H.
  apply split_by_gaps_texts in H.
  pose proof (group_by_timestamp_permutation entries) as Hperm.
  split; [exact H|]. split.
  - rewrite <- (length_map text cues), H, length_map.
    apply Permutation_length. exact Hperm.
  - rewrite H. apply Permutation_map. exact Hperm.
Qed.

Lemma to_subtitles_one_cue_per_entry_witness :
  let entries := [chat "a" "x" 10; chat "b" "y" 20; chat "c" "z" 10] in
  let cues := [cue "a: x" 10000000 11500000; cue "c: z" 11500000 13000000;
               cue "b: y" 20000000 23000000] in
  to_subtitles entries (seconds 3) = Ok cues
  /\ map text cues = ["a: x"; "c: z"; "b: y"]%string
  /\ length cues = 3%nat
  /\ Permutation (map text cues) (map __build_text entries).
Proof.
  cbv zeta. split; [vm_compute; reflexivity|].
  apply (to_subtitles_one_cue_per_entry
           [chat "a" "x" 10; chat "b" "y" 20; chat "c" "z" 10] (seconds 3)).
  vm_compute. reflexivity.
Defined.

(** ** The compliance pass on a sequence that needs no fix *)

Lemma compliant_gaps_in_range (previous_end : timedelta) (cues : list SubtitlesEntry) :
  compliant previous_end cues -> gaps_in_range previous_end cues.
Proof.
  revert previous_end. induction cues as [|c cues IH]; intros p H; [exact I|].
  destruct H as [Hgap [_ H]]. split; [|apply IH; exact H].
  assert (MAX_VALID_MP4_DURATION = 2147483647) by reflexivity.
  unfold_range. lia.
Qed.

Lemma compliant_gap_filling (gape_placeholder : string) (previous_end : timedelta)
  (cues : list SubtitlesEntry) :
  compliant previous_end cues -> gap_filling gape_placeholder previous_end cues = cues.
Proof.
  revert previous_end. induction cues as [|c cues IH]; intros p H; [reflexivity|].
  destruct H as [Hgap [_ H]]. cbn [gap_filling].
  destruct (Z.ltb_spec MAX_VALID_MP4_DURATION (start_time c - p)) as [|_]; [lia|].
  cbn [app]. rewrite IH by exact H. reflexivity.
Qed.

Lemma compliant_split (previous_end : timedelta) (cues : list SubtitlesEntry) :
  compliant previous_end cues ->
  forall c, In c cues -> __split_entry c = Ok [c].
Proof.
  revert previous_end. induction cues as [|x cues IH]; intros p H c Hin; [contradiction|].
  destruct H as [_ [Hdur H]]. destruct Hin as [<-|Hin]; [|exact (IH _ H c Hin)].
  unfold __split_entry. rewrite sub_valid.
  - cbn [bind].
    destruct (Z.leb_spec (end_time x - start_time x) MAX_VALID_MP4_DURATION);
      [reflexivity | lia].
  - assert (MAX_VALID_MP4_DURATION = 2147483647) by reflexivity.
    unfold_range. lia.
Qed.

Lemma fill_gapes_not_single (entries : list SubtitlesEntry) (gape_placeholder : string) :
  length entries <> 1%nat ->
  gaps_in_range 0 entries ->
  __fill_gapes entries gape_placeholder
  = mkGenerator (gap_filling gape_placeholder 0 entries) None.
Proof.
  intros Hlen Hgaps.
  destruct entries as [|first rest]; [reflexivity|].
  destruct rest as [|second rest]; [contradiction Hlen; reflexivity|].
  unfold __fill_gapes.
  destruct (Nat.ltb_spec (length (first :: second :: rest)) 2) as [Hshort|_];
    [simpl in Hshort; lia|].
  cbn [length]. rewrite Nat.sub_succ, Nat.sub_0_r. unfold range.
  exact (fill_gapes_loop gape_placeholder
           (mkSubtitlesEntry gape_placeholder 0 0 :: first :: second :: rest)
           (first :: second :: rest) [] (mkSubtitlesEntry gape_placeholder 0 0)
           eq_refl Hgaps).
Qed.

(** X5: on a sequence that is not a single cue and in which, walking from
    offset zero, no gap and no cue is longer than the duration limit,
    [apply_mp4_fixes] inserts nothing and splits nothing: it returns the input
    sequence, with only the end of the last cue clamped when a recording
    duration is given. *)
Theorem apply_mp4_fixes_compliant
  (entries : list SubtitlesEntry) (recording_duration : option timedelta)
  (gape_placeholder : string) :
  length entries <> 1%nat ->
  compliant 0 entries ->
  apply_mp4_fixes entries recording_duration gape_placeholder
  = Ok (clamp_last entries recording_duration).
Proof.
  intros Hlen Hcompliant.
  unfold apply_mp4_fixes, fill_and_split.
  rewrite fill_gapes_not_single
    by (try exact Hlen; apply compliant_gaps_in_range; exact Hcompliant).
  rewrite compliant_gap_filling by exact Hcompliant. cbn [yielded raised].
  rewrite (for_each_yield entries _ (fun c => [c])).
  - cbn [bind app]. rewrite flat_map_singleton, map_id. reflexivity.
  - intros out c Hin.
    rewrite (compliant_split 0 entries Hcompliant c Hin). reflexivity.
Qed.

Lemma apply_mp4_fixes_compliant_witness :
  apply_mp4_fixes [cue "a: x" 10000000 13000000; cue "b: y" 20000000 23000000]
    (Some 21000000) default_placeholder
  = Ok [cue "a: x" 10000000 13000000; cue "b: y" 20000000 21000000].
Proof.
  apply (apply_mp4_fixes_compliant
           [cue "a: x" 10000000 13000000; cue "b: y" 20000000 23000000]
           (Some 21000000) default_placeholder).
  - simpl. discriminate.
  - simpl. repeat split; vm_compute; discriminate.
Defined.

Lemma clamp_last_None (cues : list SubtitlesEntry) : clamp_last cues None = cues.
Proof. destruct cues; reflexivity. Qed.

(** X6: when a recording duration [T] is given and [apply_mp4_fixes] returns a
    non-empty sequence, its last cue never ends after [T]; the sequence is the
    one returned without a recording duration, except for the end of the last
    cue, which is the smaller of its unclamped end and [T]. *)
Theorem apply_mp4_fixes_ends_by_duration
  (entries : list SubtitlesEntry) (gape_placeholder : string) (T : timedelta)
  (front : list SubtitlesEntry) (final : SubtitlesEntry) :
  apply_mp4_fixes entries (Some T) gape_placeholder = Ok (front ++ [final]) ->
  end_time final <= T
  /\ exists unclamped_end,
       apply_mp4_fixes entries None gape_placeholder
       = Ok (front ++ [mkSubtitlesEntry (text final) (start_time final) unclamped_end])
       /\ end_time final = Z.min unclamped_end T.
Proof.
  unfold apply_mp4_fixes. intros H.
  apply bind_Ok in H. destruct H as [pass [Hpass H]]. injection H as H.
  rewrite Hpass. cbn [bind]. rewrite clamp_last_None.
  destruct (snoc_or_nil pass) as [->|[front' [final' ->]]].
  - destruct front; discriminate H.
  - rewrite clamp_last_snoc in H. apply app_inj_tail in H. destruct H as [-> <-].
    cbn [end_time text start_time]. split; [lia|].
    exists (end_time final'). split; [|reflexivity].
    destruct final'. reflexivity.
Qed.

Lemma apply_mp4_fixes_ends_by_duration_witness :
  end_time (cue "b" 5000000 7000000) <= 7000000
  /\ exists unclamped_end,
       apply_mp4_fixes [cue "a" 0 3000000; cue "b" 5000000 8000000] None "_"
       = Ok ([cue "a" 0 3000000] ++ [mkSubtitlesEntry "b" 5000000 unclamped_end])
       /\ 7000000 = Z.min unclamped_end 7000000.
Proof.
  apply (apply_mp4_fixes_ends_by_duration
           [cue "a" 0 3000000; cue "b" 5000000 8000000] "_" 7000000
           [cue "a" 0 3000000] (cue "b" 5000000 7000000)).
  vm_compute. reflexivity.
Defined.

(** ** The durations of the parts of a split cue *)

(** X7: when a cue (start, end and duration in the range of [timedelta]) is
    longer than the duration limit, every sub-cue that [__split_entry] emits
    has a positive duration; all sub-cues but the last have the same duration
    [duration / parts], which is at most the limit; the last sub-cue takes the
    rounding remainder and, for a duration below [2^23] limits, exceeds the
    limit by at most half a microsecond per part. *)
Theorem split_entry_part_durations (entry : SubtitlesEntry) :
  let duration := end_time entry - start_time entry in
  let parts := ceil (int_true_divide duration MAX_VALID_MP4_DURATION) in
  let duration_per_one := divide_nearest duration parts in
  valid (start_time entry) -> valid (end_time entry) -> valid duration ->
  MAX_VALID_MP4_DURATION < duration ->
  exists front final,
    __split_entry entry = Ok (front ++ [final])
    /\ Forall (fun c => end_time c - start_time c = duration_per_one) front
    /\ 0 < duration_per_one <= MAX_VALID_MP4_DURATION
    /\ 0 < end_time final - start_time final
    /\ (duration < 2 ^ 23 * MAX_VALID_MP4_DURATION ->
        2 * (end_time final - start_time final - MAX_VALID_MP4_DURATION) <= parts - 1).
Proof.
  intros duration parts dpo Hstart Hstop Hduration Hlong.
  pose proof (split_entry_closed_form entry Hstart Hstop Hduration Hlong) as Hclosed.
  destruct (split_parts duration Hlong (proj2 Hduration))
    as [Hparts [Hdpo [Hfit Hexact]]].
  cbv zeta in Hclosed. fold duration in Hclosed.
  fold parts in Hclosed, Hparts, Hdpo, Hfit, Hexact. fold dpo in Hclosed, Hdpo.
  assert (Hb : MAX_VALID_MP4_DURATION = 2147483647) by reflexivity.
  assert (Hpos : 0 < dpo).
  { assert (1 <= dpo); [|lia]. apply divide_nearest_ge; nia. }
  eexists _, _. split; [exact Hclosed|].
  split.
  { apply Forall_map. apply Forall_forall. intros i _.
    cbn [sub_cue end_time start_time]. lia. }
  split; [lia|].
  cbn [end_time start_time]. fold duration.
  split; [nia|].
  intros Hsmall. specialize (Hexact Hsmall).
  symmetry in Hexact. apply ceil_div_spec in Hexact; [|lia].
  pose proof (divide_nearest_bounds duration parts ltac:(lia)) as Hround.
  fold dpo in Hround. nia.
Qed.

Lemma split_entry_part_durations_witness :
  exists front final,
    __split_entry (cue "_" 0 (5 * MAX_VALID_MP4_DURATION - 3)) = Ok (front ++ [final])
    /\ Forall (fun c => end_time c - start_time c = MAX_VALID_MP4_DURATION - 1) front
    /\ 0 < MAX_VALID_MP4_DURATION - 1 <= MAX_VALID_MP4_DURATION
    /\ 0 < end_time final - start_time final
    /\ (5 * MAX_VALID_MP4_DURATION - 3 < 2 ^ 23 * MAX_VALID_MP4_DURATION ->
        2 * (end_time final - start_time final - MAX_VALID_MP4_DURATION) <= 5 - 1).
Proof.
  apply (split_entry_part_durations (cue "_" 0 (5 * MAX_VALID_MP4_DURATION - 3)));
    first [ split; vm_compute; discriminate | vm_compute; reflexivity ].
Defined.

(** ** The ffmpeg command *)

Example build_video_all_inputs :
  build_video "out.mp4" "webcams.mp4" (Some "deskshare.mp4"%string)
    (Some "subtitles.srt"%string)
  = ["ffmpeg"; "-y"; "-i"; "webcams.mp4"; "-i"; "deskshare.mp4"; "-i"; "subtitles.srt";
     "-map"; "0:a:0"; "-map"; "1:v:0"; "-c:s"; "mov_text"; "-map"; "2:s:0";
     "out.mp4"]%string.
Proof. reflexivity. Qed.

(** X8: the command of [build_video] is [ffmpeg -y], one [-i] per input file
    (the webcam recording, then the screen recording and the subtitle file when
    they are given), the stream maps and the output file name.  The audio is
    always taken from input 0, the webcam recording; the video stream index
    names the screen recording when there is one and the webcam recording
    otherwise; a subtitle stream is mapped, as [mov_text], exactly when a
    subtitle file is given, and its index names that file, also when there is
    no screen recording before it. *)
Theorem build_video_streams (output_filename webcam_path : string)
  (deskshare_path subtitles_path : option string) :
  let inputs := input_files webcam_path deskshare_path subtitles_path in
  exists (video : nat) (subtitle_options : list string),
    build_video output_filename webcam_path deskshare_path subtitles_path
    = ["ffmpeg"; "-y"]%string
      ++ flat_map (fun file => ["-i"; file]%string) inputs
      ++ ["-map"; "0:a:0"; "-map"; str_of_nat video ++ ":v:0"]%string
      ++ subtitle_options ++ [output_filename]
    /\ nth_error inputs 0 = Some webcam_path
    /\ nth_error inputs video
       = Some (match deskshare_path with Some file => file | None => webcam_path end)
    /\ match subtitles_path with
       | None => subtitle_options = []
       | Some file =>
           exists index_ : nat,
             subtitle_options
             = ["-c:s"; "mov_text"; "-map"; str_of_nat index_ ++ ":s:0"]%string
             /\ nth_error inputs index_ = Some file
       end.
Proof.
  unfold build_video, input_files.
  destruct deskshare_path as [deskshare|]; destruct subtitles_path as [subtitles|];
    cbn [option_list app flat_map Nat.add].
  - exists 1%nat, ["-c:s"; "mov_text"; "-map"; str_of_nat 2 ++ ":s:0"]%string.
    repeat split. exists 2%nat. split; reflexivity.
  - exists 1%nat, []. repeat split.
  - exists 0%nat, ["-c:s"; "mov_text"; "-map"; str_of_nat 1 ++ ":s:0"]%string.
    repeat split. exists 1%nat. split; reflexivity.
  - exists 0%nat, []. repeat split.
Qed.

(** ** A transcript that is not ordered *)

Lemma group_by_timestamp_first_alone (e : BbbChatEntry) (rest : list BbbChatEntry) :
  Forall (fun x => timestamp x <> timestamp e) rest ->
  forall (next : timedelta) (group : list BbbChatEntry)
         (more : list (timedelta * list BbbChatEntry)),
    exists group' more',
      fold_left (fun groups entry => group_append entry groups) rest
        ((timestamp e, [e]) :: (next, group) :: more)
      = (timestamp e, [e]) :: (next, group') :: more'.
Proof.
  induction 1 as [|x rest Hx _ IH]; intros next group more; cbn [fold_left].
  - eauto.
  - cbn [group_append].
    destruct (Z.eqb_spec (timestamp e) (timestamp x)) as [E|_]; [congruence|].
    destruct (next =? timestamp x); apply IH.
Qed.

Lemma split_group_single (e : BbbChatEntry) (duration : timedelta)
  (cues : list SubtitlesEntry) :
  __split_group [e] duration = Ok cues ->
  cues = [mkSubtitlesEntry (__build_text e) (timestamp e) (timestamp e + duration)].
Proof.
  unfold __split_group. intros H.
  apply bind_Ok in H. destruct H as [part [_ H]].
  cbn [index nth_error bind length Nat.sub range seq for_each last_item] in H.
  apply bind_Ok in H. destruct H as [stop [Hstop H]].
  apply of_microseconds_Ok in Hstop. destruct Hstop as [-> _].
  injection H as <-. reflexivity.
Qed.

(** X9: [to_subtitles] does not sort.  When the second entry of a transcript
    carries an earlier timestamp than the first one (and no later entry shares
    the timestamp of the first), the first cue of the result, for a maximum
    duration that is not negative, starts at the first timestamp and ends at
    the second, earlier one: it ends before it starts. *)
Theorem to_subtitles_keeps_disorder (e e' : BbbChatEntry) (rest : list BbbChatEntry)
  (max_duration : timedelta) (cues : list SubtitlesEntry) :
  timestamp e' < timestamp e ->
  0 <= max_duration ->
  Forall (fun x => timestamp x <> timestamp e) rest ->
  to_subtitles (e :: e' :: rest) max_duration = Ok cues ->
  exists others,
    cues = mkSubtitlesEntry (__build_text e) (timestamp e) (timestamp e') :: others.
Proof.
  intros Hlt HD Hrest H. rewrite to_subtitles_by_gaps in H.
  unfold group_by_timestamp in H. cbn [fold_left group_append] in H.
  destruct (Z.eqb_spec (timestamp e) (timestamp e')) as [E|_]; [lia|].
  destruct (group_by_timestamp_first_alone e rest Hrest (timestamp e') [e'] [])
    as [group' [more' Hgroups]].
  rewrite Hgroups in H. cbn [split_by_gaps] in H.
  apply bind_Ok in H. destruct H as [duration [Hduration H]].
  apply bind_Ok in Hduration. destruct Hduration as [gap [Hgap Hduration]].
  apply of_microseconds_Ok in Hgap. destruct Hgap as [-> _].
  injection Hduration as <-. rewrite min_is_Zmin in H.
  apply bind_Ok in H. destruct H as [first [Hfirst H]].
  apply split_group_single in Hfirst. subst first.
  apply bind_Ok in H. destruct H as [more [_ H]].
  injection H as <-.
  exists more. cbn [app]. do 2 f_equal. lia.
Qed.

Lemma to_subtitles_keeps_disorder_witness :
  exists others,
    [cue "a: x" (seconds 10) (seconds 5); cue "b: y" (seconds 5) (seconds 8)]
    = mkSubtitlesEntry (__build_text (chat "a" "x" 10)) (timestamp (chat "a" "x" 10))
        (timestamp (chat "b" "y" 5)) :: others.
Proof.
  apply (to_subtitles_keeps_disorder (chat "a" "x" 10) (chat "b" "y" 5) [] (seconds 3)).
  - reflexivity.
  - vm_compute. discriminate.
  - constructor.
  - reflexivity.
Defined.

(** ** The SubRip time stamps *)

Lemma binary64_exponent_below (x y : Z) :
  0 < y -> 0 < x -> x < 2 ^ 52 * y ->
  let e := binary64_exponent x y in
  e < 0 /\ 2 ^ 52 * y <= x * 2 ^ (- e) < 2 ^ 53 * y.
Proof.
  intros Hy Hx0 Hx. unfold binary64_exponent.
  pose proof (Z.log2_spec x Hx0) as Lx.
  pose proof (Z.log2_spec y Hy) as Ly.
  pose proof (Z.log2_nonneg x) as Nx.
  pose proof (Z.log2_nonneg y) as Ny.
  set (lx := Z.log2 x) in *. set (ly := Z.log2 y) in *.
  rewrite !Z.pow_succ_r in * by lia.
  assert (Hlx : lx < ly + 53).
  { apply (Z.pow_lt_mono_r_iff 2); [lia | lia |].
    rewrite Z.pow_add_r by lia. nia. }
  assert (Hpow : 2 ^ lx * 2 ^ (ly + 52 - lx) = 2 ^ ly * 2 ^ 52).
  { rewrite <- !Z.pow_add_r by lia. f_equal. lia. }
  assert (Hpos : 0 < 2 ^ (ly + 52 - lx)) by (apply Z.pow_pos_nonneg; lia).
  assert (H52 : 0 < 2 ^ 52) by reflexivity.
  replace (2 ^ 53) with (2 * 2 ^ 52) by reflexivity.
  set (e1 := lx - ly - 52).
  replace (ly + 52 - lx) with (- e1) in * by (unfold e1; lia).
  assert (He1 : e1 <= 0) by (unfold e1; lia).
  rewrite (Z.max_r e1 0) by lia. rewrite (Z.max_l (- e1) 0) by lia.
  rewrite Z.pow_0_r, Z.mul_1_r.
  destruct (Z.leb_spec (2 ^ 52 * y) (x * 2 ^ (- e1))) as [Hge|Hlt]; cbv zeta.
  - assert (e1 <> 0).
    { intros E. replace (- e1) with 0 in Hge by lia.
      rewrite Z.pow_0_r in Hge. lia. }
    split; [lia|]. split; [exact Hge|].
    generalize dependent (2 ^ (- e1)). generalize dependent (2 ^ lx).
    generalize dependent (2 ^ ly). generalize dependent (2 ^ 52). intros. nia.
  - split; [lia|].
    replace (- (e1 - 1)) with (Z.succ (- e1)) by lia.
    rewrite Z.pow_succ_r by lia.
    generalize dependent (2 ^ (- e1)). generalize dependent (2 ^ lx).
    generalize dependent (2 ^ ly). generalize dependent (2 ^ 52). intros. nia.
Qed.

Lemma int_true_divide_below (a b : Z) :
  0 < b -> 0 < a -> a < 2 ^ 52 * b ->
  exists s,
    0 < s
    /\ int_true_divide a b = Dyadic (divide_nearest (a * 2 ^ s) b) (- s)
    /\ 2 ^ 52 * b <= a * 2 ^ s < 2 ^ 53 * b.
Proof.
  intros Hb Ha Hlt.
  destruct (binary64_exponent_below a b Hb Ha Hlt) as [He Hnorm].
  exists (- binary64_exponent a b).
  split; [lia|]. split; [|exact Hnorm].
  unfold int_true_divide.
  destruct (Z.eqb_spec a 0) as [|_]; [lia|].
  rewrite (Z.abs_eq a), (Z.abs_eq b) by lia.
  rewrite (Z.sgn_pos a), (Z.sgn_pos b) by lia.
  rewrite Z.max_l, Z.max_r by lia.
  rewrite Z.pow_0_r, !Z.mul_1_r, Z.mul_1_l, Z.opp_involutive. reflexivity.
Qed.

(** The value of a quotient below [2^52], as a fraction over a power of two. *)
Lemma Q_of_quotient (a b : Z) :
  0 < b -> 0 < a -> a < 2 ^ 52 * b ->
  exists (m : Z) (S : positive),
    Q_of_float (int_true_divide a b) = Qmake m S
    /\ m = divide_nearest (a * Zpos S) b
    /\ 2 ^ 52 * b <= a * Zpos S.
Proof.
  intros Hb Ha Hlt.
  destruct (int_true_divide_below a b Hb Ha Hlt) as [s [Hs [E [Hlo _]]]].
  assert (Hpow : 0 < 2 ^ s) by (apply Z.pow_pos_nonneg; lia).
  exists (divide_nearest (a * 2 ^ s) b), (Z.to_pos (2 ^ s)).
  rewrite E. unfold Q_of_float. cbn [expo mant].
  destruct (Z.leb_spec 0 (- s)) as [|_]; [lia|].
  rewrite Z.opp_involutive, Z2Pos.id by exact Hpow. auto.
Qed.

Lemma round64_integer (q : Q) (z : Z) :
  0 <= z < 2 ^ 52 -> (q == inject_Z z)%Q -> (round64 q == inject_Z z)%Q.
Proof.
  intros Hz E. destruct q as [a p]. unfold round64. cbn [Qnum Qden].
  unfold Qeq in E. cbn [Qnum Qden inject_Z] in E. rewrite Z.mul_1_r in E.
  destruct (Z.eq_dec z 0) as [->|Hz0].
  - subst a. reflexivity.
  - destruct (Q_of_quotient a (Zpos p)) as [m [S [-> [Hm _]]]]; [lia | nia | nia |].
    subst a. replace (z * Zpos p * Zpos S) with (z * Zpos S * Zpos p) in Hm by ring.
    rewrite divide_nearest_exact in Hm by lia. subst m.
    unfold Qeq. cbn [Qnum Qden inject_Z]. ring.
Qed.

Lemma Qfloor_eq (x : Q) (z : Z) :
  (inject_Z z <= x)%Q -> (x < inject_Z (z + 1))%Q -> Qfloor x = z.
Proof.
  intros Hlo Hhi.
  pose proof (Qfloor_le x) as Fl. pose proof (Qlt_floor x) as Fh.
  assert (H1 : (inject_Z (Qfloor x) < inject_Z (z + 1))%Q) by (eapply Qle_lt_trans; eassumption).
  assert (H2 : (inject_Z z < inject_Z (Qfloor x + 1))%Q) by (eapply Qle_lt_trans; eassumption).
  rewrite <- Zlt_Qlt in H1, H2. lia.
Qed.

Lemma trunc_eq (x : Q) (z : Z) :
  0 <= z -> (inject_Z z <= x)%Q -> (x < inject_Z (z + 1))%Q -> trunc x = z.
Proof.
  intros Hz Hlo Hhi. unfold trunc.
  assert (H0 : (0 <= x)%Q).
  { eapply Qle_trans; [|exact Hlo]. rewrite (Zle_Qle 0 z) in Hz. exact Hz. }
  apply Qle_bool_iff in H0. rewrite H0. apply Qfloor_eq; assumption.
Qed.

Lemma trunc_integer (x : Q) (z : Z) : 0 <= z -> (x == inject_Z z)%Q -> trunc x = z.
Proof.
  intros Hz E. apply trunc_eq; [exact Hz | rewrite E; apply Qle_refl |].
  rewrite E. rewrite <- Zlt_Qlt. lia.
Qed.
Lemma Qlt_bool_ge (x y : Q) : (y <= x)%Q -> Qlt_bool x y = false.
Proof.
  intros H. unfold Qlt_bool. apply Qle_bool_iff in H. rewrite H. reflexivity.
Qed.

(** [divmod] of a value between the integers [n] and [n + 1] by a positive
    integer [W]: the quotient is the integer quotient [n / W], and the
    remainder is exact. *)
Lemma float_divmod_spec (vx : Q) (W n : Z) :
  0 < W -> 0 <= n < 2 ^ 52 ->
  (inject_Z n <= vx)%Q -> (vx < inject_Z (n + 1))%Q ->
  (fst (float_divmod vx (inject_Z W)) == inject_Z (n / W))%Q
  /\ (snd (float_divmod vx (inject_Z W)) == vx - inject_Z (W * (n / W)))%Q.
Proof.
  intros HW Hn Hlo Hhi.
  pose proof (Z.div_mod n W ltac:(lia)) as Hdm.
  pose proof (Z.mod_pos_bound n W HW) as Hr.
  assert (Hh : 0 <= n / W) by (apply Z.div_pos; lia).
  set (h := n / W) in *.
  assert (HWq : (0 < inject_Z W)%Q) by (change (inject_Z 0 < inject_Z W)%Q; rewrite <- Zlt_Qlt; exact HW).
  assert (Hfloor : (inject_Z (W * h) <= vx)%Q).
  { eapply Qle_trans; [|exact Hlo]. rewrite <- Zle_Qle. lia. }
  assert (Hceil : (vx < inject_Z (W * (h + 1)))%Q).
  { eapply Qlt_le_trans; [exact Hhi|]. rewrite <- Zle_Qle. lia. }
  assert (Ht : trunc (vx / inject_Z W) = h).
  { apply trunc_eq; [exact Hh | |].
    - apply Qle_shift_div_l; [exact HWq|].
      rewrite <- inject_Z_mult, Z.mul_comm. exact Hfloor.
    - apply Qlt_shift_div_r; [exact HWq|].
      rewrite <- inject_Z_mult, Z.mul_comm. exact Hceil. }
  unfold float_divmod, fmod. rewrite Ht.
  set (md := (vx - inject_Z W * inject_Z h)%Q).
  assert (Emd : (md == vx - inject_Z (W * h))%Q).
  { unfold md. rewrite inject_Z_mult. reflexivity. }
  assert (Hmd : (0 <= md)%Q).
  { rewrite Emd. lra. }
  assert (E1 : (round64 (vx - md) == inject_Z (W * h))%Q).
  { apply round64_integer; [nia|]. rewrite Emd. ring. }
  assert (E2 : (round64 (round64 (vx - md) / inject_Z W) == inject_Z h)%Q).
  { apply round64_integer; [nia|]. rewrite E1, inject_Z_mult.
    field. intros E. rewrite E in HWq. discriminate. }
  set (div := round64 (round64 (vx - md) / inject_Z W)) in *.
  rewrite (Qlt_bool_ge (inject_Z W) 0) by (apply Qlt_le_weak; exact HWq).
  rewrite (Qlt_bool_ge md 0) by exact Hmd.
  cbn [Bool.eqb negb]. rewrite andb_false_r. cbn [fst snd].
  split; [|exact Emd].
  destruct (Qeq_bool div 0) eqn:Ez.
  - apply Qeq_bool_eq in Ez. rewrite <- E2. symmetry. exact Ez.
  - rewrite (Qfloor_comp _ _ E2), Qfloor_Z.
    assert (E3 : (round64 (div - inject_Z h) == inject_Z 0)%Q).
    { apply round64_integer; [lia|]. rewrite E2. ring. }
    rewrite Qlt_bool_ge; [reflexivity|]. rewrite E3. discriminate.
Qed.
(** [total_seconds] of a duration below [2^32] seconds, as a fraction [m / S]:
    it lies between the whole seconds [n] and [n + 1], and its thousandths
    round as those of the exact value do, unless the exact value is a tie. *)
Lemma total_seconds_spec (U : Z) :
  0 <= U < 2 ^ 32 * 1000000 ->
  exists (m : Z) (S : positive),
    total_seconds U = Qmake m S
    /\ U / 1000000 * Zpos S <= m < (U / 1000000 + 1) * Zpos S
    /\ (U mod 1000 <> 500 ->
        let N := (U mod 1000000 + 500) / 1000 in
        (2 * N - 1) * Zpos S < 2000 * (m - U / 1000000 * Zpos S) < (2 * N + 1) * Zpos S).
Proof.
  intros HU. destruct (Z.eq_dec U 0) as [->|HU0].
  - exists 0, 1%positive. split; [reflexivity|]. split; [vm_compute; split; [discriminate | reflexivity]|].
    intros _. vm_compute. split; reflexivity.
  - destruct (Q_of_quotient U 1000000) as [m [S [E [Hm HS]]]]; [lia | lia | lia |].
    exists m, S. split; [exact E|].
    pose proof (divide_nearest_bounds (U * Zpos S) 1000000 ltac:(lia)) as HB.
    rewrite <- Hm in HB. clear Hm E.
    assert (HS' : 2 ^ 20 < Zpos S) by nia.
    change (2 ^ 20) with 1048576 in HS'. clear HS.
    rewrite <- (Z.mod_mod_divide U 1000000 1000) by (exists 1000; reflexivity).
    pose proof (Z.div_mod U 1000000 ltac:(lia)) as Hdm.
    pose proof (Z.mod_pos_bound U 1000000 ltac:(lia)) as Hf.
    set (n := U / 1000000) in *. set (f := U mod 1000000) in *.
    assert (Hn : 0 <= n) by (apply Z.div_pos; lia).
    clearbody n f. subst U. split.
    + split; nia.
    + intros Htie. cbv zeta.
      pose proof (Z.div_mod (f + 500) 1000 ltac:(lia)) as Hdm'.
      pose proof (Z.mod_pos_bound (f + 500) 1000 ltac:(lia)) as Hr.
      assert (Hne : (f + 500) mod 1000 <> 0).
      { intros E0. apply Htie. clear - E0 Hf. Z.div_mod_to_equations. lia. }
      set (N := (f + 500) / 1000) in *. set (r := (f + 500) mod 1000) in *.
      split; nia.
Qed.

Lemma divide_nearest_between (q : Q) (N : Z) :
  (inject_Z (2 * N - 1) < 2 * q)%Q -> (2 * q < inject_Z (2 * N + 1))%Q ->
  divide_nearest (Qnum q) (Zpos (Qden q)) = N.
Proof.
  destruct q as [a p]. unfold Qlt. cbn [Qnum Qden inject_Z Qmult].
  intros Hlo Hhi. apply Z.le_antisymm.
  - apply divide_nearest_le; lia.
  - apply divide_nearest_ge; lia.
Qed.

(** The three decimals of a fraction whose thousandths round to [N]; a
    fraction that rounds to one shows [000]. *)
Lemma format_3f_fraction (x : Q) (N : Z) :
  0 <= N <= 1000 -> (0 <= x)%Q ->
  (inject_Z (2 * N - 1) < 2000 * x)%Q -> (2000 * x < inject_Z (2 * N + 1))%Q ->
  drop 2 (format_3f x) = zero_pad 3 (digits (N mod 1000)).
Proof.
  intros HN Hx Hlo Hhi. unfold format_3f.
  rewrite (Qlt_bool_ge x 0) by exact Hx.
  rewrite (divide_nearest_between (Qabs x * 1000) N).
  - destruct (Z.eq_dec N 1000) as [->|Hne]; [reflexivity|].
    rewrite (Z.div_small N 1000) by lia. reflexivity.
  - rewrite (Qabs_pos x Hx). lra.
  - rewrite (Qabs_pos x Hx). lra.
Qed.
(** The time stamp of a duration below [2^32] seconds whose microseconds are
    not a tie between two milliseconds: the fields of the whole seconds, and
    the fraction rounded to the nearest millisecond, of which only the last
    three digits are kept. *)
Lemma to_srt_format_closed_form (U : Z) :
  0 <= U < 2 ^ 32 * 1000000 -> U mod 1000 <> 500 ->
  __to_srt_format U
  = srt_time (U / 1000000) ((U mod 1000000 + 500) / 1000 mod 1000).
Proof.
  intros HU Htie.
  destruct (total_seconds_spec U HU) as [m [S [E [Hm Hfrac]]]].
  specialize (Hfrac Htie). cbv zeta in Hfrac.
  pose proof (Z.mod_pos_bound U 1000000 ltac:(lia)) as Hf.
  assert (HN : 0 <= (U mod 1000000 + 500) / 1000 <= 1000).
  { clear - Hf. Z.div_mod_to_equations. lia. }
  assert (Hn : 0 <= U / 1000000 < 2 ^ 32).
  { clear - HU. change (2 ^ 32) with 4294967296 in *. Z.div_mod_to_equations. lia. }
  set (N := (U mod 1000000 + 500) / 1000) in *.
  set (n := U / 1000000) in *.
  clearbody N n. clear Hf HU Htie.
  unfold __to_srt_format, srt_time. rewrite E. clear E.
  set (x := Qmake m S).
  assert (Hlo : (inject_Z n <= x)%Q).
  { unfold x, Qle. cbn [inject_Z Qnum Qden]. lia. }
  assert (Hhi : (x < inject_Z (n + 1))%Q).
  { unfold x, Qlt. cbn [inject_Z Qnum Qden]. lia. }
  assert (Hfl : (inject_Z (2 * N - 1) < 2000 * (x - inject_Z n))%Q).
  { unfold x, Qlt, Qminus, Qplus, Qopp, Qmult. cbn [inject_Z Qnum Qden].
    rewrite ?Pos.mul_1_l, ?Pos.mul_1_r. lia. }
  assert (Hfh : (2000 * (x - inject_Z n) < inject_Z (2 * N + 1))%Q).
  { unfold x, Qlt, Qminus, Qplus, Qopp, Qmult. cbn [inject_Z Qnum Qden].
    rewrite ?Pos.mul_1_l, ?Pos.mul_1_r. lia. }
  clearbody x. clear Hm Hfrac m S.
  change 3600%Q with (inject_Z 3600). change 60%Q with (inject_Z 60).
  (* hours *)
  destruct (float_divmod_spec x 3600 n ltac:(lia) ltac:(change (2 ^ 32) with 4294967296 in Hn; change (2 ^ 52) with 4503599627370496; lia) Hlo Hhi)
    as [Ehours Er1].
  destruct (float_divmod x (inject_Z 3600)) as [hours remainder1].
  cbn [fst snd] in Ehours, Er1.
  pose proof (Z.div_mod n 3600 ltac:(lia)) as Hdm1.
  pose proof (Z.mod_pos_bound n 3600 ltac:(lia)) as Hb1.
  assert (Hh : 0 <= n / 3600) by (apply Z.div_pos; lia).
  assert (Hq1 : (inject_Z n == inject_Z (3600 * (n / 3600)) + inject_Z (n mod 3600))%Q).
  { rewrite <- inject_Z_plus. rewrite <- Hdm1. reflexivity. }
  assert (Hhi' : (x < inject_Z n + 1)%Q).
  { rewrite inject_Z_plus in Hhi. exact Hhi. }
  (* minutes *)
  destruct (float_divmod_spec remainder1 60 (n mod 3600) ltac:(lia)
              ltac:(change (2 ^ 52) with 4503599627370496; lia))
    as [Eminutes Er2].
  { rewrite Er1. lra. }
  { rewrite Er1, inject_Z_plus. change (inject_Z 1) with 1%Q. lra. }
  destruct (float_divmod remainder1 (inject_Z 60)) as [minutes remainder2].
  cbn [fst snd] in Eminutes, Er2.
  pose proof (Z.div_mod (n mod 3600) 60 ltac:(lia)) as Hdm2.
  pose proof (Z.mod_pos_bound (n mod 3600) 60 ltac:(lia)) as Hb2.
  assert (Hmi : 0 <= n mod 3600 / 60) by (apply Z.div_pos; lia).
  assert (Hq2 : (inject_Z (n mod 3600)
                 == inject_Z (60 * (n mod 3600 / 60)) + inject_Z (n mod 3600 mod 60))%Q).
  { rewrite <- inject_Z_plus. rewrite <- Hdm2. reflexivity. }
  (* seconds and milliseconds *)
  unfold modf.
  assert (Hs : trunc remainder2 = n mod 3600 mod 60).
  { apply trunc_eq; [lia | |].
    - rewrite Er2, Er1. lra.
    - rewrite Er2, Er1, inject_Z_plus. change (inject_Z 1) with 1%Q. lra. }
  rewrite Hs.
  rewrite (trunc_integer hours (n / 3600) Hh Ehours).
  rewrite (trunc_integer minutes (n mod 3600 / 60) Hmi Eminutes).
  rewrite (trunc_integer (inject_Z (n mod 3600 mod 60)) (n mod 3600 mod 60))
    by (lia || reflexivity).
  assert (Efrac : (remainder2 - inject_Z (n mod 3600 mod 60) == x - inject_Z n)%Q).
  { rewrite Er2, Er1. lra. }
  rewrite (format_3f_fraction (remainder2 - inject_Z (n mod 3600 mod 60)) N HN).
  - replace (n mod 3600 / 60) with (n / 60 mod 60) by (clear; Z.div_mod_to_equations; lia).
    replace (n mod 3600 mod 60) with (n mod 60) by (clear; Z.div_mod_to_equations; lia).
    reflexivity.
  - rewrite Efrac. lra.
  - rewrite Efrac. exact Hfl.
  - rewrite Efrac. exact Hfh.
Qed.

Example to_srt_format_examples :
  map __to_srt_format [0; 3661001000; 86399999000; 360000000000; 1500; 1999600; -1]
  = ["00:00:00,000"; "01:01:01,001"; "23:59:59,999"; "100:00:00,000"; "00:00:00,002";
     "00:00:01,000"; "-1:59:59,000"]%string.
Proof. vm_compute. reflexivity. Qed.

Example srt_time_examples :
  map (fun '(seconds, milliseconds) => srt_time seconds milliseconds)
    [(0, 0); (3661, 1); (86399, 999); (360000, 20)]
  = ["00:00:00,000"; "01:01:01,001"; "23:59:59,999"; "100:00:00,020"]%string.
Proof. vm_compute. reflexivity. Qed.

Example to_srt_scenario_1 :
  to_srt [cue "alice: hi" 10000000 11000000; cue "bob: hello" 11000000 13000000]
  = ("1" ++ newline ++ "00:00:10,000 --> 00:00:11,000" ++ newline ++ "alice: hi"
     ++ newline ++ newline
     ++ "2" ++ newline ++ "00:00:11,000 --> 00:00:13,000" ++ newline ++ "bob: hello")%string.
Proof. vm_compute. reflexivity. Qed.

(** X10: for a time between zero and [2^32] seconds (136 years) whose
    microseconds are not exactly half way between two milliseconds and whose
    fraction of a second is below 0.9995, [__to_srt_format] prints the time
    rounded to the nearest millisecond as [HH:MM:SS,mmm]: the float arithmetic
    of [divmod] and [modf] loses nothing.  In particular a whole number of
    milliseconds is printed exactly. *)
Theorem to_srt_format_nearest_millisecond (delta : timedelta) :
  0 <= delta < 2 ^ 32 * 1000000 ->
  delta mod 1000 <> 500 ->
  delta mod 1000000 < 999500 ->
  let nearest := (delta + 500) / 1000 in
  __to_srt_format delta = srt_time (nearest / 1000) (nearest mod 1000).
Proof.
  intros Hrange Htie Hfraction nearest.
  rewrite (to_srt_format_closed_form delta Hrange Htie).
  assert (Hseconds : delta / 1000000 = nearest / 1000).
  { unfold nearest. clear - Hfraction. Z.div_mod_to_equations. lia. }
  assert (Hmillis : (delta mod 1000000 + 500) / 1000 mod 1000 = nearest mod 1000).
  { unfold nearest. clear - Hfraction. Z.div_mod_to_equations. lia. }
  rewrite Hseconds, Hmillis. reflexivity.
Qed.

Lemma to_srt_format_nearest_millisecond_witness :
  __to_srt_format 3661001499 = srt_time 3661 1.
Proof.
  apply (to_srt_format_nearest_millisecond 3661001499).
  - vm_compute. split; [discriminate | reflexivity].
  - vm_compute. discriminate.
  - reflexivity.
Defined.

(** X11: [__to_srt_format] never carries the milliseconds into the seconds.
    A time (between zero and [2^32] seconds) whose fraction of a second is
    above 0.9995 has the next whole second as its nearest millisecond, but is
    printed with the seconds of the second it lies in and [000] milliseconds:
    almost one second too early. *)
Theorem to_srt_format_no_carry (delta : timedelta) :
  0 <= delta < 2 ^ 32 * 1000000 ->
  999500 < delta mod 1000000 ->
  __to_srt_format delta = srt_time (delta / 1000000) 0
  /\ (delta + 500) / 1000 = (delta / 1000000 + 1) * 1000.
Proof.
  intros Hrange Hfraction.
  pose proof (Z.mod_pos_bound delta 1000000 ltac:(lia)) as Hbound.
  assert (Htie : delta mod 1000 <> 500).
  { rewrite <- (Z.mod_mod_divide delta 1000000 1000) by (exists 1000; reflexivity).
    clear - Hfraction Hbound. Z.div_mod_to_equations. lia. }
  split.
  - rewrite (to_srt_format_closed_form delta Hrange Htie).
    replace ((delta mod 1000000 + 500) / 1000) with 1000
      by (clear - Hfraction Hbound; Z.div_mod_to_equations; lia).
    reflexivity.
  - clear - Hfraction Hbound. Z.div_mod_to_equations. lia.
Qed.

Lemma to_srt_format_no_carry_witness :
  __to_srt_format 1999600 = srt_time (1999600 / 1000000) 0
  /\ (1999600 + 500) / 1000 = (1999600 / 1000000 + 1) * 1000.
Proof.
  apply (to_srt_format_no_carry 1999600).
  - vm_compute. split; [discriminate | reflexivity].
  - reflexivity.
Defined.

(** ** The numbered blocks of the SubRip text *)

Lemma enumerate_snoc {A : Type} (l : list A) (x : A) (start : nat) :
  enumerate (l ++ [x]) start = enumerate l start ++ [((start + length l)%nat, x)].
Proof.
  revert start. induction l as [|y l IH]; intros start; cbn [app enumerate length].
  - rewrite Nat.add_0_r. reflexivity.
  - rewrite IH. replace (S start + length l)%nat with (start + S (length l))%nat by lia.
    reflexivity.
Qed.

Lemma string_append_assoc (a b c : string) : ((a ++ b) ++ c = a ++ (b ++ c))%string.
Proof. induction a as [|ch a IH]; cbn [String.append]; [reflexivity | rewrite IH; reflexivity]. Qed.

Lemma concat_snoc (sep : string) (l : list string) (x y : string) :
  String.concat sep ((x :: l) ++ [y]) = (String.concat sep (x :: l) ++ sep ++ y)%string.
Proof.
  revert x. induction l as [|z l IH]; intros x.
  - reflexivity.
  - change (String.concat sep ((x :: z :: l) ++ [y]))
      with (x ++ sep ++ String.concat sep ((z :: l) ++ [y]))%string.
    rewrite IH.
    change (String.concat sep (x :: z :: l))
      with (x ++ sep ++ String.concat sep (z :: l))%string.
    rewrite !string_append_assoc. reflexivity.
Qed.

(** X12: [to_srt] numbers the cues from 1 in their order, and a further cue
    only adds a block: the text of a sequence with one more cue is the text of
    the sequence, a blank line, and the block of the new cue (its number, the
    count of the cues, then [start --> end] and its text on the next two
    lines). *)
Theorem to_srt_append (first : SubtitlesEntry) (entries : list SubtitlesEntry)
  (entry : SubtitlesEntry) :
  to_srt ((first :: entries) ++ [entry])
  = (to_srt (first :: entries) ++ newline ++ newline
     ++ str_of_nat (length (first :: entries) + 1) ++ newline
     ++ __to_srt_format (start_time entry) ++ " --> " ++ __to_srt_format (end_time entry)
     ++ newline ++ text entry)%string.
Proof.
  unfold to_srt. rewrite enumerate_snoc, map_app. cbn [map].
  cbn [enumerate map]. rewrite concat_snoc.
  unfold __str__. rewrite !string_append_assoc.
  replace (1 + length (first :: entries))%nat with (length (first :: entries) + 1)%nat
    by lia.
  reflexivity.
Qed.

(** ** From the transcript to the cues of the subtitle file *)

Lemma for_each_invariant {A S : Type} (P : S -> Prop) (xs : list A)
  (body : S -> A -> result S) (s s' : S) :
  (forall s x s', body s x = Ok s' -> P s -> P s') ->
  P s -> for_each xs body s = Ok s' -> P s'.
Proof.
  intros Hbody. revert s. induction xs as [|x xs IH]; intros s Hs H; cbn [for_each] in H.
  - injection H as <-. exact Hs.
  - apply bind_Ok in H. destruct H as [s1 [H1 H]].
    apply (IH s1); [exact (Hbody s x s1 H1 Hs) | exact H].
Qed.

Lemma for_each_collect {A B : Type} (xs : list A) (f : A -> result (list B))
  (acc out : list B) :
  for_each xs (fun result x => parts <- f x ;; Ok (result ++ parts)) acc = Ok out ->
  exists pss, Forall2 (fun x parts => f x = Ok parts) xs pss /\ out = acc ++ concat pss.
Proof.
  revert acc. induction xs as [|x xs IH]; intros acc H; cbn [for_each] in H.
  - injection H as <-. exists []. split; [constructor | cbn [concat]; rewrite app_nil_r; reflexivity].
  - apply bind_Ok in H. destruct H as [acc' [H1 H]].
    apply bind_Ok in H1. destruct H1 as [parts [Hparts H1]]. injection H1 as <-.
    destruct (IH _ H) as [pss [Hall ->]].
    exists (parts :: pss). split; [constructor; assumption|].
    cbn [concat]. rewrite app_assoc. reflexivity.
Qed.

Lemma yield_each_complete {A B : Type} (xs : list A) (body : A -> result (list B)) :
  raised (yield_each xs body) = None ->
  exists yss,
    Forall2 (fun x ys => body x = Ok ys) xs yss
    /\ yielded (yield_each xs body) = concat yss.
Proof.
  induction xs as [|x xs IH]; cbn [yield_each].
  - intros _. exists []. split; [constructor | reflexivity].
  - destruct (body x) as [ys|e] eqn:E; cbn [raised yielded]; [|discriminate].
    intros H. destruct (IH H) as [yss [Hall Hy]].
    exists (ys :: yss). split; [constructor; assumption|].
    cbn [concat]. rewrite Hy. reflexivity.
Qed.

Lemma Forall2_concat_length {A B : Type} (R : A -> list B -> Prop)
  (xs : list A) (yss : list (list B)) :
  Forall2 R xs yss -> (forall x ys, R x ys -> ys <> []) ->
  (length xs <= length (concat yss))%nat.
Proof.
  intros H Hne. induction H as [|x ys xs yss HR _ IH]; [apply Nat.le_refl|].
  cbn [length concat]. rewrite length_app.
  specialize (Hne x ys HR). destruct ys; [contradiction Hne; reflexivity|].
  cbn [length]. lia.
Qed.

Lemma Forall2_concat_incl {A B : Type} (R : A -> list B -> Prop)
  (xs : list A) (yss : list (list B)) (x : A) :
  Forall2 R xs yss -> In x xs -> exists ys, R x ys /\ incl ys (concat yss).
Proof.
  intros H. induction H as [|x' ys xs yss HR _ IH]; intros Hin; [contradiction|].
  cbn [concat]. destruct Hin as [->|Hin].
  - exists ys. split; [exact HR | apply incl_appl, incl_refl].
  - destruct (IH Hin) as [ys' [HR' Hincl]].
    exists ys'. split; [exact HR' | apply incl_appr; exact Hincl].
Qed.

Lemma split_entry_texts (entry : SubtitlesEntry) (parts : list SubtitlesEntry) :
  __split_entry entry = Ok parts ->
  parts <> [] /\ Forall (fun part => text part = text entry) parts.
Proof.
  unfold __split_entry. intros H.
  apply bind_Ok in H. destruct H as [duration [_ H]].
  destruct (duration <=? MAX_VALID_MP4_DURATION).
  - injection H as <-. split; [discriminate | repeat constructor].
  - apply bind_Ok in H. destruct H as [ratio [_ H]].
    apply bind_Ok in H. destruct H as [duration_per_one [_ H]].
    apply bind_Ok in H. destruct H as [out [Hloop H]].
    apply bind_Ok in H. destruct H as [offset_ [_ H]].
    apply bind_Ok in H. destruct H as [start [_ H]].
    injection H as <-. split; [destruct out; discriminate|].
    apply Forall_app. split; [|repeat constructor].
    revert Hloop. apply for_each_invariant; [|constructor].
    intros s i s' Hbody Hs.
    apply bind_Ok in Hbody. destruct Hbody as [o [_ Hbody]].
    apply bind_Ok in Hbody. destruct Hbody as [a [_ Hbody]].
    apply bind_Ok in Hbody. destruct Hbody as [b [_ Hbody]].
    injection Hbody as <-. apply Forall_app. split; [exact Hs | repeat constructor].
Qed.

(** Every cue of a sequence of two or more goes through the gap filling and
    the splitting: the result is at least as long, and holds the text of
    every cue. *)
Lemma fill_and_split_keeps (entries : list SubtitlesEntry) (gape_placeholder : string)
  (result : list SubtitlesEntry) :
  fill_and_split entries gape_placeholder = Ok result ->
  (2 <= length entries)%nat ->
  (length entries <= length result)%nat
  /\ forall entry, In entry entries -> In (text entry) (map text result).
Proof.
  unfold fill_and_split, __fill_gapes. intros H Hlen.
  destruct (Nat.ltb_spec (length entries) 2) as [|_]; [lia|].
  cbv zeta in H. cbn [length] in H. rewrite Nat.sub_succ, Nat.sub_0_r in H.
  set (body := fun i : nat => _) in H.
  apply bind_Ok in H. destruct H as [out [Hout H]].
  destruct (raised (yield_each (range (length entries)) body)) eqn:Hraised; [discriminate|].
  injection H as <-.
  destruct (yield_each_complete _ _ Hraised) as [yss [Hyss Hyielded]].
  rewrite Hyielded in Hout.
  destruct (for_each_collect _ _ _ _ Hout) as [pss [Hpss ->]]. cbn [app].
  assert (Hbody : forall i ys, body i = Ok ys ->
            exists current, nth_error entries i = Some current /\ In current ys).
  { intros i ys Hi. unfold body in Hi.
    apply bind_Ok in Hi. destruct Hi as [previous [_ Hi]].
    apply bind_Ok in Hi. destruct Hi as [current [Hcurrent Hi]].
    apply bind_Ok in Hi. destruct Hi as [gape [_ Hi]].
    injection Hi as <-.
    unfold index in Hcurrent. rewrite Nat.add_1_r in Hcurrent. cbn [nth_error] in Hcurrent.
    destruct (nth_error entries i) as [c|] eqn:Hnth; [|discriminate].
    injection Hcurrent as <-. exists c. split; [reflexivity|].
    apply in_or_app. right. destruct c. left. reflexivity. }
  split.
  - transitivity (length (concat yss)).
    + assert (Hne : forall i ys, body i = Ok ys -> ys <> []).
      { intros i ys Hi E. destruct (Hbody i ys Hi) as [c [_ Hin]]. subst ys. contradiction. }
      pose proof (Forall2_concat_length _ _ _ Hyss Hne) as Hle.
      unfold range in Hle. rewrite length_seq in Hle. exact Hle.
    + apply (Forall2_concat_length _ _ _ Hpss).
      intros c parts Hc. apply (split_entry_texts c parts Hc).
  - intros entry Hin.
    destruct (In_nth_error _ _ Hin) as [i Hi].
    assert (Hrange : In i (range (length entries))).
    { apply in_seq. pose proof (proj1 (nth_error_Some entries i)) as Hsome.
      rewrite Hi in Hsome. specialize (Hsome ltac:(discriminate)). lia. }
    destruct (Forall2_concat_incl _ _ _ i Hyss Hrange) as [ys [Hys Hincl]].
    destruct (Hbody i ys Hys) as [c [Hc Hcin]].
    rewrite Hi in Hc. injection Hc as <-.
    destruct (Forall2_concat_incl _ _ _ entry Hpss (Hincl _ Hcin)) as [parts [Hparts Hincl']].
    destruct (split_entry_texts entry parts Hparts) as [Hne Htexts].
    destruct parts as [|part parts]; [contradiction Hne; reflexivity|].
    apply Forall_inv in Htexts. rewrite <- Htexts.
    apply in_map. apply Hincl'. left. reflexivity.
Qed.

Lemma clamp_last_texts (cues : list SubtitlesEntry) (recording_duration : option timedelta) :
  map text (clamp_last cues recording_duration) = map text cues.
Proof.
  destruct recording_duration as [T|]; [|rewrite clamp_last_None; reflexivity].
  destruct (snoc_or_nil cues) as [->|[front [final ->]]]; [reflexivity|].
  rewrite clamp_last_snoc, !map_app. reflexivity.
Qed.

(** X13: the chat pipeline loses one message or none.  When
    [build_chat_subtitles] returns without a subtitle file, the transcript had
    at most one message; when it returns cues for the file, the transcript had
    two messages or more, there are at least as many cues as messages, and the
    text [name: message] of every message is the text of some cue. *)
Theorem build_chat_subtitles_keeps_messages (transcript : list BbbChatEntry)
  (recording_duration : timedelta) (outcome : option (list SubtitlesEntry)) :
  build_chat_subtitles transcript recording_duration = Ok outcome ->
  match outcome with
  | None => (length transcript <= 1)%nat
  | Some cues =>
      (2 <= length transcript <= length cues)%nat
      /\ forall entry, In entry transcript -> In (__build_text entry) (map text cues)
  end.
Proof.
  unfold build_chat_subtitles, apply_mp4_fixes. intros H.
  apply bind_Ok in H. destruct H as [subtitles [Hsubtitles H]].
  apply bind_Ok in H. destruct H as [fixed [Hfixed H]].
  apply bind_Ok in Hfixed. destruct Hfixed as [result [Hresult Hfixed]].
  injection Hfixed as <-.
  rewrite to_subtitles_by_gaps in Hsubtitles. apply split_by_gaps_texts in Hsubtitles.
  pose proof (group_by_timestamp_permutation transcript) as Hperm.
  assert (Hlen : length subtitles = length transcript).
  { rewrite <- (length_map text subtitles), Hsubtitles, length_map.
    apply Permutation_length. exact Hperm. }
  pose proof (clamp_last_texts result (Some recording_duration)) as Hclamp.
  destruct (Nat.le_gt_cases 2 (length transcript)) as [Hmany|Hfew].
  - destruct (fill_and_split_keeps subtitles default_placeholder result Hresult
                ltac:(lia)) as [Hcount Hkeeps].
    assert (Hcount' : (length transcript <= length (clamp_last result (Some recording_duration)))%nat).
    { rewrite <- (length_map text), Hclamp, length_map. lia. }
    destruct (clamp_last result (Some recording_duration)) as [|c cues] eqn:E.
    + cbn [length] in Hcount'. lia.
    + injection H as <-. split; [lia|].
      intros entry Hin. rewrite Hclamp.
      assert (Htext : In (__build_text entry) (map text subtitles)).
      { rewrite Hsubtitles. apply in_map.
        apply (Permutation_in _ (Permutation_sym Hperm)). exact Hin. }
      apply in_map_iff in Htext. destruct Htext as [s [Hs Hsin]].
      rewrite <- Hs. apply Hkeeps. exact Hsin.
  - assert (Hnone : result = []).
    { unfold fill_and_split, __fill_gapes in Hresult.
      destruct (Nat.ltb_spec (length subtitles) 2) as [_|]; [|lia].
      injection Hresult as <-. reflexivity. }
    subst result. cbn [clamp_last] in H. injection H as <-. lia.
Qed.

Lemma build_chat_subtitles_keeps_messages_witness :
  let transcript := [chat "a" "x" 10; chat "b" "y" 10; chat "c" "z" 4000] in
  let cues := [cue "a: x" 10000000 11500000;
               cue "b: y" 11500000 13000000;
               cue default_placeholder 13000000 2006500000;
               cue default_placeholder 2006500000 4000000000;
               cue "c: z" 4000000000 4001000000] in
  (2 <= length transcript <= length cues)%nat
  /\ forall entry, In entry transcript -> In (__build_text entry) (map text cues).
Proof.
  apply (build_chat_subtitles_keeps_messages
           [chat "a" "x" 10; chat "b" "y" 10; chat "c" "z" 4000] (seconds 4001)
           (Some [cue "a: x" 10000000 11500000;
                  cue "b: y" 11500000 13000000;
                  cue default_placeholder 13000000 2006500000;
                  cue default_placeholder 2006500000 4000000000;
                  cue "c: z" 4000000000 4001000000])).
  vm_compute. reflexivity.
Defined.

(** ** The gaps after the compliance pass *)

Lemma end_of_app (p : timedelta) (a b : list SubtitlesEntry) :
  end_of p (a ++ b) = end_of (end_of p a) b.
Proof. apply fold_left_app. Qed.

Lemma every_gap_app (P : timedelta -> Prop) (p : timedelta) (a b : list SubtitlesEntry) :
  every_gap P p (a ++ b) <-> every_gap P p a /\ every_gap P (end_of p a) b.
Proof.
  revert p. induction a as [|c a IH]; intros p; cbn [app every_gap].
  - unfold end_of. cbn [fold_left]. tauto.
  - rewrite IH. unfold end_of. cbn [fold_left]. tauto.
Qed.

Lemma every_gap_nth (Q : timedelta -> Prop) (entries : list SubtitlesEntry) :
  forall (first : SubtitlesEntry) (i : nat) (previous current : SubtitlesEntry),
    every_gap Q (end_time first) entries ->
    nth_error (first :: entries) i = Some previous ->
    nth_error (first :: entries) (S i) = Some current ->
    Q (start_time current - end_time previous).
Proof.
  induction entries as [|e entries IH]; intros first i previous current Hgaps Hp Hc.
  - cbn [nth_error] in Hc. destruct i; discriminate.
  - destruct Hgaps as [Hgap Hgaps]. destruct i as [|i].
    + cbn [nth_error] in Hp, Hc. injection Hp as <-. injection Hc as <-. exact Hgap.
    + exact (IH e i previous current Hgaps Hp Hc).
Qed.

Lemma split_entry_loop_Ok (entry : SubtitlesEntry) (duration_per_one : timedelta) :
  forall (k a : nat) (out out' : list SubtitlesEntry),
    for_each (seq a k)
      (fun out i =>
         offset <- mul duration_per_one (Z.of_nat i) ;;
         start <- add (start_time entry) offset ;;
         stop <- add start duration_per_one ;;
         Ok (out ++ [mkSubtitlesEntry (text entry) start stop]))
      out = Ok out' ->
    out' = out ++ map (sub_cue entry duration_per_one) (seq a k).
Proof.
  induction k as [|k IH]; intros a out out' H; cbn [seq for_each map] in *.
  - injection H as <-. rewrite app_nil_r. reflexivity.
  - apply bind_Ok in H. destruct H as [out1 [Hbody H]].
    apply bind_Ok in Hbody. destruct Hbody as [offset_ [Hoffset Hbody]].
    apply bind_Ok in Hbody. destruct Hbody as [start [Hstart Hbody]].
    apply bind_Ok in Hbody. destruct Hbody as [stop [Hstop Hbody]].
    apply of_microseconds_Ok in Hoffset, Hstart, Hstop.
    destruct Hoffset as [-> _]. destruct Hstart as [-> _]. destruct Hstop as [-> _].
    injection Hbody as <-.
    rewrite (IH _ _ _ H), <- app_assoc. reflexivity.
Qed.

Lemma every_gap_sub_cues (P : timedelta -> Prop) (entry : SubtitlesEntry)
  (duration_per_one : timedelta) (final : SubtitlesEntry) :
  P 0 ->
  forall (n a : nat) (p : timedelta),
    P (start_time entry + duration_per_one * Z.of_nat a - p) ->
    start_time final = start_time entry + duration_per_one * Z.of_nat (a + n) ->
    every_gap P p (map (sub_cue entry duration_per_one) (seq a n) ++ [final]).
Proof.
  intros H0. induction n as [|n IH]; intros a p Hgap Hfinal; cbn [seq map app every_gap].
  - rewrite Nat.add_0_r in Hfinal. rewrite Hfinal. auto.
  - split; [exact Hgap|].
    apply IH.
    + cbn [sub_cue end_time].
      replace (start_time entry + duration_per_one * Z.of_nat (S a)
               - (start_time entry + duration_per_one * Z.of_nat a + duration_per_one))
        with 0 by lia.
      exact H0.
    + rewrite Hfinal. replace (a + S n)%nat with (S a + n)%nat by lia. reflexivity.
Qed.

(** The sub-cues of a cue start where it starts and end where it ends, and
    each one starts where the one before ends. *)
Lemma split_entry_span (P : timedelta -> Prop) (entry : SubtitlesEntry)
  (parts : list SubtitlesEntry) (p : timedelta) :
  P 0 ->
  __split_entry entry = Ok parts ->
  P (start_time entry - p) ->
  every_gap P p parts /\ end_of p parts = end_time entry.
Proof.
  unfold __split_entry. intros H0 H Hgap.
  apply bind_Ok in H. destruct H as [duration [Hduration H]].
  apply of_microseconds_Ok in Hduration. destruct Hduration as [Ed Hvalid].
  rewrite <- Ed in Hvalid. clear Ed.
  destruct (Z.leb_spec duration MAX_VALID_MP4_DURATION) as [_|Hlong].
  - injection H as <-. cbn [every_gap]. auto.
  - apply bind_Ok in H. destruct H as [ratio [Hratio H]].
    unfold truediv in Hratio.
    destruct (MAX_VALID_MP4_DURATION =? 0); [discriminate|]. injection Hratio as <-.
    destruct (split_parts duration Hlong (proj2 Hvalid)) as [Hparts _].
    cbv zeta in Hparts.
    set (parts_ := ceil (int_true_divide duration MAX_VALID_MP4_DURATION)) in *.
    apply bind_Ok in H. destruct H as [duration_per_one [_ H]].
    apply bind_Ok in H. destruct H as [out [Hloop H]].
    apply split_entry_loop_Ok in Hloop. cbn [app] in Hloop. subst out.
    apply bind_Ok in H. destruct H as [offset_ [Hoffset H]].
    apply bind_Ok in H. destruct H as [start [Hstart H]].
    apply of_microseconds_Ok in Hoffset, Hstart.
    destruct Hoffset as [-> _]. destruct Hstart as [-> _].
    injection H as <-. split.
    + apply every_gap_sub_cues; [exact H0 | |].
      * rewrite Z.mul_0_r, Z.add_0_r. exact Hgap.
      * cbn [start_time Nat.add]. rewrite Z2Nat.id by lia. reflexivity.
    + rewrite end_of_app. reflexivity.
Qed.

Lemma split_all_gaps (P : timedelta -> Prop) (cues : list SubtitlesEntry)
  (pss : list (list SubtitlesEntry)) :
  P 0 ->
  Forall2 (fun c parts => __split_entry c = Ok parts) cues pss ->
  forall p, every_gap P p cues ->
    every_gap P p (concat pss) /\ end_of p (concat pss) = end_of p cues.
Proof.
  intros H0.
  induction 1 as [|c parts cues pss Hc _ IH]; intros p Hgaps; [split; [exact I | reflexivity]|].
  destruct Hgaps as [Hgap Hgaps]. cbn [concat].
  destruct (split_entry_span P c parts p H0 Hc Hgap) as [Hparts Hend].
  destruct (IH (end_time c) Hgaps) as [Hrest Hend'].
  rewrite every_gap_app, end_of_app, Hend. auto.
Qed.

Lemma walk_gaps (P : timedelta -> Prop) (entries : list SubtitlesEntry)
  (R : nat -> list SubtitlesEntry -> Prop) :
  (forall i ys, R i ys ->
     exists previous current,
       nth_error entries i = Some previous
       /\ nth_error entries (S i) = Some current
       /\ every_gap P (end_time previous) ys
       /\ end_of (end_time previous) ys = end_time current) ->
  forall (k a : nat) (yss : list (list SubtitlesEntry)) (previous : SubtitlesEntry),
    Forall2 R (seq a k) yss ->
    nth_error entries a = Some previous ->
    every_gap P (end_time previous) (concat yss).
Proof.
  intros HR. induction k as [|k IH]; intros a yss previous Hall Hprevious;
    cbn [seq] in Hall; inversion Hall as [|i ys is' yss' Hys Hrest]; subst;
    cbn [concat]; [exact I|].
  destruct (HR a ys Hys) as [previous' [current [Hp [Hc [Hgaps Hend]]]]].
  rewrite Hprevious in Hp. injection Hp as <-.
  rewrite every_gap_app, Hend. split; [exact Hgaps|].
  apply (IH (S a)); assumption.
Qed.

Lemma clamp_last_gaps (P : timedelta -> Prop) (p : timedelta) (cues : list SubtitlesEntry)
  (recording_duration : option timedelta) :
  every_gap P p cues -> every_gap P p (clamp_last cues recording_duration).
Proof.
  destruct recording_duration as [T|]; [|rewrite clamp_last_None; auto].
  destruct (snoc_or_nil cues) as [->|[front [final ->]]]; [auto|].
  rewrite clamp_last_snoc, !every_gap_app. cbn [every_gap start_time]. tauto.
Qed.

(** The gaps of the filled and split sequence: a gap of the input that is not
    longer than the limit is kept, and every other gap of the output is zero. *)
Lemma fill_and_split_gaps (Q P : timedelta -> Prop) (entries : list SubtitlesEntry)
  (gape_placeholder : string) (result : list SubtitlesEntry) :
  P 0 ->
  (forall gap, Q gap -> gap <= MAX_VALID_MP4_DURATION -> P gap) ->
  every_gap Q 0 entries ->
  fill_and_split entries gape_placeholder = Ok result ->
  every_gap P 0 result.
Proof.
  intros H0 HQP HQ Hfilled.
  unfold fill_and_split, __fill_gapes in Hfilled.
  destruct (length entries <? 2)%nat.
  - injection Hfilled as <-. exact I.
  - cbv zeta in Hfilled. cbn [length] in Hfilled.
    rewrite Nat.sub_succ, Nat.sub_0_r in Hfilled.
    set (body := fun i : nat => _) in Hfilled.
    apply bind_Ok in Hfilled. destruct Hfilled as [out [Hout Hfilled]].
    destruct (raised (yield_each (range (length entries)) body)) eqn:Hraised;
      [discriminate|].
    injection Hfilled as <-.
    destruct (yield_each_complete _ _ Hraised) as [yss [Hyss Hyielded]].
    rewrite Hyielded in Hout.
    destruct (for_each_collect _ _ _ _ Hout) as [pss [Hpss ->]]. cbn [app].
    apply (split_all_gaps P _ _ H0 Hpss).
    apply (walk_gaps P (mkSubtitlesEntry gape_placeholder 0 0 :: entries)
             (fun i ys => body i = Ok ys))
      with (k := length entries) (a := 0%nat)
           (previous := mkSubtitlesEntry gape_placeholder 0 0);
      [|exact Hyss | reflexivity].
    intros i ys Hi. unfold body in Hi.
    apply bind_Ok in Hi. destruct Hi as [previous [Hprevious Hi]].
    apply bind_Ok in Hi. destruct Hi as [current [Hcurrent Hi]].
    apply bind_Ok in Hi. destruct Hi as [gape [Hgape Hi]].
    apply of_microseconds_Ok in Hgape. destruct Hgape as [-> _].
    injection Hi as <-.
    unfold index in Hprevious, Hcurrent. rewrite Nat.add_1_r in Hcurrent.
    destruct (nth_error (mkSubtitlesEntry gape_placeholder 0 0 :: entries) i)
      as [previous'|] eqn:Hp; [|discriminate].
    destruct (nth_error (mkSubtitlesEntry gape_placeholder 0 0 :: entries) (S i))
      as [current'|] eqn:Hc; [|discriminate].
    injection Hprevious as <-. injection Hcurrent as <-.
    exists previous', current'. split; [reflexivity|]. split; [reflexivity|].
    pose proof (every_gap_nth Q entries (mkSubtitlesEntry gape_placeholder 0 0)
                  i previous' current' HQ Hp Hc) as Hgap.
    destruct (Z.ltb_spec MAX_VALID_MP4_DURATION
                (start_time current' - end_time previous')) as [Hlong|Hshort];
      cbn [app every_gap start_time end_time]; unfold end_of; cbn [fold_left end_time].
    + rewrite !Z.sub_diag. auto.
    + auto.
Qed.

Lemma every_gap_True (p : timedelta) (cues : list SubtitlesEntry) :
  every_gap (fun _ => True) p cues.
Proof. revert p. induction cues as [|c cues IH]; intros p; cbn [every_gap]; auto. Qed.

(** X14: what the compliance pass is for.  Whenever [apply_mp4_fixes] returns,
    for any input, placeholder and recording duration, the sequence it returns
    has no gap longer than [MAX_VALID_MP4_DURATION]: the first cue starts at
    most that long after offset zero, and every other cue at most that long
    after the end of the cue before it. *)
Theorem apply_mp4_fixes_leaves_no_long_gap (entries : list SubtitlesEntry)
  (recording_duration : option timedelta) (gape_placeholder : string)
  (result : list SubtitlesEntry) :
  apply_mp4_fixes entries recording_duration gape_placeholder = Ok result ->
  no_long_gap 0 result.
Proof.
  unfold apply_mp4_fixes, no_long_gap. intros H.
  apply bind_Ok in H. destruct H as [filled [Hfilled H]]. injection H as <-.
  apply clamp_last_gaps.
  apply (fill_and_split_gaps (fun _ => True) (fun gap => gap <= MAX_VALID_MP4_DURATION)
           entries gape_placeholder filled).
  - discriminate.
  - intros gap _ Hgap. exact Hgap.
  - apply every_gap_True.
  - exact Hfilled.
Qed.

Lemma apply_mp4_fixes_leaves_no_long_gap_witness :
  no_long_gap 0
    [cue "a" 0 3000000; cue "_" 3000000 2001500000; cue "_" 2001500000 4000000000;
     cue "b" 4000000000 4001000000].
Proof.
  apply (apply_mp4_fixes_leaves_no_long_gap
           [cue "a" 0 3000000; cue "b" 4000000000 4003000000]
           (Some (seconds 4001)) "_").
  vm_compute. reflexivity.
Defined.

(** X15: the compliance pass keeps the cues in order.  When no cue of the
    input starts before the end of the cue before it (nor the first one before
    offset zero), the same holds of the sequence that [apply_mp4_fixes]
    returns: the placeholders and the sub-cues it adds overlap nothing. *)
Theorem apply_mp4_fixes_keeps_order (entries : list SubtitlesEntry)
  (recording_duration : option timedelta) (gape_placeholder : string)
  (result : list SubtitlesEntry) :
  no_overlap 0 entries ->
  apply_mp4_fixes entries recording_duration gape_placeholder = Ok result ->
  no_overlap 0 result.
Proof.
  unfold apply_mp4_fixes, no_overlap. intros Hentries H.
  apply bind_Ok in H. destruct H as [filled [Hfilled H]]. injection H as <-.
  apply clamp_last_gaps.
  apply (fill_and_split_gaps (fun gap => 0 <= gap) (fun gap => 0 <= gap)
           entries gape_placeholder filled).
  - lia.
  - intros gap Hgap _. exact Hgap.
  - exact Hentries.
  - exact Hfilled.
Qed.

Lemma apply_mp4_fixes_keeps_order_witness :
  no_overlap 0
    [cue "a" 0 3000000; cue "_" 3000000 2001500000; cue "_" 2001500000 4000000000;
     cue "b" 4000000000 4001000000].
Proof.
  apply (apply_mp4_fixes_keeps_order
           [cue "a" 0 3000000; cue "b" 4000000000 4003000000]
           (Some (seconds 4001)) "_").
  - unfold no_overlap. cbn [every_gap start_time end_time cue]. repeat split; lia.
  - vm_compute. reflexivity.
Defined.

(** ** The gaps of the cues of an ordered transcript *)

(** The cues of a group start at the timestamp of the group, end its duration
    later, and each one starts where the one before ends. *)
Lemma split_group_span (P : timedelta -> Prop) (group : list BbbChatEntry)
  (duration p : timedelta) (cues : list SubtitlesEntry) (first : BbbChatEntry) :
  P 0 ->
  __split_group group duration = Ok cues ->
  nth_error group 0 = Some first ->
  P (timestamp first - p) ->
  every_gap P p cues /\ end_of p cues = timestamp first + duration.
Proof.
  unfold __split_group. intros H0 H Hfirst Hgap.
  apply bind_Ok in H. destruct H as [part [_ H]].
  unfold index in H at 1. rewrite Hfirst in H. cbn [bind] in H.
  apply bind_Ok in H. destruct H as [[out current_time] [Hloop H]].
  apply bind_Ok in H. destruct H as [current [_ H]].
  apply bind_Ok in H. destruct H as [stop [Hstop H]].
  apply of_microseconds_Ok in Hstop. destruct Hstop as [-> _].
  injection H as <-.
  assert (Hinv : every_gap P p out /\ P (current_time - end_of p out)).
  { revert Hloop.
    apply (for_each_invariant
             (fun s : list SubtitlesEntry * timedelta =>
                every_gap P p (fst s) /\ P (snd s - end_of p (fst s)))).
    - intros [out0 t0] i [out1 t1] Hbody [Hgaps Hnext]. cbn [fst snd] in *.
      apply bind_Ok in Hbody. destruct Hbody as [entry [_ Hbody]].
      apply bind_Ok in Hbody. destruct Hbody as [stop [Hstop Hbody]].
      apply of_microseconds_Ok in Hstop. destruct Hstop as [-> _].
      injection Hbody as <- <-.
      rewrite every_gap_app, end_of_app. cbn [every_gap start_time].
      unfold end_of at 2. cbn [fold_left end_time]. rewrite Z.sub_diag. auto.
    - cbn [fst snd every_gap]. unfold end_of. cbn [fold_left]. auto. }
  destruct Hinv as [Hgaps Hnext].
  rewrite every_gap_app, end_of_app. cbn [every_gap start_time].
  unfold end_of at 2 3. cbn [fold_left end_time]. auto.
Qed.

Lemma split_by_gaps_no_overlap (D : timedelta)
  (groups : list (timedelta * list BbbChatEntry)) :
  Forall keyed groups ->
  StronglySorted Z.lt (map fst groups) ->
  forall (p : timedelta) (cues : list SubtitlesEntry),
    Forall (fun kg => p <= fst kg) groups ->
    split_by_gaps D groups = Ok cues ->
    no_overlap p cues.
Proof.
  unfold no_overlap.
  induction groups as [|[t g] rest IH]; intros Hkeyed Hsorted p cues Hp H;
    cbn [split_by_gaps] in H.
  - injection H as <-. exact I.
  - apply Forall_cons_iff in Hkeyed. destruct Hkeyed as [[Hne Hkey] Hkeyed].
    cbn [fst snd] in Hne, Hkey.
    cbn [map fst] in Hsorted. apply StronglySorted_inv in Hsorted.
    destruct Hsorted as [Hsorted Hlt].
    apply Forall_cons_iff in Hp. destruct Hp as [Hpt _]. cbn [fst] in Hpt.
    apply bind_Ok in H. destruct H as [duration [Hduration H]].
    apply bind_Ok in H. destruct H as [first [Hfirst H]].
    apply bind_Ok in H. destruct H as [more [Hmore H]].
    injection H as <-.
    destruct g as [|e g]; [contradiction Hne; reflexivity|].
    apply Forall_inv in Hkey.
    destruct (split_group_span (fun gap => 0 <= gap) (e :: g) duration p first e
                ltac:(cbn beta; lia) Hfirst eq_refl ltac:(cbn beta; lia)) as [Hgaps Hend].
    rewrite every_gap_app, Hend. split; [exact Hgaps|].
    apply (IH Hkeyed Hsorted); [|exact Hmore].
    destruct rest as [|[t' g'] rest]; [constructor|].
    apply bind_Ok in Hduration. destruct Hduration as [gap [Hgap Hduration]].
    apply of_microseconds_Ok in Hgap. destruct Hgap as [-> _].
    injection Hduration as <-. rewrite min_is_Zmin, Hkey.
    cbn [map fst] in Hlt. apply Forall_cons_iff in Hlt. destruct Hlt as [Htt' Hlt].
    constructor; [cbn [fst]; lia|].
    cbn [map fst] in Hsorted. apply StronglySorted_inv in Hsorted.
    destruct Hsorted as [_ Hlt']. rewrite Forall_map in Hlt'.
    eapply Forall_impl; [|exact Hlt']. intros [k gk] Hkg. cbn [fst] in *. lia.
Qed.

(** X16: the cues written for a chat that is ordered by time and does not
    start before offset zero.  Whenever [build_chat_subtitles] returns cues,
    every cue starts at or after the end of the cue before it, and at most
    [MAX_VALID_MP4_DURATION] after it; the first cue starts between zero and
    [MAX_VALID_MP4_DURATION]. *)
Theorem build_chat_subtitles_gaps (transcript : list BbbChatEntry)
  (recording_duration : timedelta) (cues : list SubtitlesEntry) :
  StronglySorted Z.le (map timestamp transcript) ->
  Forall (fun entry => 0 <= timestamp entry) transcript ->
  build_chat_subtitles transcript recording_duration = Ok (Some cues) ->
  every_gap (fun gap => 0 <= gap <= MAX_VALID_MP4_DURATION) 0 cues.
Proof.
  unfold build_chat_subtitles, apply_mp4_fixes. intros Hsorted Hpositive H.
  apply bind_Ok in H. destruct H as [subtitles [Hsubtitles H]].
  apply bind_Ok in H. destruct H as [fixed [Hfixed H]].
  apply bind_Ok in Hfixed. destruct Hfixed as [filled [Hfilled Hfixed]].
  injection Hfixed as <-.
  destruct (clamp_last filled (Some recording_duration)) as [|c rest] eqn:Hclamp;
    [discriminate|].
  injection H as <-. rewrite <- Hclamp. apply clamp_last_gaps.
  apply (fill_and_split_gaps (fun gap => 0 <= gap)
           (fun gap => 0 <= gap <= MAX_VALID_MP4_DURATION)
           subtitles default_placeholder filled);
    [split; [lia | discriminate] | intros gap Hlo Hhi; split; assumption | | exact Hfilled].
  rewrite to_subtitles_by_gaps in Hsubtitles.
  destruct transcript as [|first others].
  - injection Hsubtitles as <-. exact I.
  - destruct (groups_of_ordered first others Hsorted)
      as [_ [Hconcat [Hkeys [Hkeyed _]]]].
    apply (split_by_gaps_no_overlap CHAT_ENTRY_MAX_DURATION
             (group_by_timestamp (first :: others)) Hkeyed Hkeys 0 subtitles);
      [|exact Hsubtitles].
    apply Forall_forall. intros [t g] Hin. cbn [fst].
    pose proof (proj1 (Forall_forall _ _) Hkeyed (t, g) Hin) as [Hne Hkey].
    cbn [fst snd] in Hne, Hkey.
    destruct g as [|e g]; [contradiction Hne; reflexivity|].
    apply Forall_inv in Hkey. rewrite <- Hkey.
    apply (proj1 (Forall_forall _ _) Hpositive).
    rewrite <- Hconcat. apply in_concat. exists (e :: g). split; [|left; reflexivity].
    apply in_map_iff. exists (t, e :: g). split; [reflexivity | exact Hin].
Qed.

Lemma build_chat_subtitles_gaps_witness :
  every_gap (fun gap => 0 <= gap <= MAX_VALID_MP4_DURATION) 0
    [cue "a: x" 10000000 11500000; cue "b: y" 11500000 13000000;
     cue default_placeholder 13000000 2006500000;
     cue default_placeholder 2006500000 4000000000;
     cue "c: z" 4000000000 4001000000].
Proof.
  apply (build_chat_subtitles_gaps
           [chat "a" "x" 10; chat "b" "y" 10; chat "c" "z" 4000] (seconds 4001)).
  - repeat constructor; vm_compute; discriminate.
  - repeat constructor; vm_compute; discriminate.
  - vm_compute. reflexivity.
Defined.

(** ** The compliance pass on times that a timedelta can subtract *)

Lemma offset_valid (t : timedelta) : offset t -> valid t.
Proof. unfold offset. unfold_range. lia. Qed.

Lemma offset_difference_valid (a b : timedelta) : offset a -> offset b -> valid (a - b).
Proof. unfold offset. unfold_range. lia. Qed.

Lemma split_entry_returns (entry : SubtitlesEntry) :
  offset (start_time entry) -> offset (end_time entry) ->
  exists parts, __split_entry entry = Ok parts.
Proof.
  intros Hstart Hend.
  pose proof (offset_difference_valid _ _ Hend Hstart) as Hduration.
  destruct (Z.leb_spec (end_time entry - start_time entry) MAX_VALID_MP4_DURATION)
    as [Hshort|Hlong].
  - exists [entry]. unfold __split_entry.
    rewrite (sub_valid _ _ Hduration). cbn [bind].
    apply Z.leb_le in Hshort. rewrite Hshort. reflexivity.
  - eexists.
    exact (split_entry_closed_form entry (offset_valid _ Hstart) (offset_valid _ Hend)
             Hduration Hlong).
Qed.

Lemma gap_filling_offsets (gape_placeholder : string) (cues : list SubtitlesEntry) :
  forall previous_end : timedelta,
    offset previous_end ->
    Forall (fun c => offset (start_time c) /\ offset (end_time c)) cues ->
    gaps_in_range previous_end cues
    /\ Forall (fun c => offset (start_time c) /\ offset (end_time c))
         (gap_filling gape_placeholder previous_end cues).
Proof.
  induction cues as [|c cues IH]; intros p Hp Hcues; cbn [gaps_in_range gap_filling].
  - split; [exact I | constructor].
  - apply Forall_cons_iff in Hcues. destruct Hcues as [[Hstart Hend] Hcues].
    destruct (IH (end_time c) Hend Hcues) as [Hgaps Hfilled].
    split; [split; [apply offset_difference_valid; assumption | exact Hgaps]|].
    apply Forall_app. split.
    + destruct (MAX_VALID_MP4_DURATION <? start_time c - p);
        [constructor; [split; assumption | constructor] | constructor].
    + constructor; [split; assumption | exact Hfilled].
Qed.

Lemma split_all_returns (cues : list SubtitlesEntry) :
  Forall (fun c => offset (start_time c) /\ offset (end_time c)) cues ->
  forall acc : list SubtitlesEntry,
    exists out,
      for_each cues (fun result entry => parts <- __split_entry entry ;; Ok (result ++ parts))
        acc = Ok out.
Proof.
  induction 1 as [|c cues [Hstart Hend] _ IH]; intros acc; cbn [for_each].
  - exists acc. reflexivity.
  - destruct (split_entry_returns c Hstart Hend) as [parts ->]. cbn [bind]. apply IH.
Qed.

(** The gap filling and the splitting return on times between zero and
    999999999 days. *)
Lemma fill_and_split_returns (entries : list SubtitlesEntry) (gape_placeholder : string) :
  Forall (fun c => offset (start_time c) /\ offset (end_time c)) entries ->
  exists result, fill_and_split entries gape_placeholder = Ok result.
Proof.
  intros Hentries. unfold fill_and_split.
  assert (H0 : offset 0) by (unfold offset; unfold_range; lia).
  destruct (gap_filling_offsets gape_placeholder entries 0 H0 Hentries) as [Hgaps Hfilled].
  destruct (Nat.eq_dec (length entries) 1) as [Hone|Hmore].
  - destruct entries as [|c [|c' entries]]; try discriminate.
    cbn. eexists. reflexivity.
  - rewrite (fill_gapes_not_single entries gape_placeholder Hmore Hgaps).
    cbn [yielded raised].
    destruct (split_all_returns _ Hfilled []) as [out ->]. cbn [bind].
    eexists. reflexivity.
Qed.

(** X17: [apply_mp4_fixes] raises nothing on realistic times.  When every cue
    starts and ends between zero and 999999999 days, in any order and with any
    overlaps, the pass returns a sequence, for any placeholder and any
    recording duration: every subtraction, division and multiplication of
    timedeltas that it makes stays in range. *)
Theorem apply_mp4_fixes_returns (entries : list SubtitlesEntry)
  (recording_duration : option timedelta) (gape_placeholder : string) :
  Forall (fun c => offset (start_time c) /\ offset (end_time c)) entries ->
  exists result, apply_mp4_fixes entries recording_duration gape_placeholder = Ok result.
Proof.
  intros Hentries. unfold apply_mp4_fixes.
  destruct (fill_and_split_returns entries gape_placeholder Hentries) as [filled Hfilled].
  rewrite Hfilled. cbn [bind].
  exists (clamp_last filled recording_duration). reflexivity.
Qed.

Lemma apply_mp4_fixes_returns_witness :
  exists result,
    apply_mp4_fixes [cue "b" 4000000000 4003000000; cue "a" 0 3000000] None "_"
    = Ok result.
Proof.
  apply (apply_mp4_fixes_returns [cue "b" 4000000000 4003000000; cue "a" 0 3000000]).
  repeat constructor; vm_compute; discriminate.
Defined.

(** ** The chat pipeline on realistic times *)

Lemma evenly_offsets (part : timedelta) (group : list BbbChatEntry) :
  0 <= part ->
  forall t : timedelta,
    0 <= t -> t + part * Z.of_nat (length group) <= - min_us ->
    Forall (fun c => offset (start_time c) /\ offset (end_time c)) (evenly part t group).
Proof.
  intros Hpart. induction group as [|e group IH]; intros t Ht Hend; cbn [evenly].
  - constructor.
  - cbn [length] in Hend. constructor.
    + cbn [start_time end_time]. unfold offset. nia.
    + apply IH; nia.
Qed.

Lemma split_group_offsets (t : timedelta) (group : list BbbChatEntry)
  (duration : timedelta) :
  keyed (t, group) ->
  0 <= t -> 0 <= duration ->
  t + duration + Z.of_nat (length group) <= - min_us ->
  exists cues,
    __split_group group duration = Ok cues
    /\ Forall (fun c => offset (start_time c) /\ offset (end_time c)) cues.
Proof.
  intros [Hne Hall] Ht Hduration Hrange. cbn [fst snd] in Hne, Hall.
  destruct (exists_last Hne) as [front [final ->]].
  assert (Hstart : timestamp (hd final front) = t).
  { rewrite Forall_forall in Hall. apply Hall. destruct front; left; reflexivity. }
  pose proof (split_group_evenly front final duration) as Hclosed.
  cbv zeta in Hclosed. rewrite Hstart in Hclosed.
  rewrite length_app in Hrange, Hclosed. cbn [length] in Hrange, Hclosed.
  assert (Hmax : - min_us <= max_us) by (unfold_range; lia).
  eexists. split; [apply Hclosed; lia|].
  set (n := Z.of_nat (length front + 1)) in *.
  assert (Hn : n = Z.of_nat (length front) + 1) by (unfold n; lia).
  pose proof (divide_nearest_bounds duration n ltac:(lia)) as Hbounds.
  assert (Hpart : 0 <= divide_nearest duration n) by (apply divide_nearest_ge; lia).
  set (part := divide_nearest duration n) in *.
  assert (Hmul : 0 <= part * Z.of_nat (length front) <= duration + n) by nia.
  apply Forall_app. split.
  - apply evenly_offsets; lia.
  - constructor; [|constructor]. cbn [start_time end_time]. unfold offset. lia.
Qed.

Lemma split_by_allotment_offsets (D : timedelta)
  (groups : list (timedelta * list BbbChatEntry)) :
  0 < D ->
  Forall keyed groups ->
  StronglySorted Z.lt (map fst groups) ->
  Forall (fun kg => 0 <= fst kg
                    /\ fst kg + D + Z.of_nat (length (snd kg)) <= - min_us) groups ->
  exists cues,
    split_by_allotment D groups = Ok cues
    /\ Forall (fun c => offset (start_time c) /\ offset (end_time c)) cues.
Proof.
  intros HD.
  induction groups as [|[t g] rest IH]; intros Hkeyed Hsorted Hrange;
    cbn [split_by_allotment].
  - exists []. split; [reflexivity | constructor].
  - apply Forall_cons_iff in Hkeyed. destruct Hkeyed as [Hk Hkeyed].
    apply Forall_cons_iff in Hrange. destruct Hrange as [[Ht0 Ht] Hrange].
    cbn [fst snd] in Ht0, Ht.
    cbn [map fst] in Hsorted. apply StronglySorted_inv in Hsorted.
    destruct Hsorted as [Hsorted Hlt].
    assert (Hallotted : 0 <= allotted_duration D t rest <= D).
    { destruct rest as [|[t' g'] rest]; cbn [allotted_duration]; [lia|].
      rewrite min_is_Zmin. cbn [map fst] in Hlt. apply Forall_inv in Hlt. lia. }
    destruct (split_group_offsets t g (allotted_duration D t rest) Hk Ht0
                ltac:(lia) ltac:(lia)) as [cues [-> Hcues]].
    destruct (IH Hkeyed Hsorted Hrange) as [more [-> Hmore]].
    cbn [bind]. exists (cues ++ more). split; [reflexivity|].
    apply Forall_app. split; assumption.
Qed.

(** X18: the chat pipeline raises nothing on a realistic chat.  For a chat
    ordered by timestamp, with timestamps from zero on and with room for
    [CHAT_ENTRY_MAX_DURATION] and one microsecond per message below 999999999
    days, [build_chat_subtitles] returns, with or without cues, for any
    recording duration. *)
Theorem build_chat_subtitles_returns (transcript : list BbbChatEntry)
  (recording_duration : timedelta) :
  StronglySorted Z.le (map timestamp transcript) ->
  Forall (fun entry =>
            0 <= timestamp entry
            /\ timestamp entry + CHAT_ENTRY_MAX_DURATION
               + Z.of_nat (length transcript) <= - min_us) transcript ->
  exists outcome, build_chat_subtitles transcript recording_duration = Ok outcome.
Proof.
  intros Hsorted Hrange. unfold build_chat_subtitles, apply_mp4_fixes.
  assert (HD : 0 < CHAT_ENTRY_MAX_DURATION) by reflexivity.
  assert (Hcues : exists cues,
            to_subtitles transcript CHAT_ENTRY_MAX_DURATION = Ok cues
            /\ Forall (fun c => offset (start_time c) /\ offset (end_time c)) cues).
  { destruct transcript as [|first others]; [exists []; split; [reflexivity | constructor]|].
    rewrite to_subtitles_by_allotment.
    - destruct (groups_of_ordered first others Hsorted)
        as [_ [Hconcat [Hkeys [Hkeyed _]]]].
      apply (split_by_allotment_offsets _ _ HD Hkeyed Hkeys).
      apply Forall_forall. intros [t g] Hin. cbn [fst snd].
      pose proof (proj1 (Forall_forall _ _) Hkeyed (t, g) Hin) as [Hne Hkey].
      cbn [fst snd] in Hne, Hkey.
      assert (Hg : In g (map snd (group_by_timestamp (first :: others)))).
      { apply in_map_iff. exists (t, g). split; [reflexivity | exact Hin]. }
      pose proof (length_le_concat g _ Hg) as Hlen. rewrite Hconcat in Hlen.
      destruct g as [|e g]; [contradiction Hne; reflexivity|].
      apply Forall_inv in Hkey.
      assert (He : In e (first :: others)).
      { rewrite <- Hconcat. apply in_concat. exists (e :: g).
        split; [exact Hg | left; reflexivity]. }
      pose proof (proj1 (Forall_forall _ _) Hrange e He) as [He0 Hemax].
      rewrite Hkey in He0, Hemax. lia.
    - eapply Forall_impl; [|exact Hrange]. intros e [He0 Hemax]. unfold offset.
      lia. }
  destruct Hcues as [cues [-> Hcues]]. cbn [bind].
  destruct (fill_and_split_returns cues default_placeholder Hcues) as [filled ->].
  cbn [bind].
  destruct (clamp_last filled (Some recording_duration)); eexists; reflexivity.
Qed.

Lemma build_chat_subtitles_returns_witness :
  exists outcome,
    build_chat_subtitles [chat "a" "x" 10; chat "b" "y" 10; chat "c" "z" 4000] (seconds 4001)
    = Ok outcome.
Proof.
  apply (build_chat_subtitles_returns
           [chat "a" "x" 10; chat "b" "y" 10; chat "c" "z" 4000] (seconds 4001)).
  - repeat constructor; vm_compute; discriminate.
  - repeat constructor; vm_compute; discriminate.
Defined.

(** ** The maximum duration of a cue *)

Lemma split_group_loop_Ok (part : timedelta) (group : list BbbChatEntry) :
  forall (xs : list nat) (out out' : list SubtitlesEntry) (t t' : timedelta),
    for_each xs
      (fun '(out, current_time) i =>
         current <- index group i ;;
         stop <- add current_time part ;;
         Ok (out ++ [mkSubtitlesEntry (__build_text current) current_time stop], stop))
      (out, t) = Ok (out', t') ->
    exists cues,
      out' = out ++ cues
      /\ Forall (fun c => end_time c - start_time c = part) cues
      /\ t' = t + part * Z.of_nat (length xs).
Proof.
  induction xs as [|i xs IH]; intros out out' t t' H; cbn [for_each] in H.
  - injection H as <- <-. exists []. rewrite app_nil_r. cbn [length].
    split; [reflexivity|]. split; [constructor | lia].
  - apply bind_Ok in H. destruct H as [[out1 t1] [Hbody H]].
    apply bind_Ok in Hbody. destruct Hbody as [current [_ Hbody]].
    apply bind_Ok in Hbody. destruct Hbody as [stop [Hstop Hbody]].
    apply of_microseconds_Ok in Hstop. destruct Hstop as [-> _].
    injection Hbody as <- <-.
    destruct (IH _ _ _ _ H) as [cues [-> [Hcues ->]]].
    exists (mkSubtitlesEntry (__build_text current) t (t + part) :: cues).
    rewrite <- app_assoc. split; [reflexivity|]. split.
    + constructor; [cbn [start_time end_time]; lia | exact Hcues].
    + cbn [length]. lia.
Qed.

Lemma split_group_durations (group : list BbbChatEntry) (duration : timedelta)
  (cues : list SubtitlesEntry) :
  0 <= duration ->
  __split_group group duration = Ok cues ->
  Forall (fun c => end_time c - start_time c <= duration) cues.
Proof.
  unfold __split_group. intros Hduration H.
  apply bind_Ok in H. destruct H as [part [Hpart H]].
  unfold div_int in Hpart.
  destruct (Z.eqb_spec (Z.of_nat (length group)) 0) as [|Hsize]; [discriminate|].
  apply of_microseconds_Ok in Hpart. destruct Hpart as [-> _].
  set (n := Z.of_nat (length group)) in *.
  assert (Hn : 1 <= n) by (unfold n in *; lia).
  assert (Hlo : 0 <= divide_nearest duration n) by (apply divide_nearest_ge; lia).
  assert (Hhi : divide_nearest duration n <= duration) by (apply divide_nearest_le; nia).
  set (part := divide_nearest duration n) in *.
  apply bind_Ok in H. destruct H as [first [_ H]].
  apply bind_Ok in H. destruct H as [[out t] [Hloop H]].
  apply bind_Ok in H. destruct H as [current [_ H]].
  apply bind_Ok in H. destruct H as [stop [Hstop H]].
  apply of_microseconds_Ok in Hstop. destruct Hstop as [-> _].
  injection H as <-.
  apply split_group_loop_Ok in Hloop. destruct Hloop as [cues' [-> [Hcues ->]]].
  cbn [app]. apply Forall_app. split.
  - eapply Forall_impl; [|exact Hcues]. intros c Hc. cbn beta in Hc. lia.
  - constructor; [|constructor]. cbn [start_time end_time].
    assert (0 <= part * Z.of_nat (length (range (length group - 1)))) by nia.
    lia.
Qed.

Lemma split_by_gaps_durations (D : timedelta)
  (groups : list (timedelta * list BbbChatEntry)) (cues : list SubtitlesEntry) :
  0 <= D ->
  StronglySorted Z.lt (map fst groups) ->
  split_by_gaps D groups = Ok cues ->
  Forall (fun c => end_time c - start_time c <= D) cues.
Proof.
  intros HD. revert cues.
  induction groups as [|[t g] rest IH]; intros cues Hsorted H; cbn [split_by_gaps] in H.
  - injection H as <-. constructor.
  - cbn [map fst] in Hsorted. apply StronglySorted_inv in Hsorted.
    destruct Hsorted as [Hsorted Hlt].
    apply bind_Ok in H. destruct H as [duration [Hduration H]].
    apply bind_Ok in H. destruct H as [first [Hfirst H]].
    apply bind_Ok in H. destruct H as [more [Hmore H]].
    injection H as <-.
    assert (Hd : 0 <= duration <= D).
    { destruct rest as [|[t' g'] rest].
      - injection Hduration as <-. lia.
      - apply bind_Ok in Hduration. destruct Hduration as [gap [Hgap Hduration]].
        apply of_microseconds_Ok in Hgap. destruct Hgap as [-> _].
        injection Hduration as <-. rewrite min_is_Zmin.
        cbn [map fst] in Hlt. apply Forall_inv in Hlt. lia. }
    apply Forall_app. split; [|apply IH; assumption].
    eapply Forall_impl; [|exact (split_group_durations g duration first (proj1 Hd) Hfirst)].
    intros c Hc. cbn beta in Hc. lia.
Qed.

(** X19: the maximum duration is respected.  For a transcript ordered by
    timestamp and a maximum duration that is not negative, no cue that
    [to_subtitles] returns lasts longer than the maximum duration, whatever
    the size of the groups. *)
Theorem to_subtitles_respects_max_duration (entries : list BbbChatEntry)
  (max_duration : timedelta) (cues : list SubtitlesEntry) :
  StronglySorted Z.le (map timestamp entries) ->
  0 <= max_duration ->
  to_subtitles entries max_duration = Ok cues ->
  Forall (fun c => end_time c - start_time c <= max_duration) cues.
Proof.
  intros Hsorted HD H. rewrite to_subtitles_by_gaps in H.
  destruct entries as [|first others].
  - injection H as <-. constructor.
  - destruct (groups_of_ordered first others Hsorted) as [_ [_ [Hkeys _]]].
    exact (split_by_gaps_durations max_duration _ cues HD Hkeys H).
Qed.

Lemma to_subtitles_respects_max_duration_witness :
  Forall (fun c => end_time c - start_time c <= seconds 3)
    [cue "a: x" 10000000 11000000; cue "b: y" 11000000 12000000;
     cue "c: z" 12000000 15000000].
Proof.
  apply (to_subtitles_respects_max_duration
           [chat "a" "x" 10; chat "b" "y" 10; chat "c" "z" 12] (seconds 3)).
  - repeat constructor; vm_compute; discriminate.
  - vm_compute. discriminate.
  - vm_compute. reflexivity.
Defined.
